(** * url-reader-mcp: the safe, budgeted crawl subsystem

    A shallow embedding of the TypeScript sources

      - [src/utils/network.ts]        (SSRF gate: [isPrivateIP], [validateHostname])
      - [src/crawler/token-counter.ts] ([estimateTokens])
      - [src/utils/url.ts]            ([normalizeUrl], [matchesPattern])
      - [src/crawler/link-resolver.ts] ([filterLinks])
      - [src/crawler/bfs-crawler.ts]  ([crawl])

    followed by the properties the specification states about them.

    Conventions.  A JavaScript string is a list of code units.  The network
    and URL code only ever looks at characters below 256, so there a string
    is a [list ascii]; the token estimator classifies UTF-16 code units by
    numeric range, so there a text is a [list Z].  JavaScript numbers are
    modelled by exact integers (and rationals in the estimator); [NaN] is
    [None].  An exception is an explicit error value. *)

From Stdlib Require Import ZArith List Ascii String Lia Bool QArith Qround.
From Stdlib Require Import Permutation.
From Stdlib Require Import DecimalString.
From stdpp Require Import gmap strings list.
Import ListNotations.

#[local] Open Scope Z_scope.

(** A JavaScript string whose code units are all below 256. *)
Abbreviation str := (list ascii).

(** Literals are written [lit "text"]. *)
Definition lit (s : string) : str := list_ascii_of_string s.

(* ===================================================================== *)
(** * Part I.  Definitions *)
(* ===================================================================== *)

(** ** The JavaScript primitives the sources rely on *)

Module JS.

Definition code (c : ascii) : Z := Z.of_N (N_of_ascii c).

Definition char_of (z : Z) : ascii := ascii_of_N (Z.to_N z).

(** [a === b] on strings. *)
Fixpoint eqb (a b : str) : bool :=
  match a, b with
  | [], [] => true
  | x :: a', y :: b' => Ascii.eqb x y && eqb a' b'
  | _, _ => false
  end.

(** [s.startsWith(p)] *)
Fixpoint startsWith (s p : str) : bool :=
  match p, s with
  | [], _ => true
  | _ :: _, [] => false
  | a :: p', b :: s' => Ascii.eqb a b && startsWith s' p'
  end.

(** [s.includes(c)] for a one-character [c]. *)
Definition includes_char (s : str) (c : ascii) : bool :=
  existsb (Ascii.eqb c) s.

(** [s.substring(0, n)] and [s.substring(n)]. *)
Definition substring_to (n : nat) (s : str) : str := firstn n s.
Definition substring_from (n : nat) (s : str) : str := skipn n s.

(** Puts a character in front of the first piece of a split. *)
Definition cons_head (a : ascii) (pieces : list str) : list str :=
  match pieces with
  | h :: r => (a :: h) :: r
  | [] => [[a]]
  end.

(** [s.split(c)] for a one-character separator: the pieces between the
    occurrences of [c]; the empty string splits into one empty piece. *)
Fixpoint split_char (c : ascii) (s : str) : list str :=
  match s with
  | [] => [[]]
  | a :: t => if Ascii.eqb a c then [] :: split_char c t
              else cons_head a (split_char c t)
  end.

(** [s.split(cc)] for the two-character separator made of [c] twice:
    occurrences are found left to right and do not overlap. *)
Fixpoint split_twice (c : ascii) (s : str) : list str :=
  match s with
  | [] => [[]]
  | a :: t =>
      match t with
      | b :: t' =>
          if Ascii.eqb a c && Ascii.eqb b c then [] :: split_twice c t'
          else cons_head a (split_twice c t)
      | [] => [[a]]
      end
  end.

(** [pieces.join(sep)] *)
Fixpoint join (sep : str) (pieces : list str) : str :=
  match pieces with
  | [] => []
  | [p] => p
  | p :: rest => p ++ sep ++ join sep rest
  end.

(** [s.padStart(n, c)] for a one-character filler. *)
Definition padStart (n : nat) (c : ascii) (s : str) : str :=
  repeat c (n - length s) ++ s.

(** Lower case of one code unit below 256: the letters A-Z, and the
    Latin-1 capitals (all of 192-222 but the multiplication sign). *)
Definition lower_char (c : ascii) : ascii :=
  let n := code c in
  if ((65 <=? n) && (n <=? 90))
     || ((192 <=? n) && (n <=? 222) && negb (n =? 215))
  then char_of (n + 32) else c.

(** [s.toLowerCase()] *)
Definition toLowerCase (s : str) : str := map lower_char s.

(** White space as [parseInt] and [trim] see it, below code unit 256. *)
Definition is_space (c : ascii) : bool :=
  let n := code c in
  ((9 <=? n) && (n <=? 13)) || (n =? 32) || (n =? 160).

Fixpoint trimStart (s : str) : str :=
  match s with
  | c :: t => if is_space c then trimStart t else s
  | [] => []
  end.

(** The value of a digit in any radix up to 36. *)
Definition digit_value (c : ascii) : option Z :=
  let n := code c in
  if (48 <=? n) && (n <=? 57) then Some (n - 48)
  else if (97 <=? n) && (n <=? 122) then Some (n - 87)
  else if (65 <=? n) && (n <=? 90) then Some (n - 55)
  else None.

Definition digit_in (radix : Z) (c : ascii) : option Z :=
  match digit_value c with
  | Some d => if d <? radix then Some d else None
  | None => None
  end.

(** The longest run of digits at the front of [s], read in [radix];
    [acc] is [None] until a first digit has been seen. *)
Fixpoint digits_prefix (radix : Z) (acc : option Z) (s : str) : option Z :=
  match s with
  | [] => acc
  | c :: t =>
      match digit_in radix c with
      | Some d =>
          digits_prefix radix
            (Some (match acc with Some a => a * radix + d | None => d end)) t
      | None => acc
      end
  end.

Definition strip_hex_prefix (s : str) : str :=
  match s with
  | z :: x :: t =>
      if Ascii.eqb z "0" && (Ascii.eqb x "x" || Ascii.eqb x "X") then t else s
  | _ => s
  end.

(** [parseInt(s, radix)] for radix 10 or 16; [None] is [NaN].  The value is
    exact, as JavaScript's is below 2^53. *)
Definition parseInt (s : str) (radix : Z) : option Z :=
  let s1 := trimStart s in
  let '(sign, s2) :=
    match s1 with
    | c :: t => if Ascii.eqb c "-" then (-1, t)
                else if Ascii.eqb c "+" then (1, t) else (1, s1)
    | [] => (1, s1)
    end in
  let s3 := if radix =? 16 then strip_hex_prefix s2 else s2 in
  match digits_prefix radix None s3 with
  | Some v => Some (sign * v)
  | None => None
  end.

(** [parseInt(a[i], radix)]: a missing element is [undefined], which
    [parseInt] reads as the string "undefined". *)
Definition parseInt_at (a : list str) (i : nat) (radix : Z) : option Z :=
  parseInt (nth i a (lit "undefined")) radix.

(** [ToInt32]: [NaN] becomes 0, integers wrap to the signed 32-bit range. *)
Definition wrap32 (z : Z) : Z := (z + 2 ^ 31) mod 2 ^ 32 - 2 ^ 31.

Definition ToInt32 (n : option Z) : Z :=
  match n with
  | Some z => wrap32 z
  | None => 0
  end.

(** [x << k], [x | y], [x >> k], [x & y] and [x >>> 0] on numbers. *)
Definition shl (x : option Z) (k : Z) : Z := wrap32 (ToInt32 x * 2 ^ k).
Definition bor (x y : Z) : Z := Z.lor x y.
Definition sar (x : option Z) (k : Z) : Z := Z.shiftr (ToInt32 x) k.
Definition band (x y : Z) : Z := Z.land x y.
Definition ushr0 (x : Z) : Z := x mod 2 ^ 32.

(** [String(n)] for an integer [n]. *)
Definition number_to_string (n : Z) : str :=
  lit (NilZero.string_of_int (Z.to_int n)).

End JS.

(** ** [src/utils/network.ts] *)

Module Network.
Import JS.

Record IPv4Range := {
  label : str;
  range_start : Z;
  range_end : Z
}.

Definition ipv4ToInt (ip : str) : Z :=
  let parts := split_char "." ip in
  ushr0
    (bor (bor (bor (shl (parseInt_at parts 0 10) 24)
                   (shl (parseInt_at parts 1 10) 16))
              (shl (parseInt_at parts 2 10) 8))
         (ToInt32 (parseInt_at parts 3 10))).

Definition IPV4_PRIVATE_RANGES : list IPv4Range :=
  [ {| label := lit "Loopback (127.0.0.0/8)";
       range_start := ipv4ToInt (lit "127.0.0.0");
       range_end := ipv4ToInt (lit "127.255.255.255") |};
    {| label := lit "Private Class A (10.0.0.0/8)";
       range_start := ipv4ToInt (lit "10.0.0.0");
       range_end := ipv4ToInt (lit "10.255.255.255") |};
    {| label := lit "Private Class B (172.16.0.0/12)";
       range_start := ipv4ToInt (lit "172.16.0.0");
       range_end := ipv4ToInt (lit "172.31.255.255") |};
    {| label := lit "Private Class C (192.168.0.0/16)";
       range_start := ipv4ToInt (lit "192.168.0.0");
       range_end := ipv4ToInt (lit "192.168.255.255") |};
    {| label := lit "Link-Local (169.254.0.0/16)";
       range_start := ipv4ToInt (lit "169.254.0.0");
       range_end := ipv4ToInt (lit "169.254.255.255") |};
    {| label := lit "This Network (0.0.0.0/8)";
       range_start := ipv4ToInt (lit "0.0.0.0");
       range_end := ipv4ToInt (lit "0.255.255.255") |};
    {| label := lit "CGNAT (100.64.0.0/10)";
       range_start := ipv4ToInt (lit "100.64.0.0");
       range_end := ipv4ToInt (lit "100.127.255.255") |};
    {| label := lit "IETF Protocol Assignments (192.0.0.0/24)";
       range_start := ipv4ToInt (lit "192.0.0.0");
       range_end := ipv4ToInt (lit "192.0.0.255") |};
    {| label := lit "Benchmarking (198.18.0.0/15)";
       range_start := ipv4ToInt (lit "198.18.0.0");
       range_end := ipv4ToInt (lit "198.19.255.255") |} ].

(** The [for ... of] loop with its early [return true]. *)
Definition isIPv4Private (ip : str) : bool :=
  let ipInt := ipv4ToInt ip in
  existsb (fun range => (range_start range <=? ipInt) && (ipInt <=? range_end range))
          IPV4_PRIVATE_RANGES.

(** [expandIPv6]; [None] is the [RangeError] of [new Array(n)] at a
    negative [n], which a text with more than eight groups around its
    "::" provokes. *)
Definition expandIPv6 (ip : str) : option str :=
  let withoutZone := nth 0 (split_char "%" ip) [] in
  let halves := split_twice ":" withoutZone in
  let groups :=
    if (length halves =? 2)%nat then
      let h0 := nth 0 halves [] in
      let h1 := nth 1 halves [] in
      let left := match h0 with [] => [] | _ => split_char ":" h0 end in
      let right := match h1 with [] => [] | _ => split_char ":" h1 end in
      let missingGroups := 8 - Z.of_nat (length left + length right) in
      if missingGroups <? 0 then None
      else Some (left ++ repeat (lit "0000") (Z.to_nat missingGroups) ++ right)
    else Some (split_char ":" withoutZone) in
  match groups with
  | Some gs => Some (join (lit ":") (map (fun g => toLowerCase (padStart 4 "0" g)) gs))
  | None => None
  end.

Definition isIPv6Private (expanded : str) : bool :=
  if eqb expanded (lit "0000:0000:0000:0000:0000:0000:0000:0001")
  then true
  else if eqb expanded (lit "0000:0000:0000:0000:0000:0000:0000:0000")
  then true
  else
    let firstTwoChars := substring_to 2 expanded in
    if eqb firstTwoChars (lit "fc")
       || eqb firstTwoChars (lit "fd")
    then true
    else
      let firstGroup := parseInt (substring_to 4 expanded) 16 in
      if match firstGroup with
         | Some g => (65152 <=? g) && (g <=? 65215)   (* 0xfe80, 0xfebf *)
         | None => false
         end
      then true
      else
        if startsWith expanded (lit "0000:0000:0000:0000:0000:ffff:") then
          let ipv4HexPart := substring_from 30 expanded in
          let hexGroups := split_char ":" ipv4HexPart in
          if (length hexGroups =? 2)%nat then
            let highWord := parseInt_at hexGroups 0 16 in
            let lowWord := parseInt_at hexGroups 1 16 in
            let ipv4 :=
              number_to_string (band (sar highWord 8) 255) ++ lit "." ++
              number_to_string (band (ToInt32 highWord) 255) ++ lit "." ++
              number_to_string (band (sar lowWord 8) 255) ++ lit "." ++
              number_to_string (band (ToInt32 lowWord) 255) in
            isIPv4Private ipv4
          else false
        else false.

(** [isPrivateIP]; [None] when [expandIPv6] throws. *)
Definition isPrivateIP (ip : str) : option bool :=
  if includes_char ip ":" then
    match expandIPv6 ip with
    | Some expanded => Some (isIPv6Private expanded)
    | None => None
    end
  else Some (isIPv4Private ip).

(** What [validateHostname] can end with. *)
Inductive block_reason :=
| NoRecords                 (* "DNS resolution failed ... no A or AAAA records found" *)
| PrivateAddress (ip : str) (* "resolves to private IP ..." *).

Inductive validation :=
| Validated
| SecurityError (why : block_reason)
| RangeError.

(** The loop over [allIPs]. *)
Fixpoint check_addresses (ips : list str) : validation :=
  match ips with
  | [] => Validated
  | ip :: rest =>
      match isPrivateIP ip with
      | Some true => SecurityError (PrivateAddress ip)
      | Some false => check_addresses rest
      | None => RangeError
      end
  end.

(** An answer of [dns.resolve4] or [dns.resolve6]: the addresses, or
    [None] when the promise rejects. *)
Definition dns_answer := option (list str).

Definition caught (a : dns_answer) : list str :=
  match a with
  | Some ips => ips
  | None => []
  end.

(** [validateHostname], given what the two lookups answer. *)
Definition validateHostname (resolve4 resolve6 : str -> dns_answer)
    (hostname : str) : validation :=
  let allIPs := caught (resolve4 hostname) ++ caught (resolve6 hostname) in
  if (length allIPs =? 0)%nat then SecurityError NoRecords
  else check_addresses allIPs.

End Network.

(** ** [src/crawler/token-counter.ts] *)

Module TokenCounter.

(** A text is its sequence of UTF-16 code units. *)
Definition text := list Z.

Definition between (lo hi c : Z) : bool := (lo <=? c) && (c <=? hi).

(** One match of [CJK_REGEX]: the regular expression has no [u] flag, so it
    tests single code units against the six ranges. *)
Definition is_cjk (c : Z) : bool :=
  between 12288 12351 c      (* 3000-303f *)
  || between 12352 12447 c   (* 3040-309f *)
  || between 12448 12543 c   (* 30a0-30ff *)
  || between 19968 40879 c   (* 4e00-9faf *)
  || between 44032 55215 c   (* ac00-d7af *)
  || between 65280 65519 c   (* ff00-ffef *).

(** One match of [\s]: white space and line terminators. *)
Definition is_whitespace (c : Z) : bool :=
  between 9 13 c || (c =? 32) || (c =? 160) || (c =? 5760)
  || between 8192 8202 c || (c =? 8232) || (c =? 8233) || (c =? 8239)
  || (c =? 8287) || (c =? 12288) || (c =? 65279).

Definition CJK_THRESHOLD : Q := 3 # 10.
Definition CHARS_PER_TOKEN_ENGLISH : Q := 4 # 1.
Definition CHARS_PER_TOKEN_CJK : Q := 3 # 2.
Definition CHARS_PER_TOKEN_MIXED : Q := 3 # 1.

(** [text.length] *)
Definition js_length (t : text) : Z := Z.of_nat (length t).

Definition countCjkCharacters (t : text) : Z :=
  js_length (List.filter is_cjk t).

(** The length of [text] once [replace] has removed every match of [\s]. *)
Definition nonWhitespaceLength (t : text) : Z :=
  js_length (List.filter (fun c => negb (is_whitespace c)) t).

(** The quotient and the comparison are exact here; on strings as long as
    JavaScript allows, the floating-point ones of the source agree. *)
Definition detectCharsPerToken (t : text) : Q :=
  let cjkCount := countCjkCharacters t in
  if cjkCount =? 0 then CHARS_PER_TOKEN_ENGLISH
  else
    let nonWs := nonWhitespaceLength t in
    if nonWs =? 0 then CHARS_PER_TOKEN_ENGLISH
    else
      let cjkRatio := (inject_Z cjkCount / inject_Z nonWs)%Q in
      if Qle_bool CJK_THRESHOLD cjkRatio then CHARS_PER_TOKEN_CJK
      else CHARS_PER_TOKEN_MIXED.

Definition estimateTokens (t : text) : Z :=
  if js_length t =? 0 then 0
  else
    let charsPerToken := detectCharsPerToken t in
    let estimated := Qceiling (inject_Z (js_length t) / charsPerToken) in
    Z.max 1 estimated.

(** *** The estimate as the specification words it

    "CJK ratio": CJK characters divided by non-whitespace characters, that
    is, a number [r] with [r * nonWhitespace = cjk]. *)
Definition is_ratio (cjk nonWs : Z) (r : Q) : Prop :=
  (r * inject_Z nonWs == inject_Z cjk)%Q.

(** "Ratio >= 0.3: divisor 1.5; 0 < ratio < 0.3: divisor 3; ratio == 0:
    divisor 4." *)
Definition stated_divisor (r d : Q) : Prop :=
  ((3 # 10) <= r /\ d = 3 # 2)%Q
  \/ (0 < r /\ r < (3 # 10) /\ d = 3 # 1)%Q
  \/ (r == 0 /\ d = 4 # 1)%Q.

(** "Result = ceil(length / divisor), floored at 1 for any non-empty
    input, and exactly 0 for empty input." *)
Definition stated_estimate (t : text) (n : Z) : Prop :=
  match t with
  | [] => n = 0
  | _ :: _ =>
      exists r d, is_ratio (countCjkCharacters t) (nonWhitespaceLength t) r
                  /\ stated_divisor r d
                  /\ n = Z.max 1 (Qceiling (inject_Z (js_length t) / d))
  end.

(** The divisor the code uses: the three cases of the specification, the
    last one widened to a text without any non-whitespace character. *)
Inductive divisor_of (cjk nonWs : Z) : Q -> Prop :=
| divisor_cjk :
    0 < nonWs -> ((3 # 10) <= inject_Z cjk / inject_Z nonWs)%Q ->
    divisor_of cjk nonWs (3 # 2)
| divisor_mixed :
    0 < nonWs -> (0 < inject_Z cjk / inject_Z nonWs)%Q ->
    (inject_Z cjk / inject_Z nonWs < (3 # 10))%Q ->
    divisor_of cjk nonWs (3 # 1)
| divisor_latin :
    cjk = 0 \/ nonWs = 0 ->
    divisor_of cjk nonWs (4 # 1).

End TokenCounter.

(** ** The URL class of the platform, as far as [src/utils/url.ts] uses it

    [new URL(text)] follows the WHATWG URL Standard.  The model covers the
    URLs of the crawl subsystem: scheme http or https, a domain name as
    host, an optional port, path, query and fragment, written in printable
    ASCII.  What the Standard would percent-encode, decode from UTF-8,
    resolve (dot segments, credentials, numeric and bracketed hosts,
    punycode labels) or strip is kept out: on such a text, as on a text the
    Standard rejects, [parse] answers [None]. *)

Module Url.
Import JS.

(** The URL record of the Standard, without credentials. *)
Record URL := {
  scheme : str;
  host : str;
  port : option Z;
  path : str;
  query : option str;
  fragment : option str
}.

Definition is_char (d c : ascii) : bool := Ascii.eqb c d.

Definition one_of (set : str) (c : ascii) : bool := existsb (Ascii.eqb c) set.

Definition is_digit (c : ascii) : bool := (48 <=? code c) && (code c <=? 57).

Definition is_alpha (c : ascii) : bool :=
  ((65 <=? code c) && (code c <=? 90)) || ((97 <=? code c) && (code c <=? 122)).

Definition is_hex_digit (c : ascii) : bool :=
  is_digit c || ((65 <=? code c) && (code c <=? 70))
  || ((97 <=? code c) && (code c <=? 102)).

Definition printable (c : ascii) : bool := (33 <=? code c) && (code c <=? 126).

Definition host_char (c : ascii) : bool :=
  is_alpha c || is_digit c || one_of (lit "-._") c.

(** Printable characters the path state copies as they are. *)
Definition path_char (c : ascii) : bool :=
  printable c && negb (one_of ("034"%char :: lit "<>`{}^\?#") c).

(** Printable characters the query state copies as they are. *)
Definition query_char (c : ascii) : bool :=
  printable c && negb (one_of ("034"%char :: lit "<>'#") c).

(** Printable characters the fragment state copies as they are. *)
Definition fragment_char (c : ascii) : bool :=
  printable c && negb (one_of ("034"%char :: lit "<>`") c).

(** The longest prefix whose characters satisfy [p], and the rest. *)
Fixpoint span (p : ascii -> bool) (s : str) : str * str :=
  match s with
  | c :: t => if p c then let '(a, b) := span p t in (c :: a, b) else ([], s)
  | [] => ([], [])
  end.

Fixpoint dropWhile (p : ascii -> bool) (s : str) : str :=
  match s with
  | c :: t => if p c then dropWhile p t else s
  | [] => []
  end.

(** The value of a run of decimal digits. *)
Definition decimal_value (digits : str) : Z :=
  fold_left (fun acc c => acc * 10 + (code c - 48)) digits 0.

Definition default_port (scheme : str) : option Z :=
  if eqb scheme (lit "http") then Some 80
  else if eqb scheme (lit "https") then Some 443
  else None.

(** The "ends in a number" check of the host parser. *)
Definition numeric_label (l : str) : bool :=
  match l with
  | [] => false
  | _ => forallb is_digit l
         || (startsWith (toLowerCase l) (lit "0x") && forallb is_hex_digit (skipn 2 l))
  end.

Definition ends_in_number (h : str) : bool :=
  let parts := split_char "." h in
  let parts := match rev parts with
               | [] :: (_ :: _) as r => rev r
               | _ => parts
               end in
  numeric_label (List.last parts []).

Definition has_punycode_label (h : str) : bool :=
  existsb (fun l => startsWith l (lit "xn--")) (split_char "." h).

(** The host of the record, for a domain in the model: lowercased. *)
Definition parse_host (h : str) : option str :=
  let lowered := toLowerCase h in
  match h with
  | [] => None
  | _ => if forallb host_char h && negb (ends_in_number lowered)
            && negb (has_punycode_label lowered)
         then Some lowered else None
  end.

(** The port of the record from what follows the host in the authority:
    nothing, or a colon and digits.  The default port of the scheme is
    recorded as null. *)
Definition parse_port (scheme after_host : str) : option (option Z) :=
  match after_host with
  | [] => Some None
  | _ :: digits =>
      if forallb is_digit digits then
        match digits with
        | [] => Some None
        | _ => let n := decimal_value digits in
               if 65535 <? n then None
               else if match default_port scheme with
                       | Some d => n =? d
                       | None => false
                       end
                    then Some None else Some (Some n)
        end
      else None
  end.

Definition dot_segment (seg : str) : bool :=
  let s := toLowerCase seg in
  existsb (eqb s) [lit "."; lit ".."; lit "%2e"; lit ".%2e"; lit "%2e."; lit "%2e%2e"].

(** The serialized path, for a path text without dot segments. *)
Definition parse_path (p : str) : option str :=
  if forallb path_char p && negb (existsb dot_segment (split_char "/" p))
  then Some (match p with [] => lit "/" | _ => p end)
  else None.

Definition hex_value (c : ascii) : Z :=
  match digit_value c with
  | Some d => d
  | None => 0
  end.

(** Percent-decoding of a byte sequence. *)
Fixpoint percent_decode (s : str) : str :=
  match s with
  | [] => []
  | c :: t =>
      match t with
      | h1 :: t1 =>
          match t1 with
          | h2 :: t2 =>
              if is_char "%" c && is_hex_digit h1 && is_hex_digit h2
              then char_of (hex_value h1 * 16 + hex_value h2) :: percent_decode t2
              else c :: percent_decode t
          | [] => c :: percent_decode t
          end
      | [] => [c]
      end
  end.

Definition plus_to_space (s : str) : str :=
  map (fun c => if is_char "+" c then " "%char else c) s.

(** One name-value pair from one piece of the query. *)
Definition parse_pair (piece : str) : str * str :=
  let '(name, rest) := span (fun c => negb (is_char "=" c)) piece in
  let value := match rest with
               | _ :: v => v
               | [] => []
               end in
  (percent_decode (plus_to_space name), percent_decode (plus_to_space value)).

(** The application/x-www-form-urlencoded parser, on bytes. *)
Definition urlencoded_parse (q : str) : list (str * str) :=
  map parse_pair
      (List.filter (fun piece => negb (eqb piece [])) (split_char "&" q)).

Definition ascii_pair (nv : str * str) : bool :=
  forallb (fun c => code c <? 128) (fst nv) && forallb (fun c => code c <? 128) (snd nv).

(** A query in the model: the names and values it denotes are ASCII, so
    that decoding them from UTF-8 changes nothing. *)
Definition parse_query (q : str) : option str :=
  if forallb query_char q && forallb ascii_pair (urlencoded_parse q)
  then Some q else None.

Definition parse_fragment (f : str) : option str :=
  if forallb fragment_char f then Some f else None.

(** [new URL(input)]; [None] is the [TypeError] (or a text outside the model). *)
Definition parse (input : str) : option URL :=
  let '(scheme_text, rest) := span (fun c => negb (is_char ":" c)) input in
  let scheme := toLowerCase scheme_text in
  match rest with
  | [] => None
  | _ :: after_colon =>
      if negb (eqb scheme (lit "http") || eqb scheme (lit "https")) then None
      else
        let after_slashes := dropWhile (one_of (lit "/\")) after_colon in
        let '(authority, rest2) :=
          span (fun c => negb (one_of (lit "/\?#") c)) after_slashes in
        let '(host_text, after_host) :=
          span (fun c => negb (is_char ":" c)) authority in
        let '(path_text, rest3) :=
          span (fun c => negb (one_of (lit "?#") c)) rest2 in
        let '(query_text, rest4) :=
          match rest3 with
          | c :: t => if is_char "?" c
                      then let '(q, r) := span (fun c => negb (is_char "#" c)) t in
                           (Some q, r)
                      else (None, rest3)
          | [] => (None, [])
          end in
        let fragment_text :=
          match rest4 with
          | _ :: f => Some f
          | [] => None
          end in
        match parse_host host_text, parse_port scheme after_host,
              parse_path path_text with
        | Some h, Some p, Some pa =>
            match query_text, fragment_text with
            | None, None =>
                Some {| scheme := scheme; host := h; port := p; path := pa;
                        query := None; fragment := None |}
            | Some q, None =>
                match parse_query q with
                | Some q' =>
                    Some {| scheme := scheme; host := h; port := p; path := pa;
                            query := Some q'; fragment := None |}
                | None => None
                end
            | None, Some f =>
                match parse_fragment f with
                | Some f' =>
                    Some {| scheme := scheme; host := h; port := p; path := pa;
                            query := None; fragment := Some f' |}
                | None => None
                end
            | Some q, Some f =>
                match parse_query q, parse_fragment f with
                | Some q', Some f' =>
                    Some {| scheme := scheme; host := h; port := p; path := pa;
                            query := Some q'; fragment := Some f' |}
                | _, _ => None
                end
            end
        | _, _, _ => None
        end
  end.

(** *** Getters *)

Definition protocol (u : URL) : str := scheme u ++ lit ":".
Definition hostname (u : URL) : str := host u.

Definition port_string (u : URL) : str :=
  match port u with
  | Some n => number_to_string n
  | None => []
  end.

Definition pathname (u : URL) : str := path u.

Definition search (u : URL) : str :=
  match query u with
  | Some (c :: q) => lit "?" ++ c :: q
  | _ => []
  end.

(** [url.href], which [url.toString()] returns: the URL serializer. *)
Definition href (u : URL) : str :=
  scheme u ++ lit "://" ++ host u
  ++ match port u with
     | Some n => lit ":" ++ number_to_string n
     | None => []
     end
  ++ path u
  ++ match query u with
     | Some q => lit "?" ++ q
     | None => []
     end
  ++ match fragment u with
     | Some f => lit "#" ++ f
     | None => []
     end.

(** *** Setters, at the empty string *)

(** [url.hash] set to the empty string. *)
Definition clear_hash (u : URL) : URL :=
  {| scheme := scheme u; host := host u; port := port u; path := path u;
     query := query u; fragment := None |}.

(** [url.port] set to the empty string. *)
Definition clear_port (u : URL) : URL :=
  {| scheme := scheme u; host := host u; port := None; path := path u;
     query := query u; fragment := fragment u |}.

(** *** [url.searchParams] *)

Definition hex_digit_upper (d : Z) : ascii :=
  if d <? 10 then char_of (48 + d) else char_of (55 + d).

Definition urlencoded_safe (c : ascii) : bool :=
  is_alpha c || is_digit c || one_of (lit "*-._") c.

Definition urlencoded_byte (c : ascii) : str :=
  if is_char " " c then lit "+"
  else if urlencoded_safe c then [c]
  else ["%"%char; hex_digit_upper (code c / 16); hex_digit_upper (code c mod 16)].

Definition urlencoded_string (s : str) : str := flat_map urlencoded_byte s.

(** The application/x-www-form-urlencoded serializer. *)
Definition urlencoded_serialize (l : list (str * str)) : str :=
  join (lit "&")
       (map (fun nv => urlencoded_string (fst nv) ++ lit "=" ++ urlencoded_string (snd nv)) l).

(** Comparison of two strings by code units. *)
Fixpoint code_unit_ltb (a b : str) : bool :=
  match a, b with
  | _, [] => false
  | [], _ :: _ => true
  | x :: a', y :: b' =>
      if code x <? code y then true
      else if code y <? code x then false
      else code_unit_ltb a' b'
  end.

(** A pair goes in front of the first pair whose name is not smaller, so
    that pairs with equal names keep their order. *)
Fixpoint insert_pair (p : str * str) (l : list (str * str)) : list (str * str) :=
  match l with
  | [] => [p]
  | q :: r => if code_unit_ltb (fst q) (fst p) then q :: insert_pair p r
              else p :: l
  end.

(** The stable sort by name of [URLSearchParams.sort()]. *)
Definition sort_pairs (l : list (str * str)) : list (str * str) :=
  fold_right insert_pair [] l.

(** [url.searchParams.sort()]: the list parsed from the query is sorted and
    written back; an empty serialization makes the query null. *)
Definition searchParams_sort (u : URL) : URL :=
  let list := urlencoded_parse (match query u with Some q => q | None => [] end) in
  let serialized := urlencoded_serialize (sort_pairs list) in
  {| scheme := scheme u; host := host u; port := port u; path := path u;
     query := match serialized with [] => None | _ => Some serialized end;
     fragment := fragment u |}.

(** ** [src/utils/url.ts] *)

(** [DEFAULT_PORTS] and its [get]. *)
Definition DEFAULT_PORTS : list (str * str) :=
  [ (lit "http:", lit "80"); (lit "https:", lit "443") ].

Definition map_get (m : list (str * str)) (k : str) : option str :=
  match List.find (fun kv => eqb (fst kv) k) m with
  | Some kv => Some (snd kv)
  | None => None
  end.

(** [s.replace] removing a slash at the very end of [s]. *)
Definition strip_trailing_slash (s : str) : str :=
  match rev s with
  | c :: r => if is_char "/" c then rev r else s
  | [] => s
  end.

(** [normalizeUrl]; [None] is the [TypeError] of [new URL]. *)
Definition normalizeUrl (url : str) : option str :=
  match parse url with
  | None => None
  | Some parsed =>
      let parsed := clear_hash parsed in
      let parsed :=
        if match map_get DEFAULT_PORTS (protocol parsed) with
           | Some d => eqb (port_string parsed) d
           | None => false
           end
        then clear_port parsed else parsed in
      let parsed := searchParams_sort parsed in
      let normalized := href parsed in
      let normalized :=
        if eqb (pathname parsed) (lit "/")
           && match search parsed with [] => true | _ => false end
        then strip_trailing_slash normalized else normalized in
      Some normalized
  end.

(** [extractDomain] *)
Definition extractDomain (url : str) : option str :=
  match parse url with
  | Some parsed => Some (hostname parsed)
  | None => None
  end.

(** *** [matchesPattern] *)

(** [.replace(/[.+?^${}()|[\]\\]/g, "\\$&")] *)
Definition regex_meta (c : ascii) : bool := one_of (lit ".+?^${}()|[]\") c.

Definition escape_meta (pattern : str) : str :=
  flat_map (fun c => if regex_meta c then ["\"%char; c] else [c]) pattern.

(** [.replace(/\*/g, ".*")] *)
Definition star_to_dot_star (s : str) : str :=
  flat_map (fun c => if is_char "*" c then lit ".*" else [c]) s.

(** The regular expressions these sources can denote. *)
Inductive atom :=
| Lit (c : ascii)   (* a character, escaped or not *)
| AnyChar           (* [.] *)
| AnyStar           (* [.*] *).

(** [new RegExp(source)] on such a source; [None] is the [SyntaxError] of
    a quantifier with nothing to repeat or a lone backslash. *)
Fixpoint compile (source : str) : option (list atom) :=
  match source with
  | [] => Some []
  | c :: t =>
      if is_char "\" c then
        match t with
        | d :: t' => option_map (cons (Lit d)) (compile t')
        | [] => None
        end
      else if is_char "." c then
        match t with
        | d :: t' => if is_char "*" d then option_map (cons AnyStar) (compile t')
                     else option_map (cons AnyChar) (compile t)
        | [] => Some [AnyChar]
        end
      else if is_char "*" c then None
      else option_map (cons (Lit c)) (compile t)
  end.

(** Case folding of the [i] flag, on code units below 256: upper case. *)
Definition canonicalize (c : ascii) : ascii :=
  let n := code c in
  if ((97 <=? n) && (n <=? 122))
     || ((224 <=? n) && (n <=? 254) && negb (n =? 247))
  then char_of (n - 32) else c.

(** [.] matches anything but a line terminator. *)
Definition line_terminator (c : ascii) : bool := (code c =? 10) || (code c =? 13).

(** [^atoms$] matches the whole of [s]. *)
Fixpoint matches (atoms : list atom) : str -> bool :=
  match atoms with
  | [] => fun s => match s with [] => true | _ => false end
  | Lit c :: rest =>
      fun s => match s with
               | x :: t => Ascii.eqb (canonicalize x) (canonicalize c) && matches rest t
               | [] => false
               end
  | AnyChar :: rest =>
      fun s => match s with
               | x :: t => negb (line_terminator x) && matches rest t
               | [] => false
               end
  | AnyStar :: rest =>
      fix star (s : str) : bool :=
        matches rest s
        || match s with
           | x :: t => negb (line_terminator x) && star t
           | [] => false
           end
  end.

Definition matchesPattern (url pattern : str) : bool :=
  let escapedPattern := star_to_dot_star (escape_meta pattern) in
  match compile escapedPattern with
  | Some regex => matches regex url
  | None => false
  end.

(** *** A URL text by its parts, and the records [parse] builds *)

(** [s] is empty or starts with a character [p] rejects. *)
Definition stops (p : ascii -> bool) (s : str) : bool :=
  match s with
  | c :: _ => negb (p c)
  | [] => true
  end.

Definition opt_part (mark : str) (o : option str) : str :=
  match o with
  | Some x => mark ++ x
  | None => []
  end.

(** scheme, colon, slashes, host, port, path, query, fragment. *)
Definition compose (scheme_text slashes host_text port_part path_text : str)
    (q f : option str) : str :=
  scheme_text ++ lit ":" ++ slashes ++ host_text ++ port_part ++ path_text
  ++ opt_part (lit "?") q ++ opt_part (lit "#") f.

Definition valid_part (check : str -> option str) (o : option str) : Prop :=
  forall x, o = Some x -> check x = Some x.

(** What follows the host in an authority: nothing, or a colon and digits. *)
Definition port_part_ok (s : str) : bool :=
  match s with
  | [] => true
  | c :: digits => is_char ":" c && forallb is_digit digits
  end.

(** What follows the authority: nothing, or a path from its slash on. *)
Definition path_text_ok (s : str) : bool :=
  match s with
  | [] => true
  | c :: _ => is_char "/" c
  end.

Definition port_part_of (u : URL) : str :=
  match port u with
  | Some n => lit ":" ++ number_to_string n
  | None => []
  end.

(** The records [parse] builds. *)
Definition well_formed (u : URL) : Prop :=
  (scheme u = lit "http" \/ scheme u = lit "https")
  /\ parse_host (host u) = Some (host u)
  /\ match port u with
     | Some n => 0 <= n < 65536 /\ default_port (scheme u) <> Some n
     | None => True
     end
  /\ parse_path (path u) = Some (path u)
  /\ (exists t, path u = "/"%char :: t)
  /\ valid_part parse_query (query u)
  /\ valid_part parse_fragment (fragment u).

(** The record [normalizeUrl] serializes. *)
Definition canonical (parsed : URL) : URL :=
  let parsed := clear_hash parsed in
  let parsed :=
    if match map_get DEFAULT_PORTS (protocol parsed) with
       | Some d => eqb (port_string parsed) d
       | None => false
       end
    then clear_port parsed else parsed in
  searchParams_sort parsed.

(** The text [normalizeUrl] returns for it. *)
Definition written (parsed : URL) : str :=
  if eqb (pathname parsed) (lit "/")
     && match search parsed with [] => true | _ => false end
  then strip_trailing_slash (href parsed) else href parsed.

(** The order of [URLSearchParams.sort()]: no name is followed by a smaller one. *)
Fixpoint sorted_by_name (l : list (str * str)) : Prop :=
  match l with
  | [] => True
  | p :: rest =>
      match rest with
      | [] => True
      | q :: _ => code_unit_ltb (fst q) (fst p) = false
      end /\ sorted_by_name rest
  end.

End Url.

(** ** [src/crawler/link-resolver.ts] *)

Module LinkResolver.
Import JS.

Record ResolvedLink := {
  text : TokenCounter.text;
  url : str;
  isInternal : bool
}.

Inductive link_kind := internal | external | all.

(** Every field is optional: [None] is [undefined]. *)
Record LinkFilterOptions := {
  allowedDomains : option (list str);
  excludePatterns : option (list str);
  includePatterns : option (list str);
  filter : option link_kind
}.

Definition is_kind (k : link_kind) (o : option link_kind) : bool :=
  match o, k with
  | Some internal, internal | Some external, external | Some all, all => true
  | _, _ => false
  end.

(** The callback of [links.filter]: [Some true] keeps the link, [Some
    false] drops it, [None] is the [TypeError] of [extractDomain]. *)
Definition keep_link (options : LinkFilterOptions) (link : ResolvedLink) : option bool :=
  (* Filter 1: internal/external classification *)
  if is_kind internal (filter options) && negb (isInternal link) then Some false
  else if is_kind external (filter options) && isInternal link then Some false
  else
    (* Filter 2: allowed domains whitelist *)
    match
      match allowedDomains options with
      | Some (d :: ds) =>
          match Url.extractDomain (url link) with
          | Some linkDomain =>
              Some (existsb (fun domain => eqb (toLowerCase domain) (toLowerCase linkDomain))
                            (d :: ds))
          | None => None
          end
      | _ => Some true
      end
    with
    | None => None
    | Some false => Some false
    | Some true =>
        (* Filter 3: include patterns *)
        if match includePatterns options with
           | Some (p :: ps) =>
               negb (existsb (fun pattern => Url.matchesPattern (url link) pattern) (p :: ps))
           | _ => false
           end
        then Some false
        else
          (* Filter 4: exclude patterns *)
          if match excludePatterns options with
             | Some (p :: ps) =>
                 existsb (fun pattern => Url.matchesPattern (url link) pattern) (p :: ps)
             | _ => false
             end
          then Some false
          else Some true
    end.

(** [Array.prototype.filter] with a callback that can throw. *)
Fixpoint filter_links (keep : ResolvedLink -> option bool) (links : list ResolvedLink)
  : option (list ResolvedLink) :=
  match links with
  | [] => Some []
  | link :: rest =>
      match keep link with
      | None => None
      | Some b =>
          match filter_links keep rest with
          | None => None
          | Some kept => Some (if b then link :: kept else kept)
          end
      end
  end.

Definition filterLinks (links : list ResolvedLink) (baseDomain : str)
    (options : LinkFilterOptions) : option (list ResolvedLink) :=
  filter_links (keep_link options) links.

End LinkResolver.

(** ** [src/crawler/bfs-crawler.ts] *)

Module PageResult.
(** What [crawl] reads of the result of [extractPage]. *)
Record t := {
  title : TokenCounter.text;
  content : TokenCounter.text;
  html : option TokenCounter.text
}.
End PageResult.

Module QueueEntry.
Record t := {
  url : str;
  depth : Z
}.
End QueueEntry.

Module CrawlPageResult.
Record t := {
  url : str;
  title : TokenCounter.text;
  content : TokenCounter.text;
  depth : Z;
  links_found : Z;
  tokens : Z
}.

Definition with_links_found (n : Z) (p : t) : t :=
  {| url := url p; title := title p; content := content p; depth := depth p;
     links_found := n; tokens := tokens p |}.
End CrawlPageResult.

Module Crawler.
Import JS LinkResolver.

Record CrawlOptions := {
  maxTokens : option Z;
  allowedDomains : option (list str);
  excludePatterns : option (list str);
  includePatterns : option (list str)
}.

Inductive stopped_reason := token_limit | no_more_links | all_visited.

Record Summary := {
  total_pages : Z;
  total_tokens : Z;
  max_depth_reached : Z;
  stopped_reason_of : stopped_reason
}.

Record CrawlResult := {
  pages : list CrawlPageResult.t;
  summary : Summary
}.

(** The variables of the main loop. *)
Record state := {
  queue : list QueueEntry.t;
  visited : gset str;
  crawled : list CrawlPageResult.t;   (* [pages] *)
  totalTokens : Z;
  maxDepthReached : Z;
  stoppedReason : stopped_reason
}.

(** How one turn of the loop ends. *)
Inductive flow :=
| Next (s : state)     (* on to the next turn, also by [continue] *)
| Break (s : state)    (* [break] *)
| Throw                (* an exception leaves [crawl] *).

(** How a call ends; the loop of the model stops after [fuel] turns. *)
Inductive outcome (A : Type) :=
| Returned (a : A)
| Threw
| OutOfFuel.
Arguments Returned {A} a.
Arguments Threw {A}.
Arguments OutOfFuel {A}.

Definition stopped_eqb (a b : stopped_reason) : bool :=
  match a, b with
  | token_limit, token_limit | no_more_links, no_more_links
  | all_visited, all_visited => true
  | _, _ => false
  end.

Section Engine.

(** [config.defaultMaxTokens], read from the environment (100000 if unset). *)
Variable defaultMaxTokens : Z.

(** [extractPage], the extraction collaborator; [None] when it fails. *)
Variable extractPage : str -> option PageResult.t.

(** [extractLinks(html, baseUrl)], the link discovery over the parsed page. *)
Variable extractLinks : TokenCounter.text -> str -> list ResolvedLink.

(** The [for ... of] loop that enqueues the links not visited yet. *)
Definition enqueue_links (visited : gset str) (depth : Z)
    (links : list ResolvedLink) (queue : list QueueEntry.t) : list QueueEntry.t :=
  fold_left
    (fun q link =>
       if decide (url link ∈ visited) then q
       else q ++ [ {| QueueEntry.url := url link; QueueEntry.depth := depth + 1 |} ])
    links queue.

(** One turn of the [while] loop, after [queue.shift()] gave [entry]. *)
Definition turn (maxTokens : Z) (linkFilterOptions : LinkFilterOptions)
    (startDomain : str) (entry : QueueEntry.t) (s : state) : flow :=
  if decide (QueueEntry.url entry ∈ visited s) then Next s
  else
    let visited' := visited s ∪ {[ QueueEntry.url entry ]} in
    let maxDepthReached' :=
      if maxDepthReached s <? QueueEntry.depth entry then QueueEntry.depth entry
      else maxDepthReached s in
    match extractPage (QueueEntry.url entry) with
    | None =>
        Next {| queue := queue s; visited := visited'; crawled := crawled s;
                totalTokens := totalTokens s; maxDepthReached := maxDepthReached';
                stoppedReason := stoppedReason s |}
    | Some pageResult =>
        let pageTokens := TokenCounter.estimateTokens (PageResult.content pageResult) in
        let pages' :=
          crawled s ++
          [ {| CrawlPageResult.url := QueueEntry.url entry;
               CrawlPageResult.title := PageResult.title pageResult;
               CrawlPageResult.content := PageResult.content pageResult;
               CrawlPageResult.depth := QueueEntry.depth entry;
               CrawlPageResult.links_found := 0;
               CrawlPageResult.tokens := pageTokens |} ] in
        let totalTokens' := totalTokens s + pageTokens in
        if maxTokens <=? totalTokens' then
          Break {| queue := queue s; visited := visited'; crawled := pages';
                   totalTokens := totalTokens'; maxDepthReached := maxDepthReached';
                   stoppedReason := token_limit |}
        else
          let set_last linksFound :=
            alter (CrawlPageResult.with_links_found linksFound)
                  (length pages' - 1)%nat pages' in
          match PageResult.html pageResult with
          | Some (c :: h) =>
              let allLinks := extractLinks (c :: h) (QueueEntry.url entry) in
              let linksFound := Z.of_nat (length allLinks) in
              match filterLinks allLinks startDomain linkFilterOptions with
              | None => Throw
              | Some filteredLinks =>
                  Next {| queue := enqueue_links visited' (QueueEntry.depth entry)
                                                 filteredLinks (queue s);
                          visited := visited'; crawled := set_last linksFound;
                          totalTokens := totalTokens'; maxDepthReached := maxDepthReached';
                          stoppedReason := stoppedReason s |}
              end
          | _ =>
              Next {| queue := queue s; visited := visited'; crawled := set_last 0;
                      totalTokens := totalTokens'; maxDepthReached := maxDepthReached';
                      stoppedReason := stoppedReason s |}
          end
    end.

Definition shifted (s : state) (rest : list QueueEntry.t) : state :=
  {| queue := rest; visited := visited s; crawled := crawled s;
     totalTokens := totalTokens s; maxDepthReached := maxDepthReached s;
     stoppedReason := stoppedReason s |}.

(** The [while (queue.length > 0)] loop, for at most [fuel] turns. *)
Fixpoint loop (fuel : nat) (maxTokens : Z) (linkFilterOptions : LinkFilterOptions)
    (startDomain : str) (s : state) : outcome state :=
  match queue s with
  | [] => Returned s
  | entry :: rest =>
      match fuel with
      | O => OutOfFuel
      | S fuel' =>
          match turn maxTokens linkFilterOptions startDomain entry (shifted s rest) with
          | Next s' => loop fuel' maxTokens linkFilterOptions startDomain s'
          | Break s' => Returned s'
          | Throw => Threw
          end
      end
  end.

(** The stop reason and the result built after the loop. *)
Definition result_of (s : state) : CrawlResult :=
  let stoppedReason :=
    if negb (stopped_eqb (stoppedReason s) token_limit) then
      if (0 <? Z.of_nat (size (visited s))) && (length (queue s) =? 0)%nat then
        if Z.of_nat (length (crawled s)) <? Z.of_nat (size (visited s))
        then no_more_links else all_visited
      else stoppedReason s
    else stoppedReason s in
  {| pages := crawled s;
     summary := {| total_pages := Z.of_nat (length (crawled s));
                   total_tokens := totalTokens s;
                   max_depth_reached := maxDepthReached s;
                   stopped_reason_of := stoppedReason |} |}.

Definition initial (normalizedStart : str) : state :=
  {| queue := [ {| QueueEntry.url := normalizedStart; QueueEntry.depth := 0 |} ];
     visited := ∅; crawled := []; totalTokens := 0; maxDepthReached := 0;
     stoppedReason := no_more_links |}.

(** [crawl(startUrl, options)] *)
Definition crawl (fuel : nat) (startUrl : str) (options : option CrawlOptions)
  : outcome CrawlResult :=
  let maxTokens :=
    match options with
    | Some o => match maxTokens o with Some m => m | None => defaultMaxTokens end
    | None => defaultMaxTokens
    end in
  let linkFilterOptions :=
    {| LinkResolver.allowedDomains :=
         match options with Some o => allowedDomains o | None => None end;
       LinkResolver.excludePatterns :=
         match options with Some o => excludePatterns o | None => None end;
       LinkResolver.includePatterns :=
         match options with Some o => includePatterns o | None => None end;
       LinkResolver.filter := Some all |} in
  match Url.normalizeUrl startUrl with
  | None => Threw
  | Some normalizedStart =>
      match Url.extractDomain normalizedStart with
      | None => Threw
      | Some startDomain =>
          match loop fuel maxTokens linkFilterOptions startDomain (initial normalizedStart) with
          | Returned s => Returned (result_of s)
          | Threw => Threw
          | OutOfFuel => OutOfFuel
          end
      end
  end.

End Engine.

End Crawler.

(** ** Addresses as the specification names them *)

Module Address.
Import JS.

(** The text of the IPv4 address [a.b.c.d]. *)
Definition dotted (a b c d : Z) : str :=
  number_to_string a ++ lit "." ++ number_to_string b ++ lit "."
  ++ number_to_string c ++ lit "." ++ number_to_string d.

(** Its value as a 32-bit integer. *)
Definition ipv4_value (a b c d : Z) : Z := a * 2 ^ 24 + b * 2 ^ 16 + c * 2 ^ 8 + d.

Definition octet (a : Z) : Prop := 0 <= a <= 255.

(** The block [a.b.c.d/prefix]: from its first address to its last. *)
Definition in_block (a b c d prefix : Z) (n : Z) : Prop :=
  ipv4_value a b c d <= n <= ipv4_value a b c d + 2 ^ (32 - prefix) - 1.

(** "IPv4 ranges blocked": the nine blocks of the specification. *)
Definition blocked_ipv4 (n : Z) : Prop :=
  in_block 127 0 0 0 8 n \/ in_block 10 0 0 0 8 n \/ in_block 172 16 0 0 12 n
  \/ in_block 192 168 0 0 16 n \/ in_block 169 254 0 0 16 n \/ in_block 0 0 0 0 8 n
  \/ in_block 100 64 0 0 10 n \/ in_block 192 0 0 0 24 n \/ in_block 198 18 0 0 15 n.

(** One group of an IPv6 text: one to four hexadecimal digits. *)
Definition hextet (h : str) : bool :=
  (1 <=? length h)%nat && (length h <=? 4)%nat && forallb Url.is_hex_digit h.

Definition hextet_value (h : str) : Z :=
  fold_left (fun acc c => acc * 16 + Url.hex_value c) h 0.

(** The texts of an IPv6 address in hexadecimal groups: all eight groups,
    or some groups on either side of one "::". *)
Inductive ipv6_text :=
| Full (groups : list str)
| Compressed (left right : list str).

Definition well_formed (t : ipv6_text) : bool :=
  match t with
  | Full gs => (length gs =? 8)%nat && forallb hextet gs
  | Compressed l r => (length l + length r <=? 7)%nat && forallb hextet l && forallb hextet r
  end.

Definition render (t : ipv6_text) : str :=
  match t with
  | Full gs => join (lit ":") gs
  | Compressed l r => join (lit ":") l ++ lit "::" ++ join (lit ":") r
  end.

(** The eight 16-bit groups the text denotes. *)
Definition groups_of (t : ipv6_text) : list Z :=
  match t with
  | Full gs => map hextet_value gs
  | Compressed l r =>
      map hextet_value l ++ repeat 0 (8 - (length l + length r)) ++ map hextet_value r
  end.

Definition hex_char (d : Z) : ascii :=
  if d <? 10 then char_of (48 + d) else char_of (87 + d).

(** A group in four lower-case digits. *)
Definition hex4 (v : Z) : str :=
  [ hex_char (v / 4096 mod 16); hex_char (v / 256 mod 16);
    hex_char (v / 16 mod 16); hex_char (v mod 16) ].

(** The address in full: eight groups of four digits. *)
Definition expanded_form (groups : list Z) : str := join (lit ":") (map hex4 groups).

End Address.

(** ** Checks by enumeration

    Facts about the characters and the small numbers are checked on each
    of them; these are the checkers. *)

Module Range.

(** [P] holds of [start], [start + 1], ..., [count] numbers in all. *)
Fixpoint all_from (P : Z -> bool) (start : Z) (count : nat) : bool :=
  match count with
  | O => true
  | S k => P start && all_from P (start + 1) k
  end.

End Range.

Module AddressChecks.
Import JS Network Address.

Definition option_Z_eqb (a : option Z) (b : Z) : bool :=
  match a with Some x => x =? b | None => false end.

Definition octet_text_ok (n : Z) : bool :=
  negb (includes_char (number_to_string n) ".")
  && negb (includes_char (number_to_string n) ":")
  && option_Z_eqb (parseInt (number_to_string n) 10) n.

(** [s] holds the character [c] twice in a row. *)
Fixpoint has_twice (c : ascii) (s : str) : bool :=
  match s with
  | a :: t => match t with
              | b :: _ => (Ascii.eqb a c && Ascii.eqb b c) || has_twice c t
              | [] => false
              end
  | [] => false
  end.

Definition ends_with (c : ascii) (s : str) : bool :=
  match rev s with
  | a :: _ => Ascii.eqb a c
  | [] => false
  end.

Definition hex_free (c : ascii) : Prop := Url.is_hex_digit c = false.

Definition hex_digit_ok (c : ascii) : bool :=
  implb (Url.is_hex_digit c)
        (Ascii.eqb (lower_char c) (hex_char (Url.hex_value c))
         && (0 <=? Url.hex_value c) && (Url.hex_value c <? 16)).

Definition hex_char_ok (d : Z) : bool :=
  negb (is_space (hex_char d))
  && option_Z_eqb (digit_in 16 (hex_char d)) d
  && negb (Ascii.eqb (hex_char d) "-") && negb (Ascii.eqb (hex_char d) "+")
  && negb (Ascii.eqb (hex_char d) "x") && negb (Ascii.eqb (hex_char d) "X").

End AddressChecks.

(** ** The IPv6 blocks of the specification, on the eight groups *)

Module Ipv6Blocks.

Definition loopback : list Z := [0; 0; 0; 0; 0; 0; 0; 1].

Definition unspecified : list Z := [0; 0; 0; 0; 0; 0; 0; 0].

Definition unique_local (groups : list Z) : Prop :=
  exists g rest, groups = g :: rest /\ (g / 256 = 252 \/ g / 256 = 253).

Definition link_local (groups : list Z) : Prop :=
  exists g rest, groups = g :: rest /\ 65152 <= g <= 65215.

Definition blocked_ipv6 (groups : list Z) : Prop :=
  groups = loopback \/ groups = unspecified \/ unique_local groups \/ link_local groups.

End Ipv6Blocks.

(** ** The normal form of a URL, as the specification words it *)

Module UrlModel.
Import JS Url.

Definition port_text_ok (n : Z) : bool :=
  forallb is_digit (number_to_string n)
  && negb (eqb (number_to_string n) [])
  && (decimal_value (number_to_string n) =? n).

Definition plain_char (x : ascii) : bool :=
  negb (is_char "&" x) && negb (is_char "=" x) && query_char x.

Definition byte_encoding_ok (c : ascii) : bool :=
  match urlencoded_byte c with
  | [x] => Ascii.eqb (if is_char "+" x then " "%char else x) c && negb (is_char "%" c)
  | [x; h1; h2] =>
      is_char "%" x && is_hex_digit h1 && is_hex_digit h2
      && negb (is_char "+" h1) && negb (is_char "+" h2)
      && Ascii.eqb (char_of (hex_value h1 * 16 + hex_value h2)) c
  | _ => false
  end
  && forallb plain_char (urlencoded_byte c).

Definition encode_pair (nv : str * str) : str :=
  urlencoded_string (fst nv) ++ lit "=" ++ urlencoded_string (snd nv).

(** The query of the normalized URL: the pairs of [q], sorted by name. *)
Definition sorted_query (q : option str) : str :=
  urlencoded_serialize
    (sort_pairs (urlencoded_parse (match q with Some x => x | None => [] end))).

(** The port of the record, for the text after the host. *)
Definition port_of_text (scheme after_host : str) : option Z :=
  match after_host with
  | _ :: (_ :: _) as digits =>
      if match default_port scheme with
         | Some d => decimal_value digits =? d
         | None => false
         end
      then None else Some (decimal_value digits)
  | _ => None
  end.

(** "Lowercase scheme and host; strip the fragment; strip the default port
    for the scheme; sort query parameters by key; strip a lone trailing
    slash only when the path is exactly / and there is no query string." *)
Definition normal_form (scheme_text host_text port_part path_text : str)
    (q : option str) : str :=
  toLowerCase scheme_text ++ lit "://" ++ toLowerCase host_text
  ++ match port_of_text (toLowerCase scheme_text) port_part with
     | Some n => lit ":" ++ number_to_string n
     | None => []
     end
  ++ match sorted_query q with
     | [] => match path_text with
             | [] | ["/"%char] => []
             | _ => path_text
             end
     | c :: s => match path_text with
                 | [] => lit "/"
                 | _ => path_text
                 end ++ lit "?" ++ c :: s
     end.

End UrlModel.

(** ** The crawl: what the result is made of, and what a turn does *)

Module CrawlerModel.
Import JS LinkResolver Crawler.

Definition sum_tokens (pages : list CrawlPageResult.t) : Z :=
  fold_right Z.add 0 (map CrawlPageResult.tokens pages).

(** [max(pages[i].depth)], 0 if no pages. *)
Definition max_depth (pages : list CrawlPageResult.t) : Z :=
  fold_right Z.max 0 (map CrawlPageResult.depth pages).

(** The page result [crawl] appends for [entry]. *)
Definition page_of (entry : QueueEntry.t) (pageResult : PageResult.t) (linksFound : Z)
  : CrawlPageResult.t :=
  {| CrawlPageResult.url := QueueEntry.url entry;
     CrawlPageResult.title := PageResult.title pageResult;
     CrawlPageResult.content := PageResult.content pageResult;
     CrawlPageResult.depth := QueueEntry.depth entry;
     CrawlPageResult.links_found := linksFound;
     CrawlPageResult.tokens := TokenCounter.estimateTokens (PageResult.content pageResult) |}.

Definition options_maxTokens (defaultMaxTokens : Z) (options : option CrawlOptions) : Z :=
  match options with
  | Some o => match maxTokens o with Some m => m | None => defaultMaxTokens end
  | None => defaultMaxTokens
  end.

Definition options_filter (options : option CrawlOptions) : LinkFilterOptions :=
  {| LinkResolver.allowedDomains :=
       match options with Some o => allowedDomains o | None => None end;
     LinkResolver.excludePatterns :=
       match options with Some o => excludePatterns o | None => None end;
     LinkResolver.includePatterns :=
       match options with Some o => includePatterns o | None => None end;
     LinkResolver.filter := Some all |}.

(** A page result holds what the extraction returned for its URL, whole. *)
Definition kept_in_full (extractPage : str -> option PageResult.t)
    (p : CrawlPageResult.t) : Prop :=
  exists pageResult,
    extractPage (CrawlPageResult.url p) = Some pageResult
    /\ CrawlPageResult.title p = PageResult.title pageResult
    /\ CrawlPageResult.content p = PageResult.content pageResult
    /\ CrawlPageResult.tokens p = TokenCounter.estimateTokens (PageResult.content pageResult).

Definition seed_entry (normalizedStart : str) : QueueEntry.t :=
  {| QueueEntry.url := normalizedStart; QueueEntry.depth := 0 |}.

Definition empty_result : CrawlResult :=
  {| pages := [];
     summary := {| total_pages := 0; total_tokens := 0; max_depth_reached := 0;
                   stopped_reason_of := no_more_links |} |}.

(** The pages of a crawl are the seed page alone. *)
Definition seed_page_only (normalizedStart : str) (pageResult : PageResult.t)
    (pages : list CrawlPageResult.t) : Prop :=
  exists linksFound, pages = [page_of (seed_entry normalizedStart) pageResult linksFound].

Section Engine.

Variable extractPage : str -> option PageResult.t.
Variable extractLinks : TokenCounter.text -> str -> list ResolvedLink.

(** The cases of one turn of the loop of [crawl]. *)
(** What one turn can do. *)
Inductive turn_spec (maxTokens : Z) (options : LinkFilterOptions) (startDomain : str)
    (entry : QueueEntry.t) (s : state) : flow -> Prop :=
| turn_skip :
    QueueEntry.url entry ∈ visited s ->
    turn_spec maxTokens options startDomain entry s (Next s)
| turn_failed :
    QueueEntry.url entry ∉ visited s ->
    extractPage (QueueEntry.url entry) = None ->
    turn_spec maxTokens options startDomain entry s
      (Next {| queue := queue s; visited := visited s ∪ {[ QueueEntry.url entry ]};
               crawled := crawled s; totalTokens := totalTokens s;
               maxDepthReached := Z.max (maxDepthReached s) (QueueEntry.depth entry);
               stoppedReason := stoppedReason s |})
| turn_budget pageResult :
    QueueEntry.url entry ∉ visited s ->
    extractPage (QueueEntry.url entry) = Some pageResult ->
    maxTokens <= totalTokens s + TokenCounter.estimateTokens (PageResult.content pageResult) ->
    turn_spec maxTokens options startDomain entry s
      (Break {| queue := queue s; visited := visited s ∪ {[ QueueEntry.url entry ]};
                crawled := crawled s ++ [page_of entry pageResult 0];
                totalTokens := totalTokens s
                               + TokenCounter.estimateTokens (PageResult.content pageResult);
                maxDepthReached := Z.max (maxDepthReached s) (QueueEntry.depth entry);
                stoppedReason := token_limit |})
| turn_thrown pageResult c h :
    QueueEntry.url entry ∉ visited s ->
    extractPage (QueueEntry.url entry) = Some pageResult ->
    totalTokens s + TokenCounter.estimateTokens (PageResult.content pageResult) < maxTokens ->
    PageResult.html pageResult = Some (c :: h) ->
    filterLinks (extractLinks (c :: h) (QueueEntry.url entry)) startDomain options = None ->
    turn_spec maxTokens options startDomain entry s Throw
| turn_links pageResult c h filteredLinks :
    QueueEntry.url entry ∉ visited s ->
    extractPage (QueueEntry.url entry) = Some pageResult ->
    totalTokens s + TokenCounter.estimateTokens (PageResult.content pageResult) < maxTokens ->
    PageResult.html pageResult = Some (c :: h) ->
    filterLinks (extractLinks (c :: h) (QueueEntry.url entry)) startDomain options
    = Some filteredLinks ->
    turn_spec maxTokens options startDomain entry s
      (Next {| queue := enqueue_links (visited s ∪ {[ QueueEntry.url entry ]})
                                      (QueueEntry.depth entry) filteredLinks (queue s);
               visited := visited s ∪ {[ QueueEntry.url entry ]};
               crawled := crawled s
                          ++ [page_of entry pageResult
                                (Z.of_nat (length (extractLinks (c :: h) (QueueEntry.url entry))))];
               totalTokens := totalTokens s
                              + TokenCounter.estimateTokens (PageResult.content pageResult);
               maxDepthReached := Z.max (maxDepthReached s) (QueueEntry.depth entry);
               stoppedReason := stoppedReason s |})
| turn_no_html pageResult :
    QueueEntry.url entry ∉ visited s ->
    extractPage (QueueEntry.url entry) = Some pageResult ->
    totalTokens s + TokenCounter.estimateTokens (PageResult.content pageResult) < maxTokens ->
    (PageResult.html pageResult = None \/ PageResult.html pageResult = Some []) ->
    turn_spec maxTokens options startDomain entry s
      (Next {| queue := queue s; visited := visited s ∪ {[ QueueEntry.url entry ]};
               crawled := crawled s ++ [page_of entry pageResult 0];
               totalTokens := totalTokens s
                              + TokenCounter.estimateTokens (PageResult.content pageResult);
               maxDepthReached := Z.max (maxDepthReached s) (QueueEntry.depth entry);
               stoppedReason := stoppedReason s |}).

(** What holds during the loop while the budget is not reached, and after it. *)
Definition under_budget (maxTokens : Z) (s : state) : Prop :=
  totalTokens s = sum_tokens (crawled s)
  /\ Forall (kept_in_full extractPage) (crawled s)
  /\ stoppedReason s = no_more_links
  /\ (crawled s = [] \/ totalTokens s < maxTokens).

Definition budget_outcome (maxTokens : Z) (s : state) : Prop :=
  totalTokens s = sum_tokens (crawled s)
  /\ Forall (kept_in_full extractPage) (crawled s)
  /\ ((stoppedReason s = token_limit
       /\ exists before last,
            crawled s = before ++ [last]
            /\ (before = [] \/ sum_tokens before < maxTokens)
            /\ maxTokens <= sum_tokens before + CrawlPageResult.tokens last)
      \/ (stoppedReason s = no_more_links /\ (crawled s = [] \/ totalTokens s < maxTokens))).

(** What the loop keeps about the depths. *)
Definition depth_tracked (s : state) : Prop :=
  max_depth (crawled s) <= maxDepthReached s
  /\ (crawled s = [] ->
      maxDepthReached s = 0 /\ Forall (fun e => QueueEntry.depth e = 0) (queue s))
  /\ ((forall u, extractPage u <> None) -> maxDepthReached s = max_depth (crawled s)).

(** The URLs of [web] not visited yet. *)
Definition unvisited (web : list str) (s : state) : gset str :=
  list_to_set web ∖ visited s.

(** While every URL but the seed fails, the pages are the seed page. *)
Definition seed_alone (n : str) (p : PageResult.t) (s : state) : Prop :=
  (crawled s = [] /\ visited s = ∅ /\ queue s = [seed_entry n])
  \/ (seed_page_only n p (crawled s) /\ n ∈ visited s).

End Engine.

End CrawlerModel.

(** ** Inputs of the examples *)

Module Examples.
Import JS Network Crawler LinkResolver.

(** Resolvers: one that answers the same addresses for every name, one
    that always fails. *)
Definition only_aaaa (answer : list str) : str -> dns_answer := fun _ => Some answer.

Definition no_answer : str -> dns_answer := fun _ => None.

Definition blog_admin : ResolvedLink :=
  {| text := []; url := lit "https://example.com/blog/admin/edit"; isInternal := true |}.

Definition blog_post : ResolvedLink :=
  {| text := []; url := lit "https://example.com/blog/post-1"; isInternal := true |}.

Definition blog_not_admin : LinkFilterOptions :=
  {| allowedDomains := None; excludePatterns := Some [lit "*/admin/*"];
     includePatterns := Some [lit "*/blog/*"]; filter := None |}.

(** Collaborators of the examples: a site of one page that links to a
    second one, which cannot be fetched. *)
Definition one_page (u : str) : option PageResult.t :=
  if eqb u (lit "https://example.com")
  then Some {| PageResult.title := []; PageResult.content := [97];
               PageResult.html := Some [60] |}
  else None.

Definition one_link (html : TokenCounter.text) (baseUrl : str) : list ResolvedLink :=
  [ {| text := []; url := lit "https://example.com/a"; isInternal := true |} ].

(** A site where nothing can be fetched. *)
Definition no_page (u : str) : option PageResult.t := None.

(** A site where every page is 2000 letters (500 tokens) and has no links. *)
Definition long_page (u : str) : option PageResult.t :=
  Some {| PageResult.title := []; PageResult.content := repeat 97 2000;
          PageResult.html := None |}.

Definition seed_page : CrawlPageResult.t :=
  {| CrawlPageResult.url := lit "https://example.com"; CrawlPageResult.title := [];
     CrawlPageResult.content := [97]; CrawlPageResult.depth := 0;
     CrawlPageResult.links_found := 1; CrawlPageResult.tokens := 1 |}.

Definition seed_page_result : CrawlResult :=
  {| pages := [seed_page];
     summary := {| total_pages := 1; total_tokens := 1; max_depth_reached := 1;
                   stopped_reason_of := no_more_links |} |}.

End Examples.

(** ** IPv4-mapped addresses, on the eight groups *)

Module MappedBlocks.
Import Address.

(** The groups of [::ffff:hi:lo], whose last two groups hold an IPv4
    address of value [hi * 65536 + lo], in a blocked IPv4 range. *)
Definition blocked_mapped (groups : list Z) : Prop :=
  exists hi lo,
    groups = [0; 0; 0; 0; 0; 65535; hi; lo] /\ blocked_ipv4 (hi * 65536 + lo).

(** A text with [::] and hexadecimal groups on its sides, however many. *)
Definition compressed_text (l r : list str) : str :=
  JS.join (lit ":") l ++ lit "::" ++ JS.join (lit ":") r.

End MappedBlocks.

Module MoreChecks.
Import JS Address.

Definition no_digit_reads (c : ascii) : bool :=
  implb (negb (Url.is_digit c))
        (match digit_in 10 c with None => true | Some _ => false end).

Definition hex_char_is_digit (d : Z) : bool :=
  Url.is_hex_digit (hex_char d) && (Url.hex_value (hex_char d) =? d)
  && Ascii.eqb (lower_char (hex_char d)) (hex_char d).

End MoreChecks.

(** ** More JavaScript primitives *)

Module JSMore.
Import JS.

(** [s.trim()], on code units below 256. *)
Definition trim (s : str) : str := rev (trimStart (rev (trimStart s))).

(** [s.endsWith(suffix)] *)
Definition endsWith (s suffix : str) : bool :=
  (length suffix <=? length s)%nat
  && eqb (skipn (length s - length suffix) s) suffix.

End JSMore.

(** ** [src/utils/url.ts]: the domain list and the scheme check *)

Module UrlTools.
Import JS JSMore Url.

Definition FETCHABLE_SCHEMES : list str := [lit "http:"; lit "https:"].

(** [isDomainAllowed]; [None] is the [TypeError] of [extractDomain]. *)
Definition isDomainAllowed (url : str) (allowedDomains : list str) : option bool :=
  match extractDomain url with
  | None => None
  | Some d =>
      let domain := toLowerCase d in
      Some (existsb
              (fun allowed =>
                 let normalizedAllowed := toLowerCase allowed in
                 if eqb domain normalizedAllowed then true
                 else if endsWith domain (lit "." ++ normalizedAllowed) then true
                 else false)
              allowedDomains)
  end.

(** [isFetchableUrl]: the [catch] turns the [TypeError] of [new URL]
    into [false]. *)
Definition isFetchableUrl (url : str) : bool :=
  match parse url with
  | Some parsed => existsb (eqb (protocol parsed)) FETCHABLE_SCHEMES
  | None => false
  end.

End UrlTools.

(** ** What a glob pattern matches *)

Module Glob.
Import JS Url.

(** The atom [matchesPattern] makes of one character of a pattern. *)
Definition atom_of (c : ascii) : atom := if is_char "*" c then AnyStar else Lit c.

(** [glob pattern url]: a [*] stands for any run of characters that are
    not line terminators, the empty run too; every other character, the
    metacharacters of regular expressions among them, stands for itself,
    whatever its case; the pattern covers the whole of the URL. *)
Inductive glob : str -> str -> Prop :=
| glob_end : glob [] []
| glob_star_none p u :
    glob p u -> glob ("*"%char :: p) u
| glob_star_more p x u :
    line_terminator x = false -> glob ("*"%char :: p) u -> glob ("*"%char :: p) (x :: u)
| glob_char c p x u :
    is_char "*" c = false -> canonicalize x = canonicalize c -> glob p u ->
    glob (c :: p) (x :: u).

(** Two texts equal but for the case of their letters. *)
Definition same_but_case (a b : str) : Prop := map canonicalize a = map canonicalize b.

(** A pattern without [*]; a text without a line terminator. *)
Definition star_free (p : str) : Prop :=
  forallb (fun c => negb (is_char "*" c)) p = true.

Definition one_line (s : str) : Prop :=
  forallb (fun c => negb (line_terminator c)) s = true.

Definition meta_is_no_star (c : ascii) : bool :=
  implb (regex_meta c) (negb (is_char "*" c)).

Definition plain_is_no_escape (c : ascii) : bool :=
  implb (negb (regex_meta c)) (negb (is_char "\" c) && negb (is_char "." c)).

End Glob.

(** ** [src/crawler/link-resolver.ts]: link extraction *)

Module LinkExtraction.
Import JS JSMore Url UrlTools LinkResolver.

Definition NON_FETCHABLE_SCHEMES : list str :=
  [ lit "javascript:"; lit "mailto:"; lit "tel:"; lit "data:"; lit "blob:";
    lit "ftp:"; lit "file:" ].

(** The [for ... of] loop with its early [return true]. *)
Definition hasNonFetchableScheme (href : str) : bool :=
  let lower := toLowerCase (trim href) in
  existsb (fun scheme => startsWith lower scheme) NON_FETCHABLE_SCHEMES.

(** [.trim()] on a text of UTF-16 code units. *)
Fixpoint text_trimStart (t : TokenCounter.text) : TokenCounter.text :=
  match t with
  | c :: rest => if TokenCounter.is_whitespace c then text_trimStart rest else t
  | [] => []
  end.

Definition text_trim (t : TokenCounter.text) : TokenCounter.text :=
  rev (text_trimStart (rev (text_trimStart t))).

(** The variables of the callback of [each]: [seen] and [links]. *)
Record scan := {
  seen : gset str;
  links : list ResolvedLink
}.

Section Extraction.

(** cheerio: the elements [a[href]] of the document, in document order,
    each with its [href] attribute and its text content. *)
Variable anchors : TokenCounter.text -> list (str * TokenCounter.text).

(** [resolveUrl(base, relative)], that is [new URL(relative, base).href];
    [None] is its [TypeError]. *)
Variable resolveUrl : str -> str -> option str.

(** The callback of [each] on one anchor; [None] when an exception leaves
    it ([normalizeUrl] and [extractDomain] are called outside the [try]). *)
Definition visit_anchor (baseUrl baseDomain : str) (st : scan)
    (anchor : str * TokenCounter.text) : option scan :=
  let href := fst anchor in
  if (length (trim href) =? 0)%nat then Some st
  else
    let trimmedHref := trim href in
    if startsWith trimmedHref (lit "#") then Some st
    else if hasNonFetchableScheme trimmedHref then Some st
    else
      match resolveUrl baseUrl trimmedHref with
      | None => Some st
      | Some absoluteUrl =>
          match normalizeUrl absoluteUrl with
          | None => None
          | Some normalized =>
              if decide (normalized ∈ seen st) then Some st
              else
                let seen' := seen st ∪ {[ normalized ]} in
                if negb (isFetchableUrl normalized)
                then Some {| seen := seen'; links := links st |}
                else
                  let text := text_trim (snd anchor) in
                  match extractDomain normalized with
                  | None => None
                  | Some linkDomain =>
                      let isInternal := eqb linkDomain baseDomain in
                      Some {| seen := seen';
                              links := links st
                                       ++ [ {| text := text; url := normalized;
                                               isInternal := isInternal |} ] |}
                  end
          end
      end.

(** [each] over the anchors. *)
Fixpoint visit_anchors (baseUrl baseDomain : str) (st : scan)
    (l : list (str * TokenCounter.text)) : option scan :=
  match l with
  | [] => Some st
  | anchor :: rest =>
      match visit_anchor baseUrl baseDomain st anchor with
      | Some st' => visit_anchors baseUrl baseDomain st' rest
      | None => None
      end
  end.

(** [extractLinks(html, baseUrl, options)] *)
Definition extractLinks (html : TokenCounter.text) (baseUrl : str)
    (options : option LinkFilterOptions) : option (list ResolvedLink) :=
  match extractDomain baseUrl with
  | None => None
  | Some baseDomain =>
      match visit_anchors baseUrl baseDomain {| seen := ∅; links := [] |} (anchors html) with
      | None => None
      | Some st =>
          match options with
          | Some o => filterLinks (links st) baseDomain o
          | None => Some (links st)
          end
      end
  end.

(** An anchor the callback goes on to resolve. *)
Definition followed (href : str) : bool :=
  negb (length (trim href) =? 0)%nat
  && negb (startsWith (trim href) (lit "#"))
  && negb (hasNonFetchableScheme (trim href)).

(** A link as the scan makes them: its URL is normalized and fetchable,
    and it is internal when its domain is the one of the base URL. *)
Definition link_sound (baseDomain : str) (l : ResolvedLink) : Prop :=
  normalizeUrl (url l) = Some (url l)
  /\ isFetchableUrl (url l) = true
  /\ exists linkDomain,
       extractDomain (url l) = Some linkDomain
       /\ isInternal l = eqb linkDomain baseDomain.

(** The anchor a link was made from. *)
Definition stems_from (l : ResolvedLink) (baseUrl : str)
    (anchor : str * TokenCounter.text) : Prop :=
  followed (fst anchor) = true
  /\ (exists absoluteUrl,
        resolveUrl baseUrl (trim (fst anchor)) = Some absoluteUrl
        /\ normalizeUrl absoluteUrl = Some (url l))
  /\ text l = text_trim (snd anchor).

(** What the scan keeps from anchor to anchor. *)
Definition scan_ok (baseUrl baseDomain : str) (from : list (str * TokenCounter.text))
    (st : scan) : Prop :=
  NoDup (map url (links st))
  /\ Forall (fun l => url l ∈ seen st
                      /\ link_sound baseDomain l
                      /\ exists anchor, In anchor from /\ stems_from l baseUrl anchor)
            (links st).

End Extraction.

End LinkExtraction.

(** ** What the link filter lets through *)

Module LinkFilter.
Import JS Url LinkResolver.

(** A list that is absent or empty sets no filter. *)
Definition unset (patterns : option (list str)) : Prop :=
  patterns = None \/ patterns = Some [].

(** The four filters, each applied only when it is set. *)
Definition passes (options : LinkFilterOptions) (link : ResolvedLink) : Prop :=
  (filter options = Some internal -> isInternal link = true)
  /\ (filter options = Some external -> isInternal link = false)
  /\ (forall domains, allowedDomains options = Some domains -> domains <> [] ->
      exists linkDomain domain,
        extractDomain (url link) = Some linkDomain /\ In domain domains
        /\ toLowerCase domain = toLowerCase linkDomain)
  /\ (forall patterns, includePatterns options = Some patterns -> patterns <> [] ->
      exists pattern, In pattern patterns /\ matchesPattern (url link) pattern = true)
  /\ (forall patterns pattern, excludePatterns options = Some patterns ->
      In pattern patterns -> matchesPattern (url link) pattern = false).

(** A link on which the callback throws: the kind filter lets it through,
    a whitelist is set, and its URL does not parse. *)
Definition throws_on (options : LinkFilterOptions) (link : ResolvedLink) : Prop :=
  ~ (filter options = Some internal /\ isInternal link = false)
  /\ ~ (filter options = Some external /\ isInternal link = true)
  /\ (exists d ds, allowedDomains options = Some (d :: ds))
  /\ extractDomain (url link) = None.

End LinkFilter.

Module SchemeChecks.
Import JS Url.

Definition space_stays_space (c : ascii) : bool :=
  implb (is_space c) (is_space (lower_char c)) && implb (is_space (lower_char c)) (is_space c).

End SchemeChecks.

(** ** Inputs of the examples of link extraction *)

Module LinkExamples.
Import JS LinkResolver.

(** A document with four anchors: a page (with a fragment, and blanks
    around the href), a fragment, a mail address, the same page again. *)
Definition four_anchors (html : TokenCounter.text) : list (str * TokenCounter.text) :=
  [ (lit " https://example.com/a#part ", [32; 65; 32]);
    (lit "#top", [84]);
    (lit "MAILTO:me@example.com", [77]);
    (lit "https://example.com/a", [66]) ].

(** Resolution of hrefs that are absolute and serialized already. *)
Definition absolute (baseUrl relative : str) : option str := Some relative.

Definition page_a : ResolvedLink :=
  {| text := [65]; url := lit "https://example.com/a"; isInternal := true |}.

End LinkExamples.

(** ** The crawl: order, repetition, the reason to stop *)

Module CrawlOrder.
Import JS LinkResolver Crawler CrawlerModel LinkFilter.

(** Depths that go on from [prev] level by level: never down, never
    more than one level up. *)
Fixpoint steps_up (prev : Z) (depths : list Z) : Prop :=
  match depths with
  | [] => True
  | d :: rest => prev <= d <= prev + 1 /\ steps_up d rest
  end.

(** Breadth-first order: the first depth is 0. *)
Definition level_order (depths : list Z) : Prop :=
  match depths with
  | [] => True
  | d :: rest => d = 0 /\ steps_up 0 rest
  end.

(** The depth of the last page, 0 when there is none. *)
Definition last_depth (pages : list CrawlPageResult.t) : Z :=
  List.last (map CrawlPageResult.depth pages) 0.

Fixpoint ascending (depths : list Z) : Prop :=
  match depths with
  | [] => True
  | d :: rest => Forall (fun d' => d <= d') rest /\ ascending rest
  end.

(** What the loop keeps about the order of the pages and of the queue. *)
Definition in_level_order (s : state) : Prop :=
  level_order (map CrawlPageResult.depth (crawled s))
  /\ ascending (map QueueEntry.depth (queue s))
  /\ Forall (fun e => last_depth (crawled s) <= QueueEntry.depth e <= last_depth (crawled s) + 1)
            (queue s)
  /\ (crawled s = [] -> Forall (fun e => QueueEntry.depth e = 0) (queue s)).

(** No page twice, and every page visited. *)
Definition pages_distinct (s : state) : Prop :=
  NoDup (map CrawlPageResult.url (crawled s))
  /\ Forall (fun p => CrawlPageResult.url p ∈ visited s) (crawled s).

(** The seed comes first, if it comes at all. *)
Definition seed_first (n : str) (s : state) : Prop :=
  match crawled s with
  | [] => queue s = [] \/ (queue s = [seed_entry n] /\ visited s = ∅)
  | p :: _ => CrawlPageResult.url p = n /\ CrawlPageResult.depth p = 0
  end.

(** While no extraction fails, the pages are the URLs visited. *)
Definition all_fetched (s : state) : Prop :=
  stoppedReason s = no_more_links
  /\ NoDup (map CrawlPageResult.url (crawled s))
  /\ visited s ≡ list_to_set (map CrawlPageResult.url (crawled s))
  /\ (crawled s = [] -> queue s <> []).

(** The URL is the start URL or one of a link the filter lets through. *)
Definition came_through (n : str) (options : LinkFilterOptions) (u : str) : Prop :=
  u = n \/ exists link, url link = u /\ passes options link.

Definition all_came_through (n : str) (options : LinkFilterOptions) (s : state) : Prop :=
  Forall (fun e => came_through n options (QueueEntry.url e)) (queue s)
  /\ Forall (fun p => came_through n options (CrawlPageResult.url p)) (crawled s).

(** A site of two levels: the start page links to [/a], which has no links. *)
Definition two_pages (u : str) : option PageResult.t :=
  if eqb u (lit "https://example.com")
  then Some {| PageResult.title := []; PageResult.content := [97];
               PageResult.html := Some [60] |}
  else Some {| PageResult.title := []; PageResult.content := [98];
               PageResult.html := None |}.

Definition two_pages_result : CrawlResult :=
  {| pages :=
       [ {| CrawlPageResult.url := lit "https://example.com"; CrawlPageResult.title := [];
            CrawlPageResult.content := [97]; CrawlPageResult.depth := 0;
            CrawlPageResult.links_found := 1; CrawlPageResult.tokens := 1 |};
         {| CrawlPageResult.url := lit "https://example.com/a"; CrawlPageResult.title := [];
            CrawlPageResult.content := [98]; CrawlPageResult.depth := 1;
            CrawlPageResult.links_found := 0; CrawlPageResult.tokens := 1 |} ];
     summary := {| total_pages := 2; total_tokens := 2; max_depth_reached := 1;
                   stopped_reason_of := all_visited |} |}.

End CrawlOrder.

(* ===================================================================== *)
(** * Part II.  Properties *)
(* ===================================================================== *)

(** ** Strings *)

Module JSFacts.
Import JS Range.

Lemma eqb_eq (a b : str) : eqb a b = true <-> a = b.
Proof.
  revert b. induction a as [|x a IH]; intros [|y b]; simpl; try (split; congruence).
  rewrite andb_true_iff, Ascii.eqb_eq, IH. split.
  - intros [-> ->]. reflexivity.
  - intros H. injection H as -> ->. auto.
Qed.

Lemma eqb_refl (a : str) : eqb a a = true.
Proof. apply eqb_eq. reflexivity. Qed.

Lemma all_from_spec P count : forall start,
  all_from P start count = true ->
  forall z, start <= z < start + Z.of_nat count -> P z = true.
Proof.
  induction count as [|k IH]; intros start H z Hz; [lia|].
  simpl in H. apply andb_true_iff in H as [H0 Hk].
  destruct (Z.eq_dec z start) as [-> | Hne]; [exact H0|].
  apply (IH (start + 1) Hk). lia.
Qed.

(** A boolean property checked on every number below [bound] holds of each. *)
Lemma checked_below (P : Z -> bool) (bound : Z) :
  all_from P 0 (Z.to_nat bound) = true ->
  forall z, 0 <= z < bound -> P z = true.
Proof. intros H z Hz. apply (all_from_spec P _ 0 H). lia. Qed.

(** A boolean property checked on all 256 characters holds of each. *)
Lemma checked_chars (P : ascii -> bool) :
  forallb (fun n => P (ascii_of_nat n)) (seq 0 256) = true ->
  forall c, P c = true.
Proof.
  intros H c. rewrite forallb_forall in H.
  rewrite <- (ascii_nat_embedding c). apply H. apply in_seq.
  pose proof (nat_ascii_bounded c). lia.
Qed.

Lemma split_char_nonempty c s : split_char c s <> [].
Proof.
  destruct s as [|a t]; simpl; [discriminate|].
  destruct (Ascii.eqb a c); [discriminate|].
  destruct (split_char c t); discriminate.
Qed.

(** A string without the separator is one piece. *)
Lemma split_char_none c s :
  includes_char s c = false -> split_char c s = [s].
Proof.
  unfold includes_char. induction s as [|a t IH]; simpl; [reflexivity|].
  rewrite orb_false_iff. intros [Ha Ht]. rewrite Ascii.eqb_sym, Ha, (IH Ht).
  reflexivity.
Qed.

(** Up to the first separator is the first piece. *)
Lemma split_char_app c s rest :
  includes_char s c = false ->
  split_char c (s ++ c :: rest) = s :: split_char c rest.
Proof.
  unfold includes_char. induction s as [|a t IH]; simpl.
  - rewrite Ascii.eqb_refl. reflexivity.
  - rewrite orb_false_iff. intros [Ha Ht]. rewrite Ascii.eqb_sym, Ha, (IH Ht).
    reflexivity.
Qed.

(** Joining pieces free of the separator and splitting again. *)
Lemma split_char_join c pieces :
  pieces <> [] ->
  forallb (fun p => negb (includes_char p c)) pieces = true ->
  split_char c (join [c] pieces) = pieces.
Proof.
  induction pieces as [|p rest IH]; [congruence|]. intros _. simpl forallb.
  rewrite andb_true_iff, negb_true_iff. intros [Hp Hrest].
  destruct rest as [|q rest].
  - simpl. apply split_char_none, Hp.
  - change (join [c] (p :: q :: rest)) with (p ++ c :: join [c] (q :: rest)).
    rewrite split_char_app by exact Hp. f_equal. apply IH; [discriminate|exact Hrest].
Qed.

End JSFacts.

(** ** The SSRF gate: IPv4 texts *)

Module NetworkFacts.
Import JS JSFacts Network Address Range AddressChecks.

Lemma option_Z_eqb_eq a b : option_Z_eqb a b = true -> a = Some b.
Proof. destruct a; simpl; [|discriminate]. intros H%Z.eqb_eq. congruence. Qed.

(** The decimal text of an octet has neither dot nor colon, and [parseInt]
    reads it back. *)
Lemma octet_text n :
  octet n ->
  includes_char (number_to_string n) "." = false
  /\ includes_char (number_to_string n) ":" = false
  /\ parseInt (number_to_string n) 10 = Some n.
Proof.
  intros Hn.
  assert (H : octet_text_ok n = true).
  { apply (checked_below octet_text_ok 256); [vm_compute; reflexivity|].
    unfold octet in Hn. lia. }
  unfold octet_text_ok in H. rewrite !andb_true_iff, !negb_true_iff in H.
  destruct H as [[H1 H2] H3]. auto using option_Z_eqb_eq.
Qed.

Lemma split_dotted a b c d :
  octet a -> octet b -> octet c -> octet d ->
  split_char "." (dotted a b c d)
  = [number_to_string a; number_to_string b; number_to_string c; number_to_string d].
Proof.
  intros Ha Hb Hc Hd. unfold dotted.
  destruct (octet_text a Ha) as (Ha1 & _ & _), (octet_text b Hb) as (Hb1 & _ & _),
    (octet_text c Hc) as (Hc1 & _ & _), (octet_text d Hd) as (Hd1 & _ & _).
  change (lit ".") with ["."%char]. simpl app.
  rewrite split_char_app by assumption.
  rewrite split_char_app by assumption.
  rewrite split_char_app by assumption.
  rewrite split_char_none by assumption. reflexivity.
Qed.

(** *** Bit operations on octets *)

Lemma wrap32_mod z : wrap32 z mod 2 ^ 32 = z mod 2 ^ 32.
Proof.
  unfold wrap32. rewrite Zminus_mod_idemp_l. f_equal. lia.
Qed.

Lemma ushr0_bor x y : ushr0 (bor x y) = Z.lor (ushr0 x) (ushr0 y).
Proof.
  unfold ushr0, bor. rewrite <- !Z.land_ones by lia. apply Z.land_lor_distr_l.
Qed.

Lemma ushr0_idem x : ushr0 (ushr0 x) = ushr0 x.
Proof. unfold ushr0. apply Z.mod_mod. lia. Qed.

Lemma ushr0_shl a k :
  0 <= a -> 0 <= k -> a * 2 ^ k < 2 ^ 32 -> ushr0 (shl (Some a) k) = a * 2 ^ k.
Proof.
  intros Ha Hk Hlt. unfold ushr0, shl, ToInt32.
  rewrite wrap32_mod. rewrite <- Zmult_mod_idemp_l, wrap32_mod, Zmult_mod_idemp_l.
  apply Z.mod_small. split; [|exact Hlt]. apply Z.mul_nonneg_nonneg; lia.
Qed.

(** Below [2^k], [lo] adds to a multiple of [2^k] without carry. *)
Lemma lor_disjoint hi lo k :
  0 <= k -> 0 <= lo < 2 ^ k -> Z.lor (hi * 2 ^ k) lo = hi * 2 ^ k + lo.
Proof.
  intros Hk Hlo. symmetry. apply Z.add_nocarry_lor.
  apply Z.bits_inj'. intros n Hn. rewrite Z.land_spec, Z.bits_0.
  destruct (Z.lt_ge_cases n k) as [Hlt | Hge].
  - rewrite <- Z.shiftl_mul_pow2 by lia. rewrite Z.shiftl_spec_low by lia. reflexivity.
  - replace (Z.testbit lo n) with false; [apply andb_false_r|].
    symmetry. destruct (Z.eq_dec lo 0) as [-> | Hne]; [apply Z.bits_0|].
    apply Z.bits_above_log2; [lia|].
    apply Z.log2_lt_pow2; [lia|]. apply Z.lt_le_trans with (2 ^ k); [lia|].
    apply Z.pow_le_mono_r; lia.
Qed.

Lemma ipv4ToInt_dotted a b c d :
  octet a -> octet b -> octet c -> octet d ->
  ipv4ToInt (dotted a b c d) = ipv4_value a b c d.
Proof.
  intros Ha Hb Hc Hd. unfold ipv4ToInt. rewrite split_dotted by assumption.
  unfold parseInt_at. simpl nth.
  destruct (octet_text a Ha) as (_ & _ & ->), (octet_text b Hb) as (_ & _ & ->),
    (octet_text c Hc) as (_ & _ & ->), (octet_text d Hd) as (_ & _ & ->).
  unfold octet in *.
  rewrite !ushr0_bor.
  rewrite (ushr0_shl a 24), (ushr0_shl b 16), (ushr0_shl c 8).
  all: try lia.
  assert (Hd' : ushr0 (ToInt32 (Some d)) = d).
  { unfold ushr0, ToInt32. rewrite wrap32_mod. apply Z.mod_small. lia. }
  rewrite Hd'. unfold ipv4_value.
  rewrite (lor_disjoint a (b * 2 ^ 16) 24) by lia.
  replace (a * 2 ^ 24 + b * 2 ^ 16) with ((a * 2 ^ 8 + b) * 2 ^ 16) by lia.
  rewrite (lor_disjoint (a * 2 ^ 8 + b) (c * 2 ^ 8) 16) by lia.
  replace ((a * 2 ^ 8 + b) * 2 ^ 16 + c * 2 ^ 8)
    with (((a * 2 ^ 8 + b) * 2 ^ 8 + c) * 2 ^ 8) by lia.
  rewrite lor_disjoint by lia. lia.
Qed.

(** The ranges of the source are the nine blocks of the specification. *)
Lemma ranges_are_blocks n :
  existsb (fun range => (range_start range <=? n) && (n <=? range_end range))
          IPV4_PRIVATE_RANGES = true
  <-> blocked_ipv4 n.
Proof.
  assert (E : map (fun r => (range_start r, range_end r)) IPV4_PRIVATE_RANGES
              = [ (2130706432, 2147483647); (167772160, 184549375);
                  (2886729728, 2887778303); (3232235520, 3232301055);
                  (2851995648, 2852061183); (0, 16777215);
                  (1681915904, 1686110207); (3221225472, 3221225727);
                  (3323068416, 3323199487) ]) by (vm_compute; reflexivity).
  assert (X : forall l,
             existsb (fun range => (range_start range <=? n) && (n <=? range_end range)) l
             = existsb (fun se => (fst se <=? n) && (n <=? snd se))
                       (map (fun r => (range_start r, range_end r)) l)).
  { induction l as [|r l IH]; simpl; [reflexivity|]. rewrite IH. reflexivity. }
  rewrite X, E. clear X E. unfold blocked_ipv4, in_block, ipv4_value. simpl existsb.
  rewrite !orb_true_iff, !andb_true_iff, !Z.leb_le. cbn -[Z.le]. 
  change (2 ^ (32 - 8)) with 16777216. change (2 ^ (32 - 12)) with 1048576.
  change (2 ^ (32 - 16)) with 65536. change (2 ^ (32 - 10)) with 4194304.
  change (2 ^ (32 - 24)) with 256. change (2 ^ (32 - 15)) with 131072.
  change (2 ^ 24) with 16777216. change (2 ^ 16) with 65536. change (2 ^ 8) with 256.
  lia.
Qed.

Lemma isPrivateIP_dotted a b c d :
  octet a -> octet b -> octet c -> octet d ->
  isPrivateIP (dotted a b c d) = Some (isIPv4Private (dotted a b c d)).
Proof.
  intros Ha Hb Hc Hd. unfold isPrivateIP.
  replace (includes_char (dotted a b c d) ":") with false; [reflexivity|].
  symmetry. unfold dotted, includes_char. rewrite !existsb_app.
  destruct (octet_text a Ha) as (_ & Ha1 & _), (octet_text b Hb) as (_ & Hb1 & _),
    (octet_text c Hc) as (_ & Hc1 & _), (octet_text d Hd) as (_ & Hd1 & _).
  unfold includes_char in *. rewrite Ha1, Hb1, Hc1, Hd1. reflexivity.
Qed.

End NetworkFacts.

(** ** The SSRF gate: IPv6 texts *)

Module Ipv6Facts.
Import JS JSFacts Network Address NetworkFacts Range AddressChecks.

Lemma ends_with_cons c a b t : ends_with c (a :: b :: t) = ends_with c (b :: t).
Proof.
  unfold ends_with. simpl. destruct (rev t) as [|x r]; simpl; [reflexivity|].
  reflexivity.
Qed.

Lemma split_twice_none c s : has_twice c s = false -> split_twice c s = [s].
Proof.
  induction s as [|a t IH]; [reflexivity|].
  destruct t as [|b t']; [reflexivity|].
  change (has_twice c (a :: b :: t'))
    with ((Ascii.eqb a c && Ascii.eqb b c) || has_twice c (b :: t')).
  rewrite orb_false_iff. intros [Hab Ht].
  change (split_twice c (a :: b :: t'))
    with (if Ascii.eqb a c && Ascii.eqb b c then [] :: split_twice c t'
          else cons_head a (split_twice c (b :: t'))).
  rewrite Hab, (IH Ht). reflexivity.
Qed.

Lemma split_twice_app c x y :
  has_twice c x = false -> ends_with c x = false ->
  split_twice c (x ++ c :: c :: y) = x :: split_twice c y.
Proof.
  induction x as [|a t IH]; intros Hx He.
  - simpl. rewrite Ascii.eqb_refl. reflexivity.
  - destruct t as [|b t'].
    + unfold ends_with in He. simpl in He. simpl. rewrite He, Ascii.eqb_refl. reflexivity.
    + change (has_twice c (a :: b :: t'))
        with ((Ascii.eqb a c && Ascii.eqb b c) || has_twice c (b :: t')) in Hx.
      apply orb_false_iff in Hx as [Hab Ht]. rewrite ends_with_cons in He.
      change (split_twice c ((a :: b :: t') ++ c :: c :: y))
        with (if Ascii.eqb a c && Ascii.eqb b c then [] :: split_twice c (t' ++ c :: c :: y)
              else cons_head a (split_twice c ((b :: t') ++ c :: c :: y))).
      rewrite Hab, (IH Ht He). reflexivity.
Qed.

(** *** Groups of hexadecimal digits *)

Lemma hextet_chars h c :
  hextet h = true -> hex_free c -> includes_char h c = false.
Proof.
  unfold hextet, hex_free, includes_char. rewrite !andb_true_iff. intros [_ Hh] Hc.
  induction h as [|a t IH]; [reflexivity|]. simpl in *.
  apply andb_true_iff in Hh as [Ha Ht]. rewrite (IH Ht), orb_false_r.
  destruct (Ascii.eqb c a) eqn:E; [|reflexivity].
  apply Ascii.eqb_eq in E. subst. congruence.
Qed.

Lemma hextet_nonempty h : hextet h = true -> h <> [].
Proof. intros H ->. discriminate. Qed.

(** A join of groups: no character outside the digits but the colon, no
    colon twice in a row, none at the end. *)
Lemma join_groups_chars gs c :
  forallb hextet gs = true -> hex_free c -> Ascii.eqb c ":" = false ->
  includes_char (join (lit ":") gs) c = false.
Proof.
  intros Hgs Hc Hcolon. induction gs as [|g rest IH]; [reflexivity|].
  simpl in Hgs. apply andb_true_iff in Hgs as [Hg Hrest].
  destruct rest as [|g' rest].
  - simpl. apply hextet_chars; assumption.
  - change (join (lit ":") (g :: g' :: rest))
      with (g ++ ":"%char :: join (lit ":") (g' :: rest)).
    unfold includes_char in *. rewrite existsb_app. cbn [existsb].
    rewrite (IH Hrest), Hcolon. pose proof (hextet_chars g c Hg Hc) as H.
    unfold includes_char in H. rewrite H. reflexivity.
Qed.

Lemma colon_hex_free : hex_free ":".
Proof. reflexivity. Qed.

Lemma has_twice_app_group c g s :
  includes_char g c = false -> g <> [] ->
  has_twice c (g ++ c :: s) = has_twice c (c :: s).
Proof.
  unfold includes_char. induction g as [|a t IH]; [congruence|]. intros Hg _.
  simpl in Hg. apply orb_false_iff in Hg as [Ha Ht]. rewrite Ascii.eqb_sym in Ha.
  destruct t as [|b t'].
  - simpl. rewrite Ha. reflexivity.
  - change (has_twice c ((a :: b :: t') ++ c :: s))
      with ((Ascii.eqb a c && Ascii.eqb b c) || has_twice c ((b :: t') ++ c :: s)).
    rewrite Ha. simpl andb. simpl orb. apply IH; [exact Ht|discriminate].
Qed.

Lemma has_twice_none c g : includes_char g c = false -> has_twice c g = false.
Proof.
  unfold includes_char. induction g as [|a t IH]; [reflexivity|]. simpl.
  intros [Ha Ht]%orb_false_iff. rewrite Ascii.eqb_sym in Ha.
  destruct t; [reflexivity|]. rewrite Ha. simpl. apply IH, Ht.
Qed.

Lemma ends_with_none c g : includes_char g c = false -> ends_with c g = false.
Proof.
  unfold includes_char, ends_with. intros H.
  destruct (rev g) as [|a r] eqn:E; [reflexivity|].
  destruct (Ascii.eqb a c) eqn:Ea; [|reflexivity].
  apply Ascii.eqb_eq in Ea. subst a.
  assert (Hin : In c g) by (apply in_rev; rewrite E; left; reflexivity).
  assert (existsb (Ascii.eqb c) g = true).
  { apply existsb_exists. exists c. split; [exact Hin|apply Ascii.eqb_refl]. }
  congruence.
Qed.

Lemma ends_with_app c x a y : ends_with c (x ++ a :: y) = ends_with c (a :: y).
Proof.
  unfold ends_with. rewrite rev_app_distr. simpl.
  destruct (rev y) as [|b r]; simpl; reflexivity.
Qed.

Lemma join_groups_shape gs :
  forallb hextet gs = true ->
  has_twice ":" (join (lit ":") gs) = false
  /\ ends_with ":" (join (lit ":") gs) = false
  /\ (gs <> [] -> join (lit ":") gs <> []
                  /\ exists a t, join (lit ":") gs = a :: t /\ Ascii.eqb a ":" = false).
Proof.
  induction gs as [|g rest IH]; intros Hgs.
  - repeat split; try reflexivity; congruence.
  - simpl in Hgs. apply andb_true_iff in Hgs as [Hg Hrest].
    pose proof (hextet_chars g ":" Hg colon_hex_free) as Hgc.
    pose proof (hextet_nonempty g Hg) as Hgn.
    assert (Hfirst : exists a t, g = a :: t /\ Ascii.eqb a ":" = false).
    { destruct g as [|a t]; [congruence|]. exists a, t. split; [reflexivity|].
      unfold includes_char in Hgc. simpl in Hgc. apply orb_false_iff in Hgc as [Ha _].
      rewrite Ascii.eqb_sym. exact Ha. }
    destruct rest as [|g' rest].
    + simpl. repeat split.
      * apply has_twice_none, Hgc.
      * apply ends_with_none, Hgc.
      * exact Hgn.
      * exact Hfirst.
    + destruct (IH Hrest) as (H2 & He & Hne). destruct Hne as (Hne & a' & t' & Ea & Ha'); [discriminate|].
      change (join (lit ":") (g :: g' :: rest))
        with (g ++ ":"%char :: join (lit ":") (g' :: rest)).
      repeat split.
      * rewrite has_twice_app_group by assumption. rewrite Ea in *.
        change (has_twice ":" (":"%char :: a' :: t'))
          with ((Ascii.eqb ":" ":" && Ascii.eqb a' ":") || has_twice ":" (a' :: t')).
        rewrite Ha', H2. reflexivity.
      * rewrite ends_with_app. rewrite Ea in *. rewrite ends_with_cons. exact He.
      * destruct g; [congruence|discriminate].
      * destruct Hfirst as (a & t & -> & Ha). exists a, (t ++ ":"%char :: join (lit ":") (g' :: rest)).
        split; [reflexivity|exact Ha].
Qed.

Lemma split_join_groups gs :
  forallb hextet gs = true -> gs <> [] ->
  split_char ":" (join (lit ":") gs) = gs.
Proof.
  intros Hgs Hne. apply (split_char_join ":" gs Hne).
  apply forallb_forall. intros g Hg. rewrite forallb_forall in Hgs.
  rewrite (hextet_chars g ":" (Hgs g Hg) colon_hex_free). reflexivity.
Qed.

End Ipv6Facts.

(** ** The SSRF gate: [expandIPv6] *)

Module ExpandFacts.
Import JS JSFacts Network Address NetworkFacts Ipv6Facts Range AddressChecks.

Lemma hex_digit_lower c :
  Url.is_hex_digit c = true ->
  lower_char c = hex_char (Url.hex_value c) /\ 0 <= Url.hex_value c < 16.
Proof.
  intros Hc. assert (H : hex_digit_ok c = true).
  { apply (checked_chars hex_digit_ok). vm_compute. reflexivity. }
  unfold hex_digit_ok in H. rewrite Hc in H. simpl in H.
  rewrite !andb_true_iff, Ascii.eqb_eq, Z.leb_le, Z.ltb_lt in H. tauto.
Qed.

Lemma hex4_digits d1 d2 d3 d4 :
  0 <= d1 < 16 -> 0 <= d2 < 16 -> 0 <= d3 < 16 -> 0 <= d4 < 16 ->
  hex4 (((d1 * 16 + d2) * 16 + d3) * 16 + d4)
  = [hex_char d1; hex_char d2; hex_char d3; hex_char d4].
Proof.
  intros H1 H2 H3 H4. unfold hex4.
  assert (E1 : (((d1 * 16 + d2) * 16 + d3) * 16 + d4) / 4096 mod 16 = d1).
  { replace ((((d1 * 16 + d2) * 16 + d3) * 16 + d4))
      with (d1 * 4096 + (d2 * 256 + d3 * 16 + d4)) by lia.
    rewrite Z.div_add_l by lia. rewrite (Z.div_small (d2 * 256 + d3 * 16 + d4)) by lia.
    rewrite Z.add_0_r. apply Z.mod_small. lia. }
  assert (E2 : (((d1 * 16 + d2) * 16 + d3) * 16 + d4) / 256 mod 16 = d2).
  { replace ((((d1 * 16 + d2) * 16 + d3) * 16 + d4))
      with ((d1 * 16 + d2) * 256 + (d3 * 16 + d4)) by lia.
    rewrite Z.div_add_l by lia. rewrite (Z.div_small (d3 * 16 + d4)) by lia.
    rewrite Z.add_0_r. rewrite Z.add_comm, Z.mod_add by lia. apply Z.mod_small. lia. }
  assert (E3 : (((d1 * 16 + d2) * 16 + d3) * 16 + d4) / 16 mod 16 = d3).
  { rewrite Z.div_add_l by lia. rewrite (Z.div_small d4) by lia.
    rewrite Z.add_0_r. rewrite Z.add_comm, Z.mod_add by lia. apply Z.mod_small. lia. }
  assert (E4 : (((d1 * 16 + d2) * 16 + d3) * 16 + d4) mod 16 = d4).
  { rewrite Z.add_comm, Z.mod_add by lia. apply Z.mod_small. lia. }
  rewrite E1, E2, E3, E4. reflexivity.
Qed.

(** Padding and lower-casing a group writes its value in four digits. *)
Lemma pad_lower_group h :
  hextet h = true ->
  toLowerCase (padStart 4 "0" h) = hex4 (hextet_value h).
Proof.
  unfold hextet. rewrite !andb_true_iff, Nat.leb_le, Nat.leb_le.
  intros [[Hlo Hhi] Hd].
  destruct h as [|c1 [|c2 [|c3 [|c4 [|c5 t]]]]]; simpl in Hlo, Hhi; try lia;
    simpl in Hd; rewrite ?andb_true_iff in Hd.
  - destruct Hd as [H1 _]. destruct (hex_digit_lower c1 H1) as [E1 B1].
    unfold hextet_value. simpl fold_left.
    replace (0 * 16 + Url.hex_value c1)
      with (((0 * 16 + 0) * 16 + 0) * 16 + Url.hex_value c1) by lia.
    rewrite hex4_digits by lia. cbn. rewrite E1. reflexivity.
  - destruct Hd as (H1 & H2 & _).
    destruct (hex_digit_lower c1 H1) as [E1 B1], (hex_digit_lower c2 H2) as [E2 B2].
    unfold hextet_value. simpl fold_left.
    replace ((0 * 16 + Url.hex_value c1) * 16 + Url.hex_value c2)
      with (((0 * 16 + 0) * 16 + Url.hex_value c1) * 16 + Url.hex_value c2) by lia.
    rewrite hex4_digits by lia. cbn. rewrite E1, E2. reflexivity.
  - destruct Hd as (H1 & H2 & H3 & _).
    destruct (hex_digit_lower c1 H1) as [E1 B1], (hex_digit_lower c2 H2) as [E2 B2],
      (hex_digit_lower c3 H3) as [E3 B3].
    unfold hextet_value. simpl fold_left.
    replace (((0 * 16 + Url.hex_value c1) * 16 + Url.hex_value c2) * 16 + Url.hex_value c3)
      with (((0 * 16 + Url.hex_value c1) * 16 + Url.hex_value c2) * 16 + Url.hex_value c3)
      by lia.
    rewrite hex4_digits by lia. cbn. rewrite E1, E2, E3. reflexivity.
  - destruct Hd as (H1 & H2 & H3 & H4 & _).
    destruct (hex_digit_lower c1 H1) as [E1 B1], (hex_digit_lower c2 H2) as [E2 B2],
      (hex_digit_lower c3 H3) as [E3 B3], (hex_digit_lower c4 H4) as [E4 B4].
    unfold hextet_value. simpl fold_left.
    replace ((((0 * 16 + Url.hex_value c1) * 16 + Url.hex_value c2) * 16
              + Url.hex_value c3) * 16 + Url.hex_value c4)
      with (((Url.hex_value c1 * 16 + Url.hex_value c2) * 16 + Url.hex_value c3) * 16
            + Url.hex_value c4) by lia.
    rewrite hex4_digits by lia. cbn. rewrite E1, E2, E3, E4. reflexivity.
Qed.

Lemma pad_lower_groups gs :
  forallb hextet gs = true ->
  map (fun g => toLowerCase (padStart 4 "0" g)) gs = map hex4 (map hextet_value gs).
Proof.
  induction gs as [|g rest IH]; [reflexivity|]. simpl.
  intros [Hg Hrest]%andb_true_iff. rewrite (pad_lower_group g Hg), (IH Hrest). reflexivity.
Qed.

Lemma pad_lower_zeros n :
  map (fun g => toLowerCase (padStart 4 "0" g)) (repeat (lit "0000") n)
  = map hex4 (repeat 0 n).
Proof.
  induction n as [|n IH]; [reflexivity|]. cbn [repeat map].
  rewrite IH. reflexivity.
Qed.

Lemma percent_hex_free : hex_free "%".
Proof. reflexivity. Qed.

(** Which side of the "::" holds groups. *)
Lemma side_groups gs :
  forallb hextet gs = true ->
  match join (lit ":") gs with
  | [] => []
  | _ => split_char ":" (join (lit ":") gs)
  end = gs.
Proof.
  intros Hgs. destruct gs as [|g rest]; [reflexivity|].
  destruct (join_groups_shape (g :: rest) Hgs) as (_ & _ & Hne).
  destruct Hne as (Hne & _); [discriminate|].
  rewrite split_join_groups by (assumption || discriminate).
  destruct (join (lit ":") (g :: rest)); [congruence|reflexivity].
Qed.

(** [expandIPv6] writes every hexadecimal text of an address in full. *)
Lemma expandIPv6_render t :
  well_formed t = true ->
  expandIPv6 (render t) = Some (expanded_form (groups_of t)).
Proof.
  destruct t as [gs | l r]; simpl well_formed; rewrite ?andb_true_iff.
  - intros [Hlen Hgs]. apply Nat.eqb_eq in Hlen.
    assert (Hne : gs <> []) by (destruct gs; [discriminate|discriminate]).
    unfold expandIPv6, render. cbv zeta.
    rewrite (split_char_none "%") by (apply join_groups_chars; [assumption|reflexivity|reflexivity]).
    cbn [nth]. destruct (join_groups_shape gs Hgs) as (H2 & _ & _).
    rewrite (split_twice_none ":" _ H2). cbn [length Nat.eqb].
    rewrite split_join_groups by assumption.
    rewrite pad_lower_groups by assumption. reflexivity.
  - intros [[Hlen Hl] Hr]. apply Nat.leb_le in Hlen.
    unfold expandIPv6, render. cbv zeta.
    assert (Hpc : includes_char (join (lit ":") l ++ lit "::" ++ join (lit ":") r) "%" = false).
    { unfold includes_char. rewrite !existsb_app.
      pose proof (join_groups_chars l "%" Hl percent_hex_free eq_refl) as A.
      pose proof (join_groups_chars r "%" Hr percent_hex_free eq_refl) as B.
      unfold includes_char in A, B. rewrite A, B. reflexivity. }
    rewrite (split_char_none "%" _ Hpc). cbn [nth].
    destruct (join_groups_shape l Hl) as (Hl2 & Hle & _).
    destruct (join_groups_shape r Hr) as (Hr2 & _ & _).
    change (lit "::" ++ join (lit ":") r) with (":"%char :: ":"%char :: join (lit ":") r).
    rewrite (split_twice_app ":" _ _ Hl2 Hle), (split_twice_none ":" _ Hr2).
    cbn [length Nat.eqb nth].
    rewrite (side_groups l Hl), (side_groups r Hr).
    replace (8 - Z.of_nat (length l + length r) <? 0) with false by (symmetry; apply Z.ltb_ge; lia).
    replace (Z.to_nat (8 - Z.of_nat (length l + length r)))
      with (8 - (length l + length r))%nat by lia.
    unfold expanded_form, groups_of.
    rewrite !map_app, (pad_lower_groups l Hl), (pad_lower_groups r Hr), pad_lower_zeros.
    reflexivity.
Qed.

Lemma hex_char_read d :
  0 <= d < 16 ->
  is_space (hex_char d) = false /\ digit_in 16 (hex_char d) = Some d
  /\ Ascii.eqb (hex_char d) "-" = false /\ Ascii.eqb (hex_char d) "+" = false
  /\ Ascii.eqb (hex_char d) "x" = false /\ Ascii.eqb (hex_char d) "X" = false.
Proof.
  intros Hd. assert (H : hex_char_ok d = true).
  { apply (checked_below hex_char_ok 16); [vm_compute; reflexivity|lia]. }
  unfold hex_char_ok in H. rewrite !andb_true_iff, !negb_true_iff in H.
  destruct H as (((((H1 & H2) & H3) & H4) & H5) & H6).
  auto 10 using option_Z_eqb_eq.
Qed.

(** [parseInt] reads four digits back. *)
Lemma parseInt_digits d1 d2 d3 d4 :
  0 <= d1 < 16 -> 0 <= d2 < 16 -> 0 <= d3 < 16 -> 0 <= d4 < 16 ->
  parseInt [hex_char d1; hex_char d2; hex_char d3; hex_char d4] 16
  = Some (((d1 * 16 + d2) * 16 + d3) * 16 + d4).
Proof.
  intros H1 H2 H3 H4.
  destruct (hex_char_read d1 H1) as (S1 & D1 & M1 & P1 & _ & _).
  destruct (hex_char_read d2 H2) as (_ & D2 & _ & _ & X2 & X2').
  destruct (hex_char_read d3 H3) as (_ & D3 & _).
  destruct (hex_char_read d4 H4) as (_ & D4 & _).
  unfold parseInt. cbn [trimStart]. rewrite S1, M1, P1.
  cbn [Z.eqb Pos.eqb strip_hex_prefix]. rewrite X2, X2'.
  rewrite andb_false_r. cbn [digits_prefix]. rewrite D1, D2, D3, D4.
  f_equal. lia.
Qed.

Lemma hex4_as_digits v :
  0 <= v < 65536 ->
  exists d1 d2 d3 d4,
    0 <= d1 < 16 /\ 0 <= d2 < 16 /\ 0 <= d3 < 16 /\ 0 <= d4 < 16
    /\ v = ((d1 * 16 + d2) * 16 + d3) * 16 + d4
    /\ hex4 v = [hex_char d1; hex_char d2; hex_char d3; hex_char d4].
Proof.
  intros Hv. exists (v / 4096 mod 16), (v / 256 mod 16), (v / 16 mod 16), (v mod 16).
  repeat split; try (apply Z.mod_pos_bound; lia).
  pose proof (Z.div_mod v 16). pose proof (Z.div_mod (v / 16) 16).
  pose proof (Z.div_mod (v / 256) 16).
  replace (v / 256) with (v / 16 / 16) in * by (rewrite Z.div_div by lia; reflexivity).
  replace (v / 4096) with (v / 16 / 16 / 16) by (rewrite !Z.div_div by lia; reflexivity).
  assert (v / 16 / 16 / 16 < 16).
  { rewrite !Z.div_div by lia. apply Z.div_lt_upper_bound; lia. }
  assert (0 <= v / 16 / 16 / 16) by (rewrite !Z.div_div by lia; apply Z.div_pos; lia).
  rewrite (Z.mod_small (v / 16 / 16 / 16)) by lia. lia.
Qed.

Lemma parseInt_hex4 v : 0 <= v < 65536 -> parseInt (hex4 v) 16 = Some v.
Proof.
  intros Hv. destruct (hex4_as_digits v Hv) as (d1 & d2 & d3 & d4 & H1 & H2 & H3 & H4 & -> & ->).
  apply parseInt_digits; assumption.
Qed.

Lemma isPrivateIP_render t :
  well_formed t = true ->
  isPrivateIP (render t) = Some (isIPv6Private (expanded_form (groups_of t))).
Proof.
  intros Ht. unfold isPrivateIP. rewrite (expandIPv6_render t Ht).
  destruct (includes_char (render t) ":") eqn:E; [reflexivity|].
  exfalso. destruct t as [gs | l r]; unfold render, well_formed in *.
  - apply andb_true_iff in Ht as [Hlen Hgs]. apply Nat.eqb_eq in Hlen.
    destruct gs as [|g1 [|g2 rest]]; try discriminate.
    change (join (lit ":") (g1 :: g2 :: rest))
      with (g1 ++ ":"%char :: join (lit ":") (g2 :: rest)) in E.
    unfold includes_char in E. rewrite existsb_app in E. cbn [existsb] in E.
    rewrite Ascii.eqb_refl, orb_true_r in E. discriminate.
  - change (lit "::" ++ join (lit ":") r) with (":"%char :: ":"%char :: join (lit ":") r) in E.
    unfold includes_char in E. rewrite existsb_app in E. cbn [existsb] in E.
    rewrite Ascii.eqb_refl, orb_true_r in E. discriminate.
Qed.

End ExpandFacts.

(** ** The SSRF gate: blocked ranges and [validateHostname] *)

Module NetworkSpec.
Import JS JSFacts Network Address NetworkFacts Ipv6Facts ExpandFacts Range AddressChecks Ipv6Blocks Examples.

Lemma isIPv4Private_dotted a b c d :
  octet a -> octet b -> octet c -> octet d ->
  isIPv4Private (dotted a b c d) = true <-> blocked_ipv4 (ipv4_value a b c d).
Proof.
  intros Ha Hb Hc Hd. unfold isIPv4Private. cbv zeta.
  rewrite ipv4ToInt_dotted by assumption. apply ranges_are_blocks.
Qed.

Lemma groups_in_range t :
  well_formed t = true -> Forall (fun g => 0 <= g < 65536) (groups_of t).
Proof.
  assert (V : forall h, hextet h = true -> 0 <= hextet_value h < 65536).
  { intros h Hh. pose proof (pad_lower_group h Hh) as E.
    unfold hextet in Hh. rewrite !andb_true_iff, !Nat.leb_le in Hh.
    destruct Hh as [[Hlo Hhi] Hd]. unfold hextet_value.
    destruct h as [|c1 [|c2 [|c3 [|c4 [|c5 t']]]]]; simpl in Hlo, Hhi; try lia;
      simpl in Hd; rewrite ?andb_true_iff in Hd; simpl fold_left;
      repeat match goal with
             | H : _ /\ _ |- _ => destruct H
             | H : Url.is_hex_digit ?c = true |- _ =>
                 apply hex_digit_lower in H; destruct H as [_ H]
             end; lia. }
  assert (M : forall gs, forallb hextet gs = true ->
                         Forall (fun g => 0 <= g < 65536) (map hextet_value gs)).
  { induction gs as [|g rest IH]; simpl; [constructor|].
    intros [Hg Hrest]%andb_true_iff. constructor; auto. }
  destruct t as [gs | l r]; simpl; rewrite ?andb_true_iff.
  - intros [_ Hgs]. apply M, Hgs.
  - intros [[_ Hl] Hr]. rewrite !Forall_app. repeat split; auto.
    apply List.Forall_forall. intros x Hx. apply repeat_spec in Hx. lia.
Qed.

Lemma first_digits g :
  0 <= g < 65536 ->
  exists c3 c4, hex4 g = [hex_char (g / 4096 mod 16); hex_char (g / 256 mod 16); c3; c4].
Proof. intros _. unfold hex4. eauto. Qed.

Lemma expanded_first g rest :
  exists tail, expanded_form (g :: rest) = hex4 g ++ tail.
Proof.
  unfold expanded_form. destruct rest as [|g' rest]; simpl map.
  - exists []. reflexivity.
  - eexists. reflexivity.
Qed.

(** A unique-local or link-local first group decides. *)
Lemma isIPv6Private_first_group g rest :
  0 <= g < 65536 ->
  (g / 256 = 252 \/ g / 256 = 253) \/ 65152 <= g <= 65215 ->
  isIPv6Private (expanded_form (g :: rest)) = true.
Proof.
  intros Hg Hclass. destruct (expanded_first g rest) as [tail E].
  unfold isIPv6Private. rewrite E. cbv zeta.
  destruct (eqb _ (lit "0000:0000:0000:0000:0000:0000:0000:0001")); [reflexivity|].
  destruct (eqb _ (lit "0000:0000:0000:0000:0000:0000:0000:0000")); [reflexivity|].
  assert (S4 : substring_to 4 (hex4 g ++ tail) = hex4 g) by reflexivity.
  assert (S2 : substring_to 2 (hex4 g ++ tail)
               = [hex_char (g / 4096 mod 16); hex_char (g / 256 mod 16)]) by reflexivity.
  rewrite S4, S2, (parseInt_hex4 g Hg).
  destruct Hclass as [Hula | Hll].
  - assert (H1 : g / 4096 mod 16 = 15).
    { replace (g / 4096) with (g / 256 / 16) by (rewrite Z.div_div by lia; reflexivity).
      destruct Hula as [-> | ->]; reflexivity. }
    assert (H2 : g / 256 mod 16 = 12 \/ g / 256 mod 16 = 13)
      by (destruct Hula as [-> | ->]; [left|right]; reflexivity).
    rewrite H1. destruct H2 as [-> | ->]; reflexivity.
  - destruct (eqb _ (lit "fc") || eqb _ (lit "fd")); [reflexivity|].
    replace ((65152 <=? g) && (g <=? 65215)) with true; [reflexivity|].
    symmetry. apply andb_true_iff. split; apply Z.leb_le; lia.
Qed.

(** C3.  For every dotted quad [a.b.c.d], [isPrivateIP] answers true
    exactly when its 32-bit value lies in one of the nine inclusive blocks
    127.0.0.0/8, 10.0.0.0/8, 172.16.0.0/12, 192.168.0.0/16, 169.254.0.0/16,
    0.0.0.0/8, 100.64.0.0/10, 192.0.0.0/24 and 198.18.0.0/15.  For every
    IPv6 address written in hexadecimal groups, in full or with one [::],
    it answers true on [::1], on [::], when the first two nibbles are fc
    or fd, and when the first group lies in [0xfe80, 0xfebf].  It answers
    false on 8.8.8.8 and on 2607:f8b0:4004:800::200e. *)
Theorem private_ranges (a b c d : Z) (t : ipv6_text) :
  octet a -> octet b -> octet c -> octet d -> well_formed t = true ->
  (isPrivateIP (dotted a b c d) = Some true <-> blocked_ipv4 (ipv4_value a b c d))
  /\ (blocked_ipv6 (groups_of t) -> isPrivateIP (render t) = Some true)
  /\ isPrivateIP (lit "8.8.8.8") = Some false
  /\ isPrivateIP (lit "2607:f8b0:4004:800::200e") = Some false.
Proof.
  intros Ha Hb Hc Hd Ht. split; [|split; [|split; vm_compute; reflexivity]].
  - rewrite isPrivateIP_dotted by assumption.
    rewrite <- isIPv4Private_dotted by assumption.
    split; [intros H; injection H; auto | intros ->; reflexivity].
  - rewrite (isPrivateIP_render t Ht). pose proof (groups_in_range t Ht) as Hr.
    intros [E | [E | [(g & rest & E & Hg) | (g & rest & E & Hg)]]]; rewrite E in *.
    + reflexivity.
    + reflexivity.
    + f_equal. apply isIPv6Private_first_group; [|left; exact Hg].
      inversion Hr; assumption.
    + f_equal. apply isIPv6Private_first_group; [|right; exact Hg].
      inversion Hr; assumption.
Qed.

Lemma private_ranges_witness :
  (isPrivateIP (dotted 172 31 255 255) = Some true <-> blocked_ipv4 (ipv4_value 172 31 255 255))
  /\ (blocked_ipv6 (groups_of (Compressed [lit "FD12"; lit "3456"] [lit "1"])) ->
      isPrivateIP (render (Compressed [lit "FD12"; lit "3456"] [lit "1"])) = Some true)
  /\ isPrivateIP (lit "8.8.8.8") = Some false
  /\ isPrivateIP (lit "2607:f8b0:4004:800::200e") = Some false.
Proof.
  apply (private_ranges 172 31 255 255 (Compressed [lit "FD12"; lit "3456"] [lit "1"]));
    unfold octet; try lia; reflexivity.
Defined.

(** C1.  [isPrivateIP] does not unwrap an IPv4-mapped address written with
    a dotted quad.  [expandIPv6] splits on the colons only: of
    [::ffff:127.0.0.1] it makes six groups of zeros, [ffff] and the quad
    as it stands, so the test for the prefix
    [0000:0000:0000:0000:0000:ffff:] fails and the address is reported
    public, although 127.0.0.1 is private.  The spelling in hexadecimal
    groups, [::ffff:7f00:1], is the one that is unwrapped. *)
Theorem mapped_dotted_quad_passes :
  expandIPv6 (lit "::ffff:127.0.0.1")
  = Some (lit "0000:0000:0000:0000:0000:0000:ffff:127.0.0.1")
  /\ isPrivateIP (lit "::ffff:127.0.0.1") = Some false
  /\ isPrivateIP (lit "127.0.0.1") = Some true
  /\ isPrivateIP (lit "::ffff:7f00:1") = Some true.
Proof. repeat split; vm_compute; reflexivity. Qed.

Lemma check_addresses_blocks ips :
  Forall (fun ip => isPrivateIP ip <> None) ips ->
  (exists why, check_addresses ips = SecurityError why)
  <-> Exists (fun ip => isPrivateIP ip = Some true) ips.
Proof.
  induction 1 as [|ip rest Hip Hrest IH]; simpl.
  - split; [intros [why H]; discriminate | intros H; inversion H].
  - destruct (isPrivateIP ip) as [[|]|] eqn:E; [| |congruence].
    + split; [intros _; left; exact E | intros _; eauto].
    + rewrite IH. split; [intros H; right; exact H|].
      intros H. inversion H; subst; [congruence|assumption].
Qed.

Lemma check_addresses_public ips :
  Forall (fun ip => isPrivateIP ip = Some false) ips -> check_addresses ips = Validated.
Proof. induction 1 as [|ip rest Hip _ IH]; simpl; [reflexivity|]. rewrite Hip. exact IH. Qed.



End NetworkSpec.

(** ** The token estimate *)

Module TokenCounterSpec.
Import TokenCounter.

Lemma js_length_nonneg (t : text) : 0 <= js_length t.
Proof. unfold js_length. lia. Qed.

Lemma js_length_zero (t : text) : js_length t = 0 <-> t = [].
Proof.
  unfold js_length. destruct t; simpl; [tauto|]. split; [lia|discriminate].
Qed.

Lemma ratio_positive cjk nonWs :
  0 < cjk -> 0 < nonWs -> (0 < inject_Z cjk / inject_Z nonWs)%Q.
Proof.
  intros Hc Hn. apply Qlt_shift_div_l.
  - unfold Qlt. simpl. lia.
  - rewrite Qmult_0_l. unfold Qlt. simpl. lia.
Qed.

(** The divisor the code picks is the one of the three-way rule. *)
Lemma detectCharsPerToken_rule (t : text) :
  divisor_of (countCjkCharacters t) (nonWhitespaceLength t) (detectCharsPerToken t).
Proof.
  unfold detectCharsPerToken.
  pose proof (js_length_nonneg (List.filter is_cjk t)) as Hc.
  pose proof (js_length_nonneg (List.filter (fun c => negb (is_whitespace c)) t)) as Hn.
  fold (countCjkCharacters t) in Hc. fold (nonWhitespaceLength t) in Hn.
  destruct (countCjkCharacters t =? 0) eqn:Ec.
  { apply divisor_latin. left. apply Z.eqb_eq, Ec. }
  destruct (nonWhitespaceLength t =? 0) eqn:En.
  { apply divisor_latin. right. apply Z.eqb_eq, En. }
  apply Z.eqb_neq in Ec, En.
  destruct (Qle_bool CJK_THRESHOLD _) eqn:Er.
  - apply divisor_cjk; [lia|]. apply Qle_bool_iff, Er.
  - apply divisor_mixed; [lia| |].
    + apply ratio_positive; lia.
    + apply Qnot_le_lt. intros H. apply Qle_bool_iff in H.
      unfold CJK_THRESHOLD in Er. congruence.
Qed.

Lemma ascii_not_cjk (t : text) :
  Forall (fun c => 0 <= c < 128) t -> countCjkCharacters t = 0.
Proof.
  unfold countCjkCharacters, js_length. induction 1 as [|c rest Hc _ IH]; [reflexivity|].
  simpl. replace (is_cjk c) with false; [exact IH|].
  symmetry. unfold is_cjk, between. 
  repeat (apply orb_false_iff; split); apply andb_false_iff; left; apply Z.leb_gt; lia.
Qed.

Lemma one_char_divisor (t : text) :
  detectCharsPerToken t = CHARS_PER_TOKEN_ENGLISH
  \/ detectCharsPerToken t = CHARS_PER_TOKEN_CJK
  \/ detectCharsPerToken t = CHARS_PER_TOKEN_MIXED.
Proof.
  unfold detectCharsPerToken.
  destruct (countCjkCharacters t =? 0); [tauto|].
  destruct (nonWhitespaceLength t =? 0); [tauto|].
  destruct (Qle_bool _ _); tauto.
Qed.

(** C8, as the code has it.  [estimateTokens text] is 0 exactly when [text]
    is empty, and otherwise [max(1, ceil(length / divisor))], where the
    divisor is 4 when the text has no CJK character or no character that
    is not whitespace, 1.5 when the CJK characters are at least 0.3 of the
    characters that are not whitespace, and 3 otherwise.  A text of 44
    ASCII characters is estimated at 11, a single character at 1. *)
Theorem estimateTokens_rule (t : text) :
  (estimateTokens t = 0 <-> t = [])
  /\ (t <> [] ->
      exists d, divisor_of (countCjkCharacters t) (nonWhitespaceLength t) d
                /\ estimateTokens t = Z.max 1 (Qceiling (inject_Z (js_length t) / d)))
  /\ (length t = 44%nat -> Forall (fun c => 0 <= c < 128) t -> estimateTokens t = 11)
  /\ (length t = 1%nat -> estimateTokens t = 1).
Proof.
  repeat split.
  - unfold estimateTokens. destruct (js_length t =? 0) eqn:E.
    + intros _. apply js_length_zero, Z.eqb_eq, E.
    + lia.
  - intros ->. reflexivity.
  - intros Hne. exists (detectCharsPerToken t). split; [apply detectCharsPerToken_rule|].
    unfold estimateTokens. destruct (js_length t =? 0) eqn:E; [|reflexivity].
    apply Z.eqb_eq, js_length_zero in E. congruence.
  - intros Hlen Hascii. unfold estimateTokens, detectCharsPerToken, js_length.
    rewrite (ascii_not_cjk t Hascii), Hlen. reflexivity.
  - intros Hlen. unfold estimateTokens, js_length. rewrite Hlen.
    destruct (one_char_divisor t) as [-> | [-> | ->]]; reflexivity.
Qed.

Lemma estimateTokens_rule_witness :
  estimateTokens (repeat 97 44) = 11 /\ estimateTokens [26085] = 1.
Proof.
  split.
  - apply (estimateTokens_rule (repeat 97 44)); [reflexivity|].
    repeat constructor; lia.
  - apply (estimateTokens_rule [26085]). reflexivity.
Defined.

(** C8, as the specification words it, fails on four ideographic spaces. *)
Lemma ideographic_spaces_estimate :
  estimateTokens [12288; 12288; 12288; 12288] = 1
  /\ countCjkCharacters [12288; 12288; 12288; 12288] = 4
  /\ nonWhitespaceLength [12288; 12288; 12288; 12288] = 0
  /\ ~ stated_estimate [12288; 12288; 12288; 12288]
                       (estimateTokens [12288; 12288; 12288; 12288]).
Proof.
  repeat split. intros (r & d & Hr & _).
  unfold is_ratio in Hr. change (countCjkCharacters _) with 4 in Hr.
  change (nonWhitespaceLength _) with 0 in Hr.
  rewrite Qmult_0_r in Hr. discriminate Hr.
Qed.

End TokenCounterSpec.

(** ** The link filter *)

Module LinkResolverSpec.
Import JS LinkResolver Examples.

Lemma filter_links_kept keep links kept link :
  filter_links keep links = Some kept ->
  In link kept -> In link links /\ keep link = Some true.
Proof.
  revert kept. induction links as [|l rest IH]; intros kept; simpl.
  - intros [= <-] [].
  - destruct (keep l) as [b|] eqn:Hk; [|discriminate].
    destruct (filter_links keep rest) as [kept'|]; [|discriminate].
    intros [= <-] Hin. destruct b.
    + destruct Hin as [<- | Hin]; [auto|]. destruct (IH kept' eq_refl Hin). auto.
    + destruct (IH kept' eq_refl Hin). auto.
Qed.

(** A link the callback keeps matches no exclude pattern. *)
Lemma keep_link_not_excluded options link pats pattern :
  keep_link options link = Some true ->
  excludePatterns options = Some pats -> In pattern pats ->
  Url.matchesPattern (url link) pattern = false.
Proof.
  unfold keep_link. intros Hkeep Hex Hin. rewrite Hex in Hkeep.
  destruct (is_kind internal (filter options) && negb (isInternal link)); [discriminate|].
  destruct (is_kind external (filter options) && isInternal link); [discriminate|].
  destruct (match allowedDomains options with Some (_ :: _) => _ | _ => _ end)
    as [[|]|]; try discriminate.
  destruct (match includePatterns options with Some (_ :: _) => _ | _ => _ end);
    [discriminate|].
  destruct pats as [|p ps]; [destruct Hin|].
  destruct (existsb _ (p :: ps)) eqn:E; [discriminate|].
  destruct (Url.matchesPattern (url link) pattern) eqn:M; [|reflexivity].
  assert (existsb (fun pattern => Url.matchesPattern (url link) pattern) (p :: ps) = true).
  { apply existsb_exists. eauto. }
  congruence.
Qed.

(** C7.  For every list of links, base domain and options: a link whose
    URL matches one of the [excludePatterns] is not among the links
    [filterLinks] keeps, whatever the [includePatterns] are; exclude wins
    over include. *)
Theorem exclude_wins (links kept : list ResolvedLink) (baseDomain : str)
    (options : LinkFilterOptions) (link : ResolvedLink) (pats : list str) (pattern : str) :
  filterLinks links baseDomain options = Some kept ->
  excludePatterns options = Some pats -> In pattern pats ->
  Url.matchesPattern (url link) pattern = true ->
  ~ In link kept.
Proof.
  intros Hf Hex Hin Hm Hkept. unfold filterLinks in Hf.
  destruct (filter_links_kept _ _ _ _ Hf Hkept) as [_ Hk].
  pose proof (keep_link_not_excluded _ _ _ _ Hk Hex Hin). congruence.
Qed.

Lemma exclude_wins_witness :
  Url.matchesPattern (url blog_admin) (lit "*/blog/*") = true
  /\ filterLinks [blog_post; blog_admin] (lit "example.com") blog_not_admin = Some [blog_post]
  /\ ~ In blog_admin [blog_post].
Proof.
  split; [vm_compute; reflexivity|]. split; [vm_compute; reflexivity|].
  apply (exclude_wins [blog_post; blog_admin] [blog_post] (lit "example.com")
                      blog_not_admin blog_admin [lit "*/admin/*"] (lit "*/admin/*")).
  - vm_compute. reflexivity.
  - reflexivity.
  - left. reflexivity.
  - vm_compute. reflexivity.
Defined.

End LinkResolverSpec.

(** ** URLs: the component parsers *)

Module UrlFacts.
Import JS JSFacts Url Range.

(** One implication between character classes, checked on every character. *)
Lemma char_implies (P Q : ascii -> bool) :
  forallb (fun n => implb (P (ascii_of_nat n)) (Q (ascii_of_nat n))) (seq 0 256) = true ->
  forall c, P c = true -> Q c = true.
Proof.
  intros H c Hc. pose proof (checked_chars (fun c => implb (P c) (Q c)) H c) as Hi.
  simpl in Hi. rewrite Hc in Hi. exact Hi.
Qed.

Lemma forallb_implies (P Q : ascii -> bool) (s : str) :
  (forall c, P c = true -> Q c = true) -> forallb P s = true -> forallb Q s = true.
Proof.
  intros H. induction s as [|a t IH]; simpl; [reflexivity|].
  intros [Ha Ht]%andb_true_iff. rewrite (H a Ha), (IH Ht). reflexivity.
Qed.

(** *** [span] and [dropWhile] *)

Lemma span_app p a b :
  forallb p a = true -> stops p b = true -> span p (a ++ b) = (a, b).
Proof.
  intros Ha Hb. induction a as [|c t IH]; simpl.
  - destruct b as [|c t]; [reflexivity|]. simpl in *.
    apply negb_true_iff in Hb. rewrite Hb. reflexivity.
  - simpl in Ha. apply andb_true_iff in Ha as [Hc Ht]. rewrite Hc, (IH Ht). reflexivity.
Qed.

Lemma span_spec p s a b :
  span p s = (a, b) -> s = a ++ b /\ forallb p a = true /\ stops p b = true.
Proof.
  revert a b. induction s as [|c t IH]; intros a b; simpl.
  - intros [= <- <-]. auto.
  - destruct (p c) eqn:Hc.
    + destruct (span p t) as [a' b'] eqn:E. intros [= <- <-].
      destruct (IH a' b' eq_refl) as (-> & Ha & Hb). simpl. rewrite Hc. auto.
    + intros [= <- <-]. simpl. rewrite Hc. auto.
Qed.

Lemma dropWhile_app p a b :
  forallb p a = true -> stops p b = true -> dropWhile p (a ++ b) = b.
Proof.
  intros Ha Hb. induction a as [|c t IH]; simpl.
  - destruct b as [|c t]; [reflexivity|]. simpl in *.
    apply negb_true_iff in Hb. rewrite Hb. reflexivity.
  - simpl in Ha. apply andb_true_iff in Ha as [Hc Ht]. rewrite Hc. exact (IH Ht).
Qed.

Lemma stops_app p a b :
  stops p a = true -> a <> [] -> stops p (a ++ b) = true.
Proof. destruct a; [congruence|]. auto. Qed.

(** *** What the component parsers accept *)

Lemma parse_host_inv h h' :
  parse_host h = Some h' ->
  h <> [] /\ forallb host_char h = true /\ h' = toLowerCase h
  /\ ends_in_number h' = false /\ has_punycode_label h' = false.
Proof.
  unfold parse_host. destruct h as [|c t]; [discriminate|].
  destruct (forallb host_char (c :: t)) eqn:E1; [|discriminate].
  destruct (ends_in_number _) eqn:E2; [discriminate|].
  destruct (has_punycode_label _) eqn:E3; [discriminate|].
  simpl. intros [= <-]. repeat split; auto; discriminate.
Qed.

Lemma lower_char_idem c : lower_char (lower_char c) = lower_char c.
Proof.
  apply Ascii.eqb_eq.
  apply (checked_chars (fun c => Ascii.eqb (lower_char (lower_char c)) (lower_char c))).
  vm_compute. reflexivity.
Qed.

Lemma toLowerCase_idem s : toLowerCase (toLowerCase s) = toLowerCase s.
Proof.
  unfold toLowerCase. rewrite map_map. apply map_ext. intros c. apply lower_char_idem.
Qed.

Lemma host_char_lower c : host_char c = true -> host_char (lower_char c) = true.
Proof.
  apply (char_implies host_char (fun c => host_char (lower_char c))).
  vm_compute. reflexivity.
Qed.

(** The host of a record is one [parse_host] leaves as it is. *)
Lemma parse_host_idem h h' : parse_host h = Some h' -> parse_host h' = Some h'.
Proof.
  intros H. destruct (parse_host_inv h h' H) as (Hne & Hc & -> & Hn & Hp).
  unfold parse_host. rewrite toLowerCase_idem, Hn, Hp.
  assert (Hc' : forallb host_char (toLowerCase h) = true).
  { unfold toLowerCase. clear -Hc. induction h as [|a t IH]; [reflexivity|].
    simpl in *. apply andb_true_iff in Hc as [Ha Ht].
    rewrite (host_char_lower a Ha), (IH Ht). reflexivity. }
  rewrite Hc'. destruct h; [congruence|]. reflexivity.
Qed.

Lemma parse_path_inv p p' :
  parse_path p = Some p' ->
  forallb path_char p = true /\ p' = match p with [] => lit "/" | _ => p end.
Proof.
  unfold parse_path. destruct (forallb path_char p); [|discriminate].
  destruct (existsb dot_segment _); [discriminate|]. simpl. intros [= <-]. auto.
Qed.

Lemma parse_path_idem p p' : parse_path p = Some p' -> parse_path p' = Some p'.
Proof.
  intros H. destruct (parse_path_inv p p' H) as [_ ->].
  destruct p; [reflexivity|exact H].
Qed.

Lemma parse_query_inv q q' :
  parse_query q = Some q' -> forallb query_char q = true /\ q' = q.
Proof.
  unfold parse_query. destruct (forallb query_char q); [|discriminate].
  destruct (forallb ascii_pair _); [|discriminate]. simpl. intros [= <-]. auto.
Qed.

Lemma parse_fragment_inv f f' :
  parse_fragment f = Some f' -> forallb fragment_char f = true /\ f' = f.
Proof.
  unfold parse_fragment. destruct (forallb fragment_char f); [|discriminate].
  intros [= <-]. auto.
Qed.

Lemma parse_port_inv scheme after p :
  parse_port scheme after = Some p ->
  after = [] \/ exists digits, after = digits /\ forallb is_digit (tl after) = true.
Proof.
  unfold parse_port. destruct after as [|c digits]; [auto|].
  destruct (forallb is_digit digits) eqn:E; [|discriminate]. intros _. right. eauto.
Qed.

End UrlFacts.

(** ** URLs: parsing a text made of its parts *)

Module ParseFacts.
Import JS JSFacts Url UrlFacts Range.

Lemma colon_kept_by_lower c : is_char ":" (lower_char c) = is_char ":" c.
Proof.
  apply eqb_true_iff.
  apply (checked_chars (fun c => Bool.eqb (is_char ":" (lower_char c)) (is_char ":" c))).
  vm_compute. reflexivity.
Qed.

(** A text that lowers to http or https holds no colon. *)
Lemma scheme_text_no_colon s :
  eqb (toLowerCase s) (lit "http") || eqb (toLowerCase s) (lit "https") = true ->
  forallb (fun c => negb (is_char ":" c)) s = true.
Proof.
  intros H.
  assert (L : forallb (fun c => negb (is_char ":" c)) (toLowerCase s) = true).
  { apply orb_true_iff in H as [H | H]; apply eqb_eq in H; rewrite H; reflexivity. }
  clear H. induction s as [|a t IH]; [reflexivity|]. simpl in *.
  apply andb_true_iff in L as [La Lt]. rewrite colon_kept_by_lower in La.
  rewrite La, (IH Lt). reflexivity.
Qed.

Lemma host_char_not_slash c : host_char c = true -> one_of (lit "/\") c = false.
Proof.
  intros H. apply negb_true_iff. revert c H.
  apply (char_implies host_char (fun c => negb (one_of (lit "/\") c))).
  vm_compute. reflexivity.
Qed.

Lemma host_char_in_authority c :
  host_char c = true -> negb (one_of (lit "/\?#") c) = true.
Proof.
  revert c. apply (char_implies host_char (fun c => negb (one_of (lit "/\?#") c))).
  vm_compute. reflexivity.
Qed.

Lemma host_char_not_colon c : host_char c = true -> negb (is_char ":" c) = true.
Proof.
  revert c. apply (char_implies host_char (fun c => negb (is_char ":" c))).
  vm_compute. reflexivity.
Qed.

Lemma digit_in_authority c :
  is_digit c = true -> negb (one_of (lit "/\?#") c) = true.
Proof.
  revert c. apply (char_implies is_digit (fun c => negb (one_of (lit "/\?#") c))).
  vm_compute. reflexivity.
Qed.

Lemma path_char_in_path c :
  path_char c = true -> negb (one_of (lit "?#") c) = true.
Proof.
  revert c. apply (char_implies path_char (fun c => negb (one_of (lit "?#") c))).
  vm_compute. reflexivity.
Qed.

Lemma query_char_in_query c :
  query_char c = true -> negb (is_char "#" c) = true.
Proof.
  revert c. apply (char_implies query_char (fun c => negb (is_char "#" c))).
  vm_compute. reflexivity.
Qed.

Lemma tail_stops (p : ascii -> bool) path_text q f :
  path_text_ok path_text = true ->
  p "/"%char = false -> p "?"%char = false -> p "#"%char = false ->
  stops p (path_text ++ opt_part (lit "?") q ++ opt_part (lit "#") f) = true.
Proof.
  intros Hp S1 S2 S3. destruct path_text as [|c t].
  - destruct q as [x|]; simpl; [rewrite S2; reflexivity|].
    destruct f as [y|]; simpl; [rewrite S3; reflexivity|reflexivity].
  - simpl in *. unfold is_char in Hp. apply Ascii.eqb_eq in Hp. subst c.
    rewrite S1. reflexivity.
Qed.

Lemma query_stops (p : ascii -> bool) q f :
  p "?"%char = false -> p "#"%char = false ->
  stops p (opt_part (lit "?") q ++ opt_part (lit "#") f) = true.
Proof.
  intros S2 S3. destruct q as [x|]; simpl; [rewrite S2; reflexivity|].
  destruct f as [y|]; simpl; [rewrite S3; reflexivity|reflexivity].
Qed.

Lemma fragment_stops (p : ascii -> bool) f :
  p "#"%char = false -> stops p (opt_part (lit "#") f) = true.
Proof. intros H. destruct f; simpl; [rewrite H|]; reflexivity. Qed.

(** [parse] on a text put together from its parts. *)
Lemma parse_compose scheme_text slashes host_text port_part path_text q f h p pa :
  eqb (toLowerCase scheme_text) (lit "http") || eqb (toLowerCase scheme_text) (lit "https") = true ->
  forallb (one_of (lit "/\")) slashes = true ->
  parse_host host_text = Some h ->
  port_part_ok port_part = true ->
  parse_port (toLowerCase scheme_text) port_part = Some p ->
  path_text_ok path_text = true ->
  parse_path path_text = Some pa ->
  valid_part parse_query q -> valid_part parse_fragment f ->
  parse (compose scheme_text slashes host_text port_part path_text q f)
  = Some {| scheme := toLowerCase scheme_text; host := h; port := p; path := pa;
            query := q; fragment := f |}.
Proof.
  intros Hs Hsl Hh Hpp Hp Hpt Hpa Hq Hf.
  destruct (parse_host_inv _ _ Hh) as (Hne & Hhc & _).
  destruct (parse_path_inv _ _ Hpa) as (Hpc & _).
  set (tail := path_text ++ opt_part (lit "?") q ++ opt_part (lit "#") f).
  set (auth := host_text ++ port_part).
  assert (E1 : span (fun c => negb (is_char ":" c))
                    (compose scheme_text slashes host_text port_part path_text q f)
               = (scheme_text, ":"%char :: slashes ++ auth ++ tail)).
  { unfold compose, auth, tail. rewrite <- !app_assoc.
    change (lit ":" ++ ?x) with (":"%char :: x).
    apply span_app; [apply scheme_text_no_colon, Hs|reflexivity]. }
  assert (E2 : dropWhile (one_of (lit "/\")) (slashes ++ auth ++ tail) = auth ++ tail).
  { apply dropWhile_app; [exact Hsl|]. unfold auth. destruct host_text as [|c t]; [congruence|].
    cbn [app stops]. cbn [forallb] in Hhc. apply andb_true_iff in Hhc as [Hc _].
    rewrite (host_char_not_slash c Hc). reflexivity. }
  assert (E3 : span (fun c => negb (one_of (lit "/\?#") c)) (auth ++ tail) = (auth, tail)).
  { apply span_app.
    - unfold auth. rewrite forallb_app. apply andb_true_iff. split.
      + revert Hhc. apply forallb_implies, host_char_in_authority.
      + destruct port_part as [|c digits]; [reflexivity|]. cbn [port_part_ok] in Hpp.
        apply andb_true_iff in Hpp as [Hc Hd]. unfold is_char in Hc.
        apply Ascii.eqb_eq in Hc. subst c. cbn [forallb].
        apply andb_true_iff. split; [reflexivity|].
        revert Hd. apply forallb_implies, digit_in_authority.
    - apply tail_stops; [exact Hpt|reflexivity..]. }
  assert (E4 : span (fun c => negb (is_char ":" c)) auth = (host_text, port_part)).
  { unfold auth. apply span_app.
    - revert Hhc. apply forallb_implies, host_char_not_colon.
    - destruct port_part as [|c digits]; [reflexivity|]. cbn [port_part_ok] in Hpp.
      apply andb_true_iff in Hpp as [Hc _]. cbn [stops]. rewrite Hc. reflexivity. }
  assert (E5 : span (fun c => negb (one_of (lit "?#") c)) tail
               = (path_text, opt_part (lit "?") q ++ opt_part (lit "#") f)).
  { unfold tail. apply span_app.
    - revert Hpc. apply forallb_implies, path_char_in_path.
    - apply query_stops; reflexivity. }
  unfold parse. rewrite E1. cbv beta iota. rewrite Hs. cbn [negb].
  rewrite E2, E3, E4, E5. rewrite Hh, Hp, Hpa.
  destruct q as [x|].
  - assert (E6 : span (fun c => negb (is_char "#" c)) (x ++ opt_part (lit "#") f)
                 = (x, opt_part (lit "#") f)).
    { apply span_app.
      - destruct (parse_query_inv x x (Hq x eq_refl)) as [Hx _].
        revert Hx. apply forallb_implies, query_char_in_query.
      - apply fragment_stops. reflexivity. }
    cbn [opt_part]. change (lit "?" ++ x) with ("?"%char :: x). cbn [app].
    change (is_char "?" "?") with true. cbv iota. rewrite E6.
    rewrite (Hq x eq_refl).
    destruct f as [y|]; cbn [opt_part]; [|reflexivity].
    change (lit "#" ++ y) with ("#"%char :: y). cbv iota. rewrite (Hf y eq_refl). reflexivity.
  - cbn [opt_part app]. destruct f as [y|]; cbn [opt_part]; [|reflexivity].
    change (lit "#" ++ y) with ("#"%char :: y).
    cbv iota. change (is_char "?" "#") with false. cbv iota.
    rewrite (Hf y eq_refl). reflexivity.
Qed.

End ParseFacts.

(** ** URLs: records and their serialization *)

Module RecordFacts.
Import JS JSFacts Url UrlFacts ParseFacts Range UrlModel.

(** The decimal text of a port is digits, and reads back. *)
Lemma port_text n :
  0 <= n < 65536 ->
  forallb is_digit (number_to_string n) = true
  /\ number_to_string n <> []
  /\ decimal_value (number_to_string n) = n.
Proof.
  intros Hn. assert (H : port_text_ok n = true).
  { apply (checked_below port_text_ok 65536); [vm_compute; reflexivity|exact Hn]. }
  unfold port_text_ok in H. rewrite !andb_true_iff, negb_true_iff, Z.eqb_eq in H.
  destruct H as [[H1 H2] H3]. repeat split; auto.
  intros E. rewrite E in H2. discriminate.
Qed.

Lemma decimal_value_nonneg_from acc digits :
  0 <= acc -> forallb is_digit digits = true ->
  0 <= fold_left (fun a c => a * 10 + (code c - 48)) digits acc.
Proof.
  revert acc. induction digits as [|c t IH]; intros acc Hacc; simpl; [auto|].
  intros [Hc Ht]%andb_true_iff. apply IH; [|exact Ht].
  unfold is_digit in Hc. apply andb_true_iff in Hc as [H1 H2].
  apply Z.leb_le in H1, H2. lia.
Qed.

Lemma parse_port_some scheme n :
  0 <= n < 65536 -> default_port scheme <> Some n ->
  parse_port scheme (lit ":" ++ number_to_string n) = Some (Some n).
Proof.
  intros Hn Hd. destruct (port_text n Hn) as (H1 & H2 & H3).
  unfold parse_port. change (lit ":" ++ ?x) with (":"%char :: x). cbv iota.
  rewrite H1, H3. destruct (number_to_string n) as [|c t] eqn:E; [congruence|].
  replace (65535 <? n) with false by (symmetry; apply Z.ltb_ge; lia).
  destruct (default_port scheme) as [d|]; [|reflexivity].
  destruct (n =? d) eqn:En; [|reflexivity].
  apply Z.eqb_eq in En. subst. congruence.
Qed.

Lemma parse_port_wf scheme after p :
  parse_port scheme after = Some (Some p) ->
  0 <= p < 65536 /\ default_port scheme <> Some p.
Proof.
  unfold parse_port. destruct after as [|c digits]; [discriminate|].
  destruct (forallb is_digit digits) eqn:Hd; [|discriminate].
  destruct digits as [|d ds] eqn:E; [discriminate|]. rewrite <- E in *.
  destruct (65535 <? decimal_value digits) eqn:Hmax; [discriminate|].
  apply Z.ltb_ge in Hmax.
  pose proof (decimal_value_nonneg_from 0 digits ltac:(lia) Hd) as Hnn.
  fold (decimal_value digits) in Hnn.
  destruct (default_port scheme) as [dp|].
  - destruct (decimal_value digits =? dp) eqn:En; [discriminate|].
    intros [= <-]. apply Z.eqb_neq in En. split; [lia|congruence].
  - intros [= <-]. split; [lia|discriminate].
Qed.

Lemma scheme_lower s :
  s = lit "http" \/ s = lit "https" ->
  toLowerCase s = s
  /\ eqb (toLowerCase s) (lit "http") || eqb (toLowerCase s) (lit "https") = true.
Proof. intros [-> | ->]; split; reflexivity. Qed.

Lemma slash_then_path_char c :
  one_of (lit "/\?#") c && negb (one_of (lit "?#") c) && path_char c = true ->
  is_char "/" c = true.
Proof.
  revert c. apply (char_implies
    (fun c => one_of (lit "/\?#") c && negb (one_of (lit "?#") c) && path_char c)
    (is_char "/")).
  vm_compute. reflexivity.
Qed.

(** [parse] builds well-formed records only. *)
Lemma parse_well_formed input u : parse input = Some u -> well_formed u.
Proof.
  unfold parse.
  destruct (span _ input) as [scheme_text rest] eqn:E1.
  destruct rest as [|colon after_colon]; [discriminate|].
  destruct (eqb (toLowerCase scheme_text) (lit "http")
            || eqb (toLowerCase scheme_text) (lit "https")) eqn:Hs; [|discriminate].
  cbn [negb].
  destruct (span _ (dropWhile _ after_colon)) as [authority rest2] eqn:E3.
  destruct (span _ authority) as [host_text after_host] eqn:E4.
  destruct (span _ rest2) as [path_text rest3] eqn:E5.
  destruct (parse_host host_text) as [h|] eqn:Hh; [|intros; destruct (match rest3 with [] => _ | _ => _ end); discriminate].
  destruct (parse_port _ after_host) as [p|] eqn:Hp; [|intros; destruct (match rest3 with [] => _ | _ => _ end); discriminate].
  destruct (parse_path path_text) as [pa|] eqn:Hpa; [|intros; destruct (match rest3 with [] => _ | _ => _ end); discriminate].
  assert (Hscheme : toLowerCase scheme_text = lit "http" \/ toLowerCase scheme_text = lit "https").
  { apply orb_true_iff in Hs as [H|H]; apply eqb_eq in H; auto. }
  assert (Hport : match p with
                  | Some n => 0 <= n < 65536 /\ default_port (toLowerCase scheme_text) <> Some n
                  | None => True
                  end).
  { destruct p as [n|]; [|exact I]. exact (parse_port_wf _ _ _ Hp). }
  assert (Hslash : exists t, pa = "/"%char :: t).
  { destruct (parse_path_inv _ _ Hpa) as [Hpc ->].
    destruct path_text as [|c t]; [exists []; reflexivity|].
    destruct (span_spec _ _ _ _ E3) as (_ & _ & Hstop).
    destruct (span_spec _ _ _ _ E5) as (-> & Hin & _).
    cbn [app stops forallb] in *. apply andb_true_iff in Hin as [Hc _].
    apply andb_true_iff in Hpc as [Hpc _]. apply negb_true_iff in Hstop.
    apply negb_false_iff in Hstop.
    assert (Hsl : is_char "/" c = true).
    { apply slash_then_path_char. rewrite Hstop, Hc, Hpc. reflexivity. }
    unfold is_char in Hsl. apply Ascii.eqb_eq in Hsl. subst c. eauto. }
  assert (W : forall q f, valid_part parse_query q -> valid_part parse_fragment f ->
              well_formed {| scheme := toLowerCase scheme_text; host := h; port := p;
                             path := pa; query := q; fragment := f |}).
  { intros q f Hq Hf. unfold well_formed. cbn [scheme host port path query fragment].
    repeat split; auto.
    - exact (parse_host_idem _ _ Hh).
    - exact (parse_path_idem _ _ Hpa). }
  destruct (match rest3 with [] => _ | _ => _ end) as [[q|] rest4].
  - destruct (match rest4 with [] => None | _ :: f => Some f end) as [f|].
    + destruct (parse_query q) as [q'|] eqn:Hq; [|discriminate].
      destruct (parse_fragment f) as [f'|] eqn:Hf; [|discriminate].
      intros [= <-]. destruct (parse_query_inv _ _ Hq) as [_ ->].
      destruct (parse_fragment_inv _ _ Hf) as [_ ->].
      apply W; intros x [= <-]; assumption.
    + destruct (parse_query q) as [q'|] eqn:Hq; [|discriminate].
      intros [= <-]. destruct (parse_query_inv _ _ Hq) as [_ ->].
      apply W; [intros x [= <-]; assumption | intros x [=]].
  - destruct (match rest4 with [] => None | _ :: f => Some f end) as [f|].
    + destruct (parse_fragment f) as [f'|] eqn:Hf; [|discriminate].
      intros [= <-]. destruct (parse_fragment_inv _ _ Hf) as [_ ->].
      apply W; [intros x [=] | intros x [= <-]; assumption].
    + intros [= <-]. apply W; intros x [=].
Qed.

Lemma href_compose u :
  href u = compose (scheme u) (lit "//") (host u) (port_part_of u) (path u)
                   (query u) (fragment u).
Proof.
  unfold href, compose, port_part_of, opt_part.
  destruct (port u), (query u), (fragment u); rewrite <- ?app_assoc; reflexivity.
Qed.

Lemma port_part_of_ok u : well_formed u -> port_part_ok (port_part_of u) = true.
Proof.
  intros (_ & _ & Hp & _). unfold port_part_of. destruct (port u) as [n|]; [|reflexivity].
  destruct Hp as [Hn _]. destruct (port_text n Hn) as (H & _). exact H.
Qed.

Lemma parse_port_part_of u :
  well_formed u -> parse_port (toLowerCase (scheme u)) (port_part_of u) = Some (port u).
Proof.
  intros (Hs & _ & Hp & _). destruct (scheme_lower _ Hs) as [-> _].
  unfold port_part_of. destruct (port u) as [n|]; [|reflexivity].
  destruct Hp as [Hn Hd]. apply parse_port_some; assumption.
Qed.

(** Serializing a well-formed record and parsing gives the record back. *)
Lemma parse_href u : well_formed u -> parse (href u) = Some u.
Proof.
  intros Hwf. pose proof Hwf as (Hs & Hh & Hp & Hpa & (t & Hsl) & Hq & Hf).
  rewrite href_compose.
  rewrite (parse_compose (scheme u) (lit "//") (host u) (port_part_of u) (path u)
                         (query u) (fragment u) (host u) (port u) (path u)).
  - destruct (scheme_lower _ Hs) as [-> _]. destruct u; reflexivity.
  - apply scheme_lower, Hs.
  - reflexivity.
  - exact Hh.
  - apply port_part_of_ok, Hwf.
  - apply parse_port_part_of, Hwf.
  - rewrite Hsl. reflexivity.
  - exact Hpa.
  - exact Hq.
  - exact Hf.
Qed.

Lemma strip_trailing_slash_end s :
  strip_trailing_slash (s ++ lit "/") = s.
Proof.
  unfold strip_trailing_slash. rewrite rev_app_distr. cbn.
  apply rev_involutive.
Qed.

(** The root URL written without its slash parses to the same record. *)
Lemma parse_stripped u :
  well_formed u -> path u = lit "/" -> query u = None -> fragment u = None ->
  strip_trailing_slash (href u)
  = compose (scheme u) (lit "//") (host u) (port_part_of u) [] None None
  /\ parse (strip_trailing_slash (href u)) = Some u.
Proof.
  intros Hwf Hpath Hquery Hfrag.
  pose proof Hwf as (Hs & Hh & Hp & Hpa & _ & Hq & Hf).
  assert (E : strip_trailing_slash (href u)
              = compose (scheme u) (lit "//") (host u) (port_part_of u) [] None None).
  { rewrite href_compose, Hpath, Hquery, Hfrag. unfold compose. cbn [opt_part].
    rewrite !app_nil_r.
    replace (scheme u ++ lit ":" ++ lit "//" ++ host u ++ port_part_of u ++ lit "/")
      with ((scheme u ++ lit ":" ++ lit "//" ++ host u ++ port_part_of u) ++ lit "/")
      by (rewrite <- !app_assoc; reflexivity).
    rewrite strip_trailing_slash_end. rewrite <- ?app_assoc. reflexivity. }
  split; [exact E|]. rewrite E.
  rewrite (parse_compose (scheme u) (lit "//") (host u) (port_part_of u) [] None None
                         (host u) (port u) (lit "/")).
  - destruct (scheme_lower _ Hs) as [-> _]. destruct u; cbn in *. subst. reflexivity.
  - apply scheme_lower, Hs.
  - reflexivity.
  - exact Hh.
  - apply port_part_of_ok, Hwf.
  - apply parse_port_part_of, Hwf.
  - reflexivity.
  - reflexivity.
  - intros x [=].
  - intros x [=].
Qed.

End RecordFacts.

(** ** URLs: the query and its sort *)

Module QueryFacts.
Import JS JSFacts Url UrlFacts ParseFacts RecordFacts Range UrlModel.

(** *** Percent-decoding what the serializer wrote *)

Lemma percent_decode_other c t :
  is_char "%" c = false -> percent_decode (c :: t) = c :: percent_decode t.
Proof.
  intros Hc. destruct t as [|h1 [|h2 t2]]; cbn [percent_decode]; try reflexivity.
  rewrite Hc. reflexivity.
Qed.

Lemma percent_decode_escape h1 h2 t :
  is_hex_digit h1 = true -> is_hex_digit h2 = true ->
  percent_decode ("%"%char :: h1 :: h2 :: t)
  = char_of (hex_value h1 * 16 + hex_value h2) :: percent_decode t.
Proof. intros H1 H2. cbn [percent_decode]. rewrite H1, H2. reflexivity. Qed.

Lemma byte_encoding c : byte_encoding_ok c = true.
Proof. apply (checked_chars byte_encoding_ok). vm_compute. reflexivity. Qed.

(** Decoding an encoded string gives the string back. *)
Lemma decode_encoded s :
  percent_decode (plus_to_space (urlencoded_string s)) = s.
Proof.
  induction s as [|c t IH]; [reflexivity|].
  unfold urlencoded_string in *. cbn [flat_map]. unfold plus_to_space in *.
  rewrite map_app. pose proof (byte_encoding c) as H.
  unfold byte_encoding_ok in H. apply andb_true_iff in H as [H _].
  destruct (urlencoded_byte c) as [|x [|h1 [|h2 [|? ?]]]]; try discriminate.
  - cbn [map app]. apply andb_true_iff in H as [Hx Hp].
    apply Ascii.eqb_eq in Hx. rewrite Hx. apply negb_true_iff in Hp.
    rewrite (percent_decode_other _ _ Hp), IH. reflexivity.
  - rewrite !andb_true_iff, !negb_true_iff in H.
    destruct H as (((((Hx & H1) & H2) & P1) & P2) & Hc).
    unfold is_char in Hx. apply Ascii.eqb_eq in Hx. subst x.
    cbn [map app]. rewrite P1, P2. change (is_char "+" "%") with false. cbv iota.
    rewrite (percent_decode_escape _ _ _ H1 H2), IH.
    apply Ascii.eqb_eq in Hc. rewrite Hc. reflexivity.
Qed.

Lemma encoded_plain s : forallb plain_char (urlencoded_string s) = true.
Proof.
  induction s as [|c t IH]; [reflexivity|].
  unfold urlencoded_string in *. cbn [flat_map]. rewrite forallb_app, IH, andb_true_r.
  pose proof (byte_encoding c) as H. unfold byte_encoding_ok in H.
  apply andb_true_iff in H as [_ H]. exact H.
Qed.

Lemma plain_not_amp x : plain_char x = true -> is_char "&" x = false.
Proof. unfold plain_char. rewrite !andb_true_iff, !negb_true_iff. tauto. Qed.

Lemma plain_not_eq x : plain_char x = true -> negb (is_char "=" x) = true.
Proof. unfold plain_char. rewrite !andb_true_iff. tauto. Qed.

Lemma plain_query_char x : plain_char x = true -> query_char x = true.
Proof. unfold plain_char. rewrite !andb_true_iff. tauto. Qed.

Lemma parse_encoded_pair nv : parse_pair (encode_pair nv) = nv.
Proof.
  unfold parse_pair, encode_pair. change (lit "=" ++ ?x) with ("="%char :: x).
  rewrite span_app.
  - rewrite !decode_encoded. destruct nv; reflexivity.
  - generalize (encoded_plain (fst nv)). apply forallb_implies, plain_not_eq.
  - reflexivity.
Qed.

Lemma encoded_pair_no_amp nv : includes_char (encode_pair nv) "&" = false.
Proof.
  unfold encode_pair, includes_char. rewrite !existsb_app. cbn [lit list_ascii_of_string existsb].
  assert (H : forall s, existsb (Ascii.eqb "&") (urlencoded_string s) = false).
  { intros s. pose proof (encoded_plain s) as Hs.
    induction (urlencoded_string s) as [|x t IH]; [reflexivity|].
    cbn [forallb existsb] in *. apply andb_true_iff in Hs as [Hx Ht].
    apply plain_not_amp in Hx. unfold is_char in Hx. rewrite Ascii.eqb_sym, Hx.
    exact (IH Ht). }
  rewrite !H. reflexivity.
Qed.

Lemma encoded_pair_nonempty nv : eqb (encode_pair nv) [] = false.
Proof.
  unfold encode_pair. destruct (urlencoded_string (fst nv)); reflexivity.
Qed.

(** Parsing a serialized list of pairs gives the list back. *)
Lemma parse_serialized l : urlencoded_parse (urlencoded_serialize l) = l.
Proof.
  unfold urlencoded_parse, urlencoded_serialize.
  fold encode_pair. change (fun nv => urlencoded_string (fst nv) ++ lit "=" ++ urlencoded_string (snd nv))
    with encode_pair.
  destruct l as [|nv rest]; [reflexivity|].
  change (lit "&") with ["&"%char].
  rewrite split_char_join.
  - assert (F : forall pieces,
               List.filter (fun piece => negb (eqb piece [])) (map encode_pair pieces)
               = map encode_pair pieces).
    { induction pieces as [|p ps IH]; [reflexivity|]. cbn [map List.filter].
      rewrite encoded_pair_nonempty. cbn [negb]. rewrite IH. reflexivity. }
    rewrite F, map_map. rewrite <- (map_id (nv :: rest)) at 2.
    apply map_ext. exact parse_encoded_pair.
  - discriminate.
  - apply forallb_forall. intros p Hp. apply in_map_iff in Hp as (x & <- & _).
    rewrite encoded_pair_no_amp. reflexivity.
Qed.

Lemma serialized_plain l : forallb query_char (urlencoded_serialize l) = true.
Proof.
  unfold urlencoded_serialize.
  change (fun nv => urlencoded_string (fst nv) ++ lit "=" ++ urlencoded_string (snd nv))
    with encode_pair.
  assert (P : forall nv, forallb query_char (encode_pair nv) = true).
  { intros nv. unfold encode_pair. rewrite !forallb_app.
    rewrite (forallb_implies _ _ _ plain_query_char (encoded_plain (fst nv))).
    rewrite (forallb_implies _ _ _ plain_query_char (encoded_plain (snd nv))).
    reflexivity. }
  induction l as [|nv rest IH]; [reflexivity|].
  destruct rest as [|nv' rest'].
  - cbn [map join]. apply P.
  - change (join (lit "&") (map encode_pair (nv :: nv' :: rest')))
      with (encode_pair nv ++ lit "&" ++ join (lit "&") (map encode_pair (nv' :: rest'))).
    rewrite !forallb_app, P, IH. reflexivity.
Qed.

(** *** The sort *)

Lemma code_unit_ltb_irrefl a : code_unit_ltb a a = false.
Proof.
  induction a as [|x a IH]; [reflexivity|]. cbn [code_unit_ltb].
  rewrite Z.ltb_irrefl. exact IH.
Qed.

Lemma code_unit_ltb_asym a b : code_unit_ltb a b = true -> code_unit_ltb b a = false.
Proof.
  revert b. induction a as [|x a IH]; intros [|y b]; cbn [code_unit_ltb]; try congruence.
  destruct (code x <? code y) eqn:E1, (code y <? code x) eqn:E2; try congruence.
  - apply Z.ltb_lt in E1, E2. lia.
  - apply IH.
Qed.

Lemma insert_pair_sorted p l :
  sorted_by_name l -> sorted_by_name (insert_pair p l).
Proof.
  induction l as [|q r IH]; intros Hs; [cbn; auto|].
  cbn [insert_pair]. destruct (code_unit_ltb (fst q) (fst p)) eqn:E.
  - destruct Hs as [Hq Hr]. specialize (IH Hr).
    cbn [sorted_by_name]. split; [|exact IH].
    destruct r as [|q' r']; cbn [insert_pair] in *.
    + apply code_unit_ltb_asym, E.
    + destruct (code_unit_ltb (fst q') (fst p)); [exact Hq|].
      apply code_unit_ltb_asym, E.
  - cbn [sorted_by_name]. split; [exact E|exact Hs].
Qed.

Lemma sort_pairs_sorted l : sorted_by_name (sort_pairs l).
Proof.
  unfold sort_pairs. induction l as [|p l IH]; [exact I|].
  cbn [fold_right]. apply insert_pair_sorted, IH.
Qed.

Lemma insert_pair_perm p l : Permutation (p :: l) (insert_pair p l).
Proof.
  induction l as [|q r IH]; [reflexivity|]. cbn [insert_pair].
  destruct (code_unit_ltb (fst q) (fst p)); [|reflexivity].
  rewrite perm_swap. apply perm_skip, IH.
Qed.

Lemma sort_pairs_perm l : Permutation l (sort_pairs l).
Proof.
  unfold sort_pairs. induction l as [|p l IH]; [reflexivity|].
  cbn [fold_right]. rewrite <- insert_pair_perm. apply perm_skip, IH.
Qed.

(** Sorting a sorted list changes nothing. *)
Lemma sort_sorted l : sorted_by_name l -> sort_pairs l = l.
Proof.
  unfold sort_pairs. induction l as [|p l IH]; [reflexivity|].
  intros [Hp Hl]. cbn [fold_right]. rewrite (IH Hl).
  destruct l as [|q r]; [reflexivity|]. cbn [insert_pair]. rewrite Hp. reflexivity.
Qed.

Lemma sort_pairs_idem l : sort_pairs (sort_pairs l) = sort_pairs l.
Proof. apply sort_sorted, sort_pairs_sorted. Qed.

End QueryFacts.

(** ** URLs: [normalizeUrl] is idempotent *)

Module NormalizeFacts.
Import JS JSFacts Url UrlFacts ParseFacts RecordFacts QueryFacts Range UrlModel.

Lemma normalizeUrl_unfold url :
  normalizeUrl url = match parse url with
                     | Some parsed => Some (written (canonical parsed))
                     | None => None
                     end.
Proof. reflexivity. Qed.

(** The parser has dropped a default port already: the check of
    [normalizeUrl] finds none. *)
Lemma port_check u :
  well_formed u ->
  match map_get DEFAULT_PORTS (protocol u) with
  | Some d => eqb (port_string u) d
  | None => false
  end = false.
Proof.
  intros (Hs & _ & Hp & _). unfold protocol, port_string.
  assert (G : forall d n, 0 <= n < 65536 -> n <> decimal_value d ->
                          eqb (number_to_string n) d = false).
  { intros d n Hn Hne. destruct (port_text n Hn) as (_ & _ & Hv).
    destruct (eqb (number_to_string n) d) eqn:E; [|reflexivity].
    apply eqb_eq in E. rewrite E in Hv. congruence. }
  destruct (port u) as [n|].
  - destruct Hp as [Hn Hd].
    destruct Hs as [Hs | Hs]; rewrite Hs in *.
    + change (map_get DEFAULT_PORTS (lit "http" ++ lit ":")) with (Some (lit "80")).
      apply G; [exact Hn|]. intros ->. apply Hd. reflexivity.
    + change (map_get DEFAULT_PORTS (lit "https" ++ lit ":")) with (Some (lit "443")).
      apply G; [exact Hn|]. intros ->. apply Hd. reflexivity.
  - destruct Hs as [Hs | Hs]; rewrite Hs; reflexivity.
Qed.

Lemma clear_hash_well_formed u : well_formed u -> well_formed (clear_hash u).
Proof.
  intros (Hs & Hh & Hp & Hpa & Hsl & Hq & _). unfold well_formed, clear_hash.
  cbn [scheme host port path query fragment]. repeat split; auto. intros x [=].
Qed.

Lemma canonical_unfold u :
  well_formed u -> canonical u = searchParams_sort (clear_hash u).
Proof.
  intros Hwf. unfold canonical. cbv zeta.
  rewrite (port_check (clear_hash u) (clear_hash_well_formed u Hwf)). reflexivity.
Qed.

Lemma forallb_perm {A} (f : A -> bool) l l' :
  Permutation l l' -> forallb f l = true -> forallb f l' = true.
Proof.
  intros Hp H. apply forallb_forall. intros x Hx. rewrite forallb_forall in H.
  apply H. apply (Permutation_in x (Permutation_sym Hp) Hx).
Qed.

Lemma parsed_query_ascii u :
  well_formed u ->
  forallb ascii_pair (urlencoded_parse (match query u with Some q => q | None => [] end)) = true.
Proof.
  intros (_ & _ & _ & _ & _ & Hq & _). destruct (query u) as [q|]; [|reflexivity].
  specialize (Hq q eq_refl). unfold parse_query in Hq.
  destruct (forallb query_char q); [|discriminate].
  destruct (forallb ascii_pair _); [reflexivity|discriminate].
Qed.

Lemma searchParams_sort_well_formed u :
  well_formed u -> well_formed (searchParams_sort u).
Proof.
  intros Hwf. pose proof (parsed_query_ascii u Hwf) as Ha.
  pose proof Hwf as (Hs & Hh & Hp & Hpa & Hsl & Hq & Hf).
  unfold well_formed, searchParams_sort. cbn [scheme host port path query fragment].
  repeat split; auto.
  set (l := urlencoded_parse _) in *. 
  destruct (urlencoded_serialize (sort_pairs l)) as [|c t] eqn:E; [intros x [=]|].
  intros x [= <-]. rewrite <- E. unfold parse_query.
  rewrite serialized_plain, parse_serialized.
  rewrite (forallb_perm ascii_pair l (sort_pairs l) (sort_pairs_perm l) Ha). reflexivity.
Qed.

Lemma searchParams_sort_idem u :
  searchParams_sort (searchParams_sort u) = searchParams_sort u.
Proof.
  unfold searchParams_sort. cbn [scheme host port path query fragment].
  set (l := urlencoded_parse (match query u with Some q => q | None => [] end)).
  destruct (urlencoded_serialize (sort_pairs l)) as [|c t] eqn:E.
  - reflexivity.
  - rewrite <- E, parse_serialized, sort_pairs_idem, E. reflexivity.
Qed.

Lemma canonical_well_formed u : well_formed u -> well_formed (canonical u).
Proof.
  intros Hwf. rewrite (canonical_unfold u Hwf).
  apply searchParams_sort_well_formed, clear_hash_well_formed, Hwf.
Qed.

Lemma canonical_shape u :
  well_formed u ->
  fragment (canonical u) = None
  /\ (query (canonical u) = None \/ exists c t, query (canonical u) = Some (c :: t)).
Proof.
  intros Hwf. rewrite (canonical_unfold u Hwf). unfold searchParams_sort, clear_hash.
  cbn [scheme host port path query fragment]. split; [reflexivity|].
  destruct (urlencoded_serialize _) as [|c t]; eauto.
Qed.

Lemma canonical_idem u : well_formed u -> canonical (canonical u) = canonical u.
Proof.
  intros Hwf. rewrite (canonical_unfold (canonical u) (canonical_well_formed u Hwf)).
  rewrite (canonical_unfold u Hwf).
  assert (E : clear_hash (searchParams_sort (clear_hash u)) = searchParams_sort (clear_hash u))
    by reflexivity.
  rewrite E. apply searchParams_sort_idem.
Qed.

(** What [normalizeUrl] writes parses to the record it wrote. *)
Lemma parse_written u :
  well_formed u -> parse (written (canonical u)) = Some (canonical u).
Proof.
  intros Hwf. pose proof (canonical_well_formed u Hwf) as Hc.
  destruct (canonical_shape u Hwf) as (Hf & Hq).
  unfold written. destruct (eqb (pathname (canonical u)) (lit "/")) eqn:Ep; cbn [andb].
  - destruct (search (canonical u)) as [|c t] eqn:Es.
    + apply parse_stripped; auto.
      * apply eqb_eq, Ep.
      * destruct Hq as [Hq | (c & t & Hq)]; [exact Hq|].
        unfold search in Es. rewrite Hq in Es. discriminate.
    + apply parse_href, Hc.
  - apply parse_href, Hc.
Qed.



End NormalizeFacts.

(** ** URLs: the normal form *)

Module NormalizeSpec.
Import JS JSFacts Url UrlFacts ParseFacts RecordFacts QueryFacts NormalizeFacts Range UrlModel.

Lemma parse_port_of_text scheme port_part p :
  parse_port scheme port_part = Some p -> p = port_of_text scheme port_part.
Proof.
  unfold parse_port, port_of_text. destruct port_part as [|c digits]; [congruence|].
  destruct (forallb is_digit digits); [|discriminate].
  destruct digits as [|d ds]; [congruence|].
  destruct (65535 <? _); [discriminate|].
  destruct (match default_port scheme with Some _ => _ | None => _ end); congruence.
Qed.

Lemma written_shape u :
  fragment u = None ->
  (query u = None \/ exists c t, query u = Some (c :: t)) ->
  (exists t, path u = "/"%char :: t) ->
  written u
  = scheme u ++ lit "://" ++ host u ++ port_part_of u
    ++ match query u with
       | Some q => path u ++ lit "?" ++ q
       | None => match path u with
                 | ["/"%char] => []
                 | _ => path u
                 end
       end.
Proof.
  intros Hf Hq (t & Hp). unfold written, pathname, search.
  rewrite href_compose. unfold compose. rewrite Hf. cbn [opt_part]. rewrite app_nil_r.
  destruct Hq as [Hq | (c & s & Hq)]; rewrite Hq; cbn [opt_part].
  - rewrite app_nil_r. destruct (eqb (path u) (lit "/")) eqn:E; cbn [andb].
    + apply eqb_eq in E. rewrite E.
      replace (scheme u ++ lit ":" ++ lit "//" ++ host u ++ port_part_of u ++ lit "/")
        with ((scheme u ++ lit "://" ++ host u ++ port_part_of u) ++ lit "/")
        by (rewrite <- !app_assoc; reflexivity).
      rewrite strip_trailing_slash_end, app_nil_r. reflexivity.
    + rewrite Hp in *. destruct t as [|x t']; [discriminate E|]. reflexivity.
  - rewrite andb_false_r. rewrite <- ?app_assoc. reflexivity.
Qed.



End NormalizeSpec.

(** ** The crawl: one turn of the loop *)

Module CrawlerFacts.
Import JS LinkResolver Crawler CrawlerModel.

Lemma sum_tokens_app l p :
  sum_tokens (l ++ [p]) = sum_tokens l + CrawlPageResult.tokens p.
Proof.
  unfold sum_tokens. induction l as [|x l IH]; simpl in *; [lia|]. rewrite IH. lia.
Qed.

Lemma max_depth_nonneg l : 0 <= max_depth l.
Proof. unfold max_depth. induction l as [|x l IH]; simpl; lia. Qed.

Lemma max_depth_app l p :
  max_depth (l ++ [p]) = Z.max (max_depth l) (CrawlPageResult.depth p).
Proof.
  unfold max_depth. induction l as [|x l IH]; simpl in *; [lia|]. rewrite IH. lia.
Qed.

(** Setting [links_found] on the page just appended. *)
Lemma set_last l p n :
  alter (CrawlPageResult.with_links_found n) (length (l ++ [p]) - 1)%nat (l ++ [p])
  = l ++ [CrawlPageResult.with_links_found n p].
Proof.
  rewrite length_app. cbn [length]. replace (length l + 1 - 1)%nat with (length l + 0)%nat by lia.
  rewrite alter_app_r. reflexivity.
Qed.

Lemma filter_links_total keep links :
  (forall l, In l links -> keep l <> None) -> filter_links keep links <> None.
Proof.
  induction links as [|l rest IH]; intros H; [discriminate|]. cbn [filter_links].
  destruct (keep l) as [b|] eqn:E; [|destruct (H l (or_introl eq_refl) E)].
  destruct (filter_links keep rest) eqn:E'; [discriminate|].
  exfalso. apply IH; [|reflexivity]. intros l' Hl'. apply H. right. exact Hl'.
Qed.

(** [filterLinks] throws on no link whose URL parses. *)
Lemma filterLinks_total links baseDomain options :
  (forall l, In l links -> Url.extractDomain (url l) <> None) ->
  filterLinks links baseDomain options <> None.
Proof.
  intros H. apply filter_links_total. intros l Hl. specialize (H l Hl).
  unfold keep_link.
  destruct (is_kind internal _ && _); [discriminate|].
  destruct (is_kind external _ && _); [discriminate|].
  destruct (LinkResolver.allowedDomains options) as [[|d ds]|].
  - destruct (match LinkResolver.includePatterns options with Some (_ :: _) => _ | _ => _ end);
      [discriminate|].
    destruct (match LinkResolver.excludePatterns options with Some (_ :: _) => _ | _ => _ end);
      discriminate.
  - destruct (Url.extractDomain (url l)) as [dom|]; [|congruence].
    destruct (existsb _ (d :: ds)); [|discriminate].
    destruct (match LinkResolver.includePatterns options with Some (_ :: _) => _ | _ => _ end);
      [discriminate|].
    destruct (match LinkResolver.excludePatterns options with Some (_ :: _) => _ | _ => _ end);
      discriminate.
  - destruct (match LinkResolver.includePatterns options with Some (_ :: _) => _ | _ => _ end);
      [discriminate|].
    destruct (match LinkResolver.excludePatterns options with Some (_ :: _) => _ | _ => _ end);
      discriminate.
Qed.

Section Engine.

Variable defaultMaxTokens : Z.
Variable extractPage : str -> option PageResult.t.
Variable extractLinks : TokenCounter.text -> str -> list ResolvedLink.

Abbreviation turn := (Crawler.turn extractPage extractLinks).
Abbreviation loop := (Crawler.loop extractPage extractLinks).
Abbreviation crawl := (Crawler.crawl defaultMaxTokens extractPage extractLinks).

Lemma depth_update a b : (if a <? b then b else a) = Z.max a b.
Proof. destruct (a <? b) eqn:E; [apply Z.ltb_lt in E|apply Z.ltb_ge in E]; lia. Qed.

Lemma turn_cases maxTokens options startDomain entry s :
  turn_spec extractPage extractLinks maxTokens options startDomain entry s
            (turn maxTokens options startDomain entry s).
Proof.
  unfold Crawler.turn.
  destruct (decide (QueueEntry.url entry ∈ visited s)) as [Hv | Hv]; [constructor; exact Hv|].
  cbv beta zeta. rewrite depth_update.
  destruct (extractPage (QueueEntry.url entry)) as [pageResult|] eqn:Ep;
    [|constructor; assumption].
  fold (page_of entry pageResult 0).
  destruct (maxTokens <=? _) eqn:Eb.
  { apply Z.leb_le in Eb. apply turn_budget; assumption. }
  apply Z.leb_gt in Eb.
  destruct (PageResult.html pageResult) as [[|c h]|] eqn:Eh.
  - rewrite set_last. apply turn_no_html; auto.
  - destruct (filterLinks _ startDomain options) as [filteredLinks|] eqn:Ef.
    + rewrite set_last. apply (turn_links _ _ _ _ _ _ _ pageResult c h filteredLinks); assumption.
    + apply (turn_thrown _ _ _ _ _ _ _ pageResult c h); assumption.
  - rewrite set_last. apply turn_no_html; auto.
Qed.

(** A property kept by every turn holds when the loop returns. *)
Lemma loop_invariant (P Q : state -> Prop) maxTokens options startDomain :
  (forall s, P s -> queue s = [] -> Q s) ->
  (forall s entry rest s',
      P s -> queue s = entry :: rest ->
      turn maxTokens options startDomain entry (shifted s rest) = Next s' -> P s') ->
  (forall s entry rest s',
      P s -> queue s = entry :: rest ->
      turn maxTokens options startDomain entry (shifted s rest) = Break s' -> Q s') ->
  forall fuel s r, P s -> loop fuel maxTokens options startDomain s = Returned r -> Q r.
Proof.
  intros Hend Hnext Hbreak. induction fuel as [|fuel IH]; intros s r Hs; simpl.
  - destruct (queue s) eqn:E; [|discriminate]. intros [= <-]. auto.
  - destruct (queue s) as [|entry rest] eqn:E; [intros [= <-]; auto|].
    destruct (turn _ _ _ entry (shifted s rest)) as [s'|s'|] eqn:Et.
    + apply IH. exact (Hnext s entry rest s' Hs E Et).
    + intros [= <-]. exact (Hbreak s entry rest s' Hs E Et).
    + discriminate.
Qed.

End Engine.

End CrawlerFacts.

(** ** The crawl: the token budget *)

Module CrawlerSpec.
Import JS LinkResolver Crawler CrawlerFacts CrawlerModel.

Lemma extractDomain_normalized u n :
  Url.normalizeUrl u = Some n -> exists d, Url.extractDomain n = Some d.
Proof.
  rewrite NormalizeFacts.normalizeUrl_unfold.
  destruct (Url.parse u) as [parsed|] eqn:E; [|discriminate]. intros [= <-].
  unfold Url.extractDomain.
  rewrite (NormalizeFacts.parse_written parsed (RecordFacts.parse_well_formed u parsed E)).
  eauto.
Qed.

Section Engine.

Variable defaultMaxTokens : Z.
Variable extractPage : str -> option PageResult.t.
Variable extractLinks : TokenCounter.text -> str -> list ResolvedLink.

Abbreviation turn := (Crawler.turn extractPage extractLinks).
Abbreviation loop := (Crawler.loop extractPage extractLinks).
Abbreviation crawl := (Crawler.crawl defaultMaxTokens extractPage extractLinks).
Abbreviation turn_cases := (CrawlerFacts.turn_cases extractPage extractLinks).

Lemma crawl_unfold fuel startUrl options :
  crawl fuel startUrl options
  = match Url.normalizeUrl startUrl with
    | None => Threw
    | Some normalizedStart =>
        match Url.extractDomain normalizedStart with
        | None => Threw
        | Some startDomain =>
            match loop fuel (options_maxTokens defaultMaxTokens options)
                       (options_filter options) startDomain (initial normalizedStart) with
            | Returned s => Returned (result_of s)
            | Threw => Threw
            | OutOfFuel => OutOfFuel
            end
        end
    end.
Proof. reflexivity. Qed.

(** A returned result comes from a state the loop returned. *)
Lemma crawl_returned fuel startUrl options r :
  crawl fuel startUrl options = Returned r ->
  exists normalizedStart startDomain s,
    Url.normalizeUrl startUrl = Some normalizedStart
    /\ loop fuel (options_maxTokens defaultMaxTokens options) (options_filter options)
            startDomain (initial normalizedStart) = Returned s
    /\ r = result_of s.
Proof.
  rewrite crawl_unfold. destruct (Url.normalizeUrl startUrl) as [n|]; [|discriminate].
  destruct (Url.extractDomain n) as [d|]; [|discriminate].
  destruct (loop _ _ _ _ _) as [s| |] eqn:E; try discriminate.
  intros [= <-]. eauto 10.
Qed.

(** *** The token budget *)

Lemma page_of_kept entry pageResult k :
  extractPage (QueueEntry.url entry) = Some pageResult ->
  kept_in_full extractPage (page_of entry pageResult k).
Proof. intros H. exists pageResult. cbn. auto. Qed.

Lemma budget_loop fuel maxTokens options startDomain s r :
  under_budget extractPage maxTokens s ->
  loop fuel maxTokens options startDomain s = Returned r ->
  budget_outcome extractPage maxTokens r.
Proof.
  apply (loop_invariant extractPage extractLinks (under_budget extractPage maxTokens)
                        (budget_outcome extractPage maxTokens)).
  - intros s0 (Ht & Hk & Hr & Hb) _. unfold budget_outcome. auto.
  - intros s0 entry rest s' (Ht & Hk & Hr & Hb) Hq Hturn.
    pose proof (turn_cases maxTokens options startDomain entry (shifted s0 rest)) as Hc.
    rewrite Hturn in Hc. unfold under_budget.
    inversion Hc; subst; cbn [shifted queue visited crawled totalTokens maxDepthReached
                                stoppedReason] in *.
    + auto.
    + auto.
    + rewrite sum_tokens_app. cbn [page_of CrawlPageResult.tokens].
      repeat split; try lia; auto.
      apply Forall_app. split; [exact Hk|]. constructor; [|constructor].
      apply page_of_kept. assumption.
    + rewrite sum_tokens_app. cbn [page_of CrawlPageResult.tokens].
      repeat split; try lia; auto.
      apply Forall_app. split; [exact Hk|]. constructor; [|constructor].
      apply page_of_kept. assumption.
  - intros s0 entry rest s' (Ht & Hk & Hr & Hb) Hq Hturn.
    pose proof (turn_cases maxTokens options startDomain entry (shifted s0 rest)) as Hc.
    rewrite Hturn in Hc. unfold budget_outcome.
    inversion Hc; subst; cbn [shifted queue visited crawled totalTokens maxDepthReached
                                stoppedReason] in *.
    rewrite sum_tokens_app. cbn [page_of CrawlPageResult.tokens].
    repeat split; try lia.
    + apply Forall_app. split; [exact Hk|]. constructor; [|constructor].
      apply page_of_kept. assumption.
    + left. split; [reflexivity|].
      exists (crawled s0), (page_of entry pageResult 0). split; [reflexivity|].
      cbn [page_of CrawlPageResult.tokens]. split; [|lia].
      destruct Hb as [Hb|Hb]; [left; exact Hb|right; lia].
Qed.

Lemma initial_under_budget maxTokens n : under_budget extractPage maxTokens (initial n).
Proof. unfold under_budget, initial. cbn. repeat split; auto. Qed.

Lemma result_stopped s :
  stopped_reason_of (summary (result_of s)) = token_limit <-> stoppedReason s = token_limit.
Proof.
  unfold result_of. cbn [summary stopped_reason_of].
  destruct (stoppedReason s); cbn [stopped_eqb negb]; [tauto| |].
  - destruct (_ && _); [destruct (_ <? _)|]; split; discriminate.
  - destruct (_ && _); [destruct (_ <? _)|]; split; discriminate.
Qed.

Lemma turn_break maxTokens options startDomain entry s pageResult :
  QueueEntry.url entry ∉ visited s ->
  extractPage (QueueEntry.url entry) = Some pageResult ->
  maxTokens <= totalTokens s + TokenCounter.estimateTokens (PageResult.content pageResult) ->
  turn maxTokens options startDomain entry s
  = Break {| queue := queue s; visited := visited s ∪ {[ QueueEntry.url entry ]};
             crawled := crawled s ++ [page_of entry pageResult 0];
             totalTokens := totalTokens s
                            + TokenCounter.estimateTokens (PageResult.content pageResult);
             maxDepthReached := Z.max (maxDepthReached s) (QueueEntry.depth entry);
             stoppedReason := token_limit |}.
Proof.
  intros Hv Hp Hb. unfold Crawler.turn. destruct (decide _) as [|_]; [contradiction|].
  cbv beta zeta. rewrite Hp, depth_update. apply Z.leb_le in Hb. rewrite Hb. reflexivity.
Qed.

(** C4.  The token budget is checked after the page is appended.  In one
    turn: a page that is extracted and brings the running total to
    [maxTokens] or more is appended, and the loop breaks with the reason
    [token_limit].  In every result: the total is the sum over the pages,
    each page holds the content that was extracted for it, whole; the
    reason is [token_limit] exactly when there are pages and the total
    has reached the budget, and then it is the last page that crossed it.
    A crawl with [maxTokens] 1 whose seed page is estimated at 500 tokens
    returns that one page and [token_limit]. *)
Theorem budget_checked_after_inclusion :
  (forall maxTokens options startDomain entry s pageResult,
      QueueEntry.url entry ∉ visited s ->
      extractPage (QueueEntry.url entry) = Some pageResult ->
      maxTokens <= totalTokens s + TokenCounter.estimateTokens (PageResult.content pageResult) ->
      exists s', turn maxTokens options startDomain entry s = Break s'
                 /\ crawled s' = crawled s ++ [page_of entry pageResult 0]
                 /\ stoppedReason s' = token_limit)
  /\ (forall fuel startUrl options r,
         crawl fuel startUrl options = Returned r ->
         total_tokens (summary r) = sum_tokens (pages r)
         /\ Forall (kept_in_full extractPage) (pages r)
         /\ (stopped_reason_of (summary r) = token_limit
             <-> pages r <> []
                 /\ options_maxTokens defaultMaxTokens options <= total_tokens (summary r))
         /\ (stopped_reason_of (summary r) = token_limit ->
             exists before last,
               pages r = before ++ [last]
               /\ (before = [] \/ sum_tokens before < options_maxTokens defaultMaxTokens options)
               /\ options_maxTokens defaultMaxTokens options
                  <= sum_tokens before + CrawlPageResult.tokens last))
  /\ (forall fuel startUrl normalizedStart pageResult allowed excluded included,
         Url.normalizeUrl startUrl = Some normalizedStart ->
         extractPage normalizedStart = Some pageResult ->
         TokenCounter.estimateTokens (PageResult.content pageResult) = 500 ->
         exists r,
           crawl (S fuel) startUrl
                 (Some {| maxTokens := Some 1; allowedDomains := allowed;
                          excludePatterns := excluded; includePatterns := included |})
           = Returned r
           /\ pages r = [page_of (seed_entry normalizedStart) pageResult 0]
           /\ total_pages (summary r) = 1
           /\ stopped_reason_of (summary r) = token_limit).
Proof.
  split; [|split].
  - intros maxTokens options startDomain entry s pageResult Hv Hp Hb.
    rewrite (turn_break _ _ _ _ _ _ Hv Hp Hb). eexists. split; [reflexivity|].
    split; reflexivity.
  - intros fuel startUrl options r Hr.
    destruct (crawl_returned _ _ _ _ Hr) as (n & d & s & _ & Hloop & ->).
    pose proof (budget_loop _ _ _ _ _ _ (initial_under_budget _ n) Hloop)
      as (Ht & Hk & Hcase).
    rewrite result_stopped.
    change (pages (result_of s)) with (crawled s).
    change (total_tokens (summary (result_of s))) with (totalTokens s).
    split; [exact Ht|]. split; [exact Hk|]. split; [split|].
    + intros Hs. destruct Hcase as [(_ & before & last & E & _ & Hm) | (Hn & _)];
        [|congruence].
      split; [rewrite E; destruct before; discriminate|].
      rewrite Ht, E, sum_tokens_app. exact Hm.
    + intros [Hne Hm]. destruct Hcase as [(Hs & _) | (_ & [He | Hlt])];
        [exact Hs|congruence|lia].
    + intros Hs. destruct Hcase as [(_ & H) | (Hn & _)]; [exact H|congruence].
  - intros fuel startUrl n pageResult allowed excluded included Hn Hp Ht.
    destruct (extractDomain_normalized _ _ Hn) as [d Hd].
    rewrite crawl_unfold, Hn, Hd. cbn [Crawler.loop initial queue].
    fold (seed_entry n). rewrite (turn_break _ _ _ _ _ pageResult).
    + eexists. split; [reflexivity|]. cbn. auto.
    + cbn. apply not_elem_of_empty.
    + exact Hp.
    + cbn. lia.
Qed.

End Engine.

End CrawlerSpec.

(** ** The crawl: the depth reached *)

Module CrawlerDepth.
Import JS LinkResolver Crawler CrawlerFacts CrawlerSpec CrawlerModel.

Section Engine.

Variable defaultMaxTokens : Z.
Variable extractPage : str -> option PageResult.t.
Variable extractLinks : TokenCounter.text -> str -> list ResolvedLink.

Abbreviation turn := (Crawler.turn extractPage extractLinks).
Abbreviation loop := (Crawler.loop extractPage extractLinks).
Abbreviation crawl := (Crawler.crawl defaultMaxTokens extractPage extractLinks).
Abbreviation turn_cases := (CrawlerFacts.turn_cases extractPage extractLinks).

(** *** The depth reached *)

Lemma depth_loop fuel maxTokens options startDomain s r :
  depth_tracked extractPage s ->
  loop fuel maxTokens options startDomain s = Returned r ->
  depth_tracked extractPage r.
Proof.
  assert (Step : forall s0 entry rest f,
             depth_tracked extractPage s0 -> queue s0 = entry :: rest ->
             turn_spec extractPage extractLinks maxTokens options startDomain entry
                       (shifted s0 rest) f ->
             match f with
             | Next s' | Break s' => depth_tracked extractPage s'
             | Throw => True
             end).
  { intros s0 entry rest f (Hle & Hempty & Hall) Hq Hc. unfold depth_tracked.
    pose proof (max_depth_nonneg (crawled s0)) as Hnn.
    destruct Hc; cbn [shifted queue visited crawled totalTokens maxDepthReached
                      stoppedReason] in *; rewrite ?max_depth_app;
      cbn [page_of CrawlPageResult.depth]; try exact I.
    - split; [exact Hle|]. split; [|exact Hall].
      intros He. destruct (Hempty He) as [Hzero Hd]. split; [exact Hzero|].
      rewrite Hq in Hd. inversion Hd; assumption.
    - split; [lia|]. split.
      + intros He. destruct (Hempty He) as [Hzero Hd]. rewrite Hq in Hd.
        inversion Hd as [|e l He0 Hl]; subst. split; [lia|exact Hl].
      + intros Ha. exfalso. apply (Ha (QueueEntry.url entry)). assumption.
    - split; [lia|]. split; [intros He; destruct (crawled s0); discriminate|].
      intros Ha. rewrite (Hall Ha). lia.
    - split; [lia|]. split; [intros He; destruct (crawled s0); discriminate|].
      intros Ha. rewrite (Hall Ha). lia.
    - split; [lia|]. split; [intros He; destruct (crawled s0); discriminate|].
      intros Ha. rewrite (Hall Ha). lia. }
  apply (loop_invariant extractPage extractLinks (depth_tracked extractPage)
                        (depth_tracked extractPage)).
  - auto.
  - intros s0 entry rest s' Hs Hq Hturn.
    pose proof (Step s0 entry rest _ Hs Hq (turn_cases maxTokens options startDomain entry _)) as H.
    rewrite Hturn in H. exact H.
  - intros s0 entry rest s' Hs Hq Hturn.
    pose proof (Step s0 entry rest _ Hs Hq (turn_cases maxTokens options startDomain entry _)) as H.
    rewrite Hturn in H. exact H.
Qed.

Lemma max_depth_bounds l :
  Forall (fun p => CrawlPageResult.depth p <= max_depth l) l.
Proof.
  unfold max_depth. induction l as [|p l IH]; [constructor|]. cbn [map fold_right].
  constructor; [lia|]. revert IH. apply List.Forall_impl. intros q Hq. lia.
Qed.


End Engine.

End CrawlerDepth.

(** ** The crawl: failures and termination *)

Module CrawlerFailures.
Import JS LinkResolver Crawler CrawlerFacts CrawlerSpec CrawlerModel Examples.

Section Engine.

Variable defaultMaxTokens : Z.
Variable extractPage : str -> option PageResult.t.
Variable extractLinks : TokenCounter.text -> str -> list ResolvedLink.

(** The links discovered carry URLs that parse: [extractLinks] returns
    normalized URLs only. *)
Hypothesis links_parse :
  forall html baseUrl link,
    In link (extractLinks html baseUrl) -> Url.extractDomain (url link) <> None.

(** Only finitely many URLs can be extracted. *)
Variable web : list str.
Hypothesis web_finite : forall u, extractPage u <> None -> In u web.

Abbreviation turn := (Crawler.turn extractPage extractLinks).
Abbreviation loop := (Crawler.loop extractPage extractLinks).
Abbreviation crawl := (Crawler.crawl defaultMaxTokens extractPage extractLinks).
Abbreviation turn_cases := (CrawlerFacts.turn_cases extractPage extractLinks).

Lemma turn_never_throws maxTokens options startDomain entry s :
  turn maxTokens options startDomain entry s <> Throw.
Proof.
  pose proof (turn_cases maxTokens options startDomain entry s) as Hc.
  intros E. rewrite E in Hc. inversion Hc as [| | |pr c h Hv He Hb Hh Hf| |].
  revert Hf. apply filterLinks_total. intros l Hl. exact (links_parse _ _ l Hl).
Qed.

(** No failure of a page leaves the loop as an exception. *)
Lemma loop_never_throws fuel maxTokens options startDomain s :
  loop fuel maxTokens options startDomain s <> Threw.
Proof.
  revert s. induction fuel as [|fuel IH]; intros s; simpl.
  - destruct (queue s); discriminate.
  - destruct (queue s) as [|entry rest]; [discriminate|].
    destruct (turn _ _ _ entry (shifted s rest)) as [s'|s'|] eqn:E.
    + apply IH.
    + discriminate.
    + exfalso. exact (turn_never_throws _ _ _ _ _ E).
Qed.

Lemma loop_more_fuel fuel maxTokens options startDomain s r :
  loop fuel maxTokens options startDomain s = Returned r ->
  loop (S fuel) maxTokens options startDomain s = Returned r.
Proof.
  revert s. induction fuel as [|fuel IH]; intros s.
  - simpl. destruct (queue s); [auto|discriminate].
  - intros H. change (loop (S fuel) maxTokens options startDomain s) with
      (match queue s with
       | [] => Returned s
       | entry :: rest =>
           match turn maxTokens options startDomain entry (shifted s rest) with
           | Next s' => loop fuel maxTokens options startDomain s'
           | Break s' => Returned s'
           | Throw => Threw
           end
       end) in H.
    change (loop (S (S fuel)) maxTokens options startDomain s) with
      (match queue s with
       | [] => Returned s
       | entry :: rest =>
           match turn maxTokens options startDomain entry (shifted s rest) with
           | Next s' => loop (S fuel) maxTokens options startDomain s'
           | Break s' => Returned s'
           | Throw => Threw
           end
       end).
    destruct (queue s) as [|entry rest]; [exact H|].
    destruct (turn _ _ _ entry (shifted s rest)); auto.
Qed.

(** The loop ends: every turn shortens the queue or visits a new URL of
    the web. *)
Lemma loop_terminates maxTokens options startDomain :
  forall n len s,
    (size (unvisited web s) <= n)%nat -> (length (queue s) <= len)%nat ->
    exists fuel r, loop fuel maxTokens options startDomain s = Returned r.
Proof.
  induction n as [n IHn] using lt_wf_ind. induction len as [|len IHlen]; intros s Hn Hlen.
  - exists 0%nat, s. simpl. destruct (queue s); [reflexivity|simpl in Hlen; lia].
  - destruct (queue s) as [|entry rest] eqn:Hq.
    { exists 0%nat, s. simpl. rewrite Hq. reflexivity. }
    simpl in Hlen.
    pose proof (turn_cases maxTokens options startDomain entry (shifted s rest)) as Hc.
    assert (Hstep : forall s',
               turn maxTokens options startDomain entry (shifted s rest) = Next s' ->
               (exists fuel r, loop fuel maxTokens options startDomain s' = Returned r) ->
               exists fuel r, loop fuel maxTokens options startDomain s = Returned r).
    { intros s' Ht (fuel & r & Hl). exists (S fuel), r. simpl. rewrite Hq, Ht. exact Hl. }
    destruct (turn maxTokens options startDomain entry (shifted s rest)) as [s'|s'|] eqn:Ht.
    + apply (Hstep s' eq_refl).
      assert (Hnew : QueueEntry.url entry ∉ visited s -> extractPage (QueueEntry.url entry) <> None ->
                     forall s2, visited s2 = visited s ∪ {[ QueueEntry.url entry ]} ->
                     exists fuel r, loop fuel maxTokens options startDomain s2 = Returned r).
      { intros Hv He s2 Hs2.
        assert (Hin : QueueEntry.url entry ∈ unvisited web s).
        { unfold unvisited. apply elem_of_difference. split; [|exact Hv].
          apply elem_of_list_to_set, list_elem_of_In, web_finite. exact He. }
        assert (Heq : unvisited web s2 = unvisited web s ∖ {[ QueueEntry.url entry ]}).
        { unfold unvisited. rewrite Hs2. set_solver. }
        assert (Hlt : (size (unvisited web s2) < size (unvisited web s))%nat).
        { rewrite Heq. apply subset_size. set_solver. }
        apply (IHn (size (unvisited web s2)) ltac:(lia) (length (queue s2)) s2); reflexivity. }
      inversion Hc as [Hv | Hv He | | | pr c h fl Hv He Hb Hh Hf | pr Hv He Hb Hh];
        subst s'; cbn [shifted visited] in *.
      * apply IHlen; cbn [shifted queue visited unvisited]; [exact Hn|lia].
      * apply IHlen; [|cbn; lia].
        etransitivity; [|exact Hn]. apply subseteq_size. unfold unvisited. cbn. set_solver.
      * apply Hnew; [exact Hv|congruence|reflexivity].
      * apply Hnew; [exact Hv|congruence|reflexivity].
    + exists 1%nat, s'. simpl. rewrite Hq, Ht. reflexivity.
    + exfalso. exact (turn_never_throws _ _ _ _ _ Ht).
Qed.

Lemma seed_alone_loop n p fuel maxTokens options startDomain s r :
  extractPage n = Some p ->
  (forall u, u <> n -> extractPage u = None) ->
  seed_alone n p s ->
  loop fuel maxTokens options startDomain s = Returned r ->
  seed_page_only n p (crawled r).
Proof.
  intros Hp Hothers.
  assert (Step : forall s0 entry rest f,
             seed_alone n p s0 -> queue s0 = entry :: rest ->
             turn_spec extractPage extractLinks maxTokens options startDomain entry
                       (shifted s0 rest) f ->
             match f with
             | Next s' => seed_alone n p s'
             | Break s' => seed_page_only n p (crawled s')
             | Throw => True
             end).
  { intros s0 entry rest f Hs Hq Hc.
    destruct Hs as [(Hnil & Hvis & Hseed) | (Hpage & Hin)].
    - rewrite Hq in Hseed. injection Hseed as -> ->.
      destruct Hc; cbn [shifted queue visited crawled seed_entry QueueEntry.url] in *;
        try exact I;
        try (match goal with H : extractPage n = _ |- _ => rewrite Hp in H; inversion H; subst end).
      + rewrite Hvis in *. set_solver.
      + rewrite Hnil. eexists. reflexivity.
      + right. split; [rewrite Hnil; eexists; reflexivity|set_solver].
      + right. split; [rewrite Hnil; eexists; reflexivity|set_solver].
    - assert (Hnew : QueueEntry.url entry ∉ visited s0 ->
                     extractPage (QueueEntry.url entry) = None).
      { intros Hv. apply Hothers. intros E. apply Hv. rewrite E. exact Hin. }
      destruct Hc; cbn [shifted queue visited crawled] in *; try exact I;
        try (match goal with
             | Hv : _ ∉ visited s0, He : extractPage _ = Some _ |- _ =>
                 rewrite (Hnew Hv) in He; discriminate
             end).
      + right. split; assumption.
      + right. split; [assumption|set_solver]. }
  apply (loop_invariant extractPage extractLinks (seed_alone n p)
                        (fun s => seed_page_only n p (crawled s))).
  - intros s0 [(_ & _ & Hq) | (Hpage & _)] Hempty; [congruence|exact Hpage].
  - intros s0 entry rest s' Hs Hq Hturn.
    pose proof (Step s0 entry rest _ Hs Hq (turn_cases maxTokens options startDomain entry _)) as H.
    rewrite Hturn in H. exact H.
  - intros s0 entry rest s' Hs Hq Hturn.
    pose proof (Step s0 entry rest _ Hs Hq (turn_cases maxTokens options startDomain entry _)) as H.
    rewrite Hturn in H. exact H.
Qed.

Lemma turn_failed_seed maxTokens options startDomain n :
  extractPage n = None ->
  loop 1 maxTokens options startDomain (initial n)
  = Returned {| queue := []; visited := ∅ ∪ {[ n ]}; crawled := []; totalTokens := 0;
                maxDepthReached := 0; stoppedReason := no_more_links |}.
Proof.
  intros Hp. cbn [Crawler.loop initial queue]. unfold Crawler.turn.
  cbn [shifted visited QueueEntry.url QueueEntry.depth maxDepthReached queue crawled
       totalTokens stoppedReason].
  destruct (decide (n ∈ (∅ : gset str))) as [Hin|_]; [set_solver|].
  cbv zeta. rewrite Hp. reflexivity.
Qed.


End Engine.





(** C4 at a site of 500-token pages, with a budget of one token. *)
Lemma budget_checked_after_inclusion_witness :
  exists r,
    crawl 100000 long_page one_link 1 (lit "https://example.com/")
          (Some {| maxTokens := Some 1; allowedDomains := None;
                   excludePatterns := None; includePatterns := None |})
    = Returned r
    /\ pages r = [page_of (seed_entry (lit "https://example.com"))
                          {| PageResult.title := []; PageResult.content := repeat 97 2000;
                             PageResult.html := None |} 0]
    /\ total_pages (summary r) = 1
    /\ stopped_reason_of (summary r) = token_limit.
Proof.
  apply (proj2 (proj2 (CrawlerSpec.budget_checked_after_inclusion 100000 long_page one_link))
           0%nat (lit "https://example.com/") (lit "https://example.com")).
  - vm_compute. reflexivity.
  - reflexivity.
  - vm_compute. reflexivity.
Defined.

End CrawlerFailures.

(** ** More on the SSRF gate *)

Module NetworkMore.
Import JS JSFacts Network Address NetworkFacts Ipv6Facts ExpandFacts NetworkSpec.
Import Range AddressChecks Ipv6Blocks MappedBlocks MoreChecks Examples.

(** *** IPv4 texts *)

(** X1.  [ipv4ToInt] gives the unsigned value of a dotted quad: the [>>> 0]
    keeps the addresses from 128.0.0.0 on positive. *)
Theorem ipv4ToInt_unsigned (a b c d : Z) :
  octet a -> octet b -> octet c -> octet d ->
  ipv4ToInt (dotted a b c d) = a * 2 ^ 24 + b * 2 ^ 16 + c * 2 ^ 8 + d
  /\ 0 <= ipv4ToInt (dotted a b c d) < 2 ^ 32.
Proof.
  intros Ha Hb Hc Hd. rewrite ipv4ToInt_dotted by assumption.
  unfold ipv4_value, octet in *. lia.
Qed.

Lemma ipv4ToInt_unsigned_witness :
  ipv4ToInt (lit "255.255.255.255") = 4294967295 /\ 0 <= ipv4ToInt (lit "255.255.255.255") < 2 ^ 32.
Proof. apply (ipv4ToInt_unsigned 255 255 255 255); unfold octet; lia. Defined.

Lemma digit_in_no_digit c : Url.is_digit c = false -> digit_in 10 c = None.
Proof.
  intros H. assert (K : no_digit_reads c = true).
  { apply (checked_chars no_digit_reads). vm_compute. reflexivity. }
  unfold no_digit_reads in K. rewrite H in K. simpl in K.
  destruct (digit_in 10 c); [discriminate|reflexivity].
Qed.

Lemma digits_prefix_no_digit s :
  forallb (fun c => negb (Url.is_digit c)) s = true -> digits_prefix 10 None s = None.
Proof.
  destruct s as [|c t]; [reflexivity|]. simpl. intros [Hc _]%andb_true_iff.
  apply negb_true_iff in Hc. rewrite (digit_in_no_digit c Hc). reflexivity.
Qed.

Lemma trimStart_keeps (P : ascii -> bool) s :
  forallb P s = true -> forallb P (trimStart s) = true.
Proof.
  induction s as [|c t IH]; [reflexivity|]. intros H. simpl.
  destruct (is_space c); [|exact H]. apply IH.
  simpl in H. apply andb_true_iff in H. tauto.
Qed.

(** [parseInt] of a text without a digit is [NaN]. *)
Lemma parseInt_no_digit s :
  forallb (fun c => negb (Url.is_digit c)) s = true -> parseInt s 10 = None.
Proof.
  intros H. apply trimStart_keeps in H. unfold parseInt.
  destruct (trimStart s) as [|c t] eqn:E.
  - reflexivity.
  - assert (Ht : forallb (fun c => negb (Url.is_digit c)) t = true).
    { simpl in H. apply andb_true_iff in H. tauto. }
    destruct (Ascii.eqb c "-"); [|destruct (Ascii.eqb c "+")];
      change (10 =? 16) with false; cbv iota;
      rewrite digits_prefix_no_digit; auto.
Qed.

Lemma cons_head_keeps (P : ascii -> bool) a pieces :
  P a = true -> Forall (fun p => forallb P p = true) pieces ->
  Forall (fun p => forallb P p = true) (cons_head a pieces).
Proof.
  intros Ha Hp. destruct Hp as [|p rest Hp Hrest]; simpl.
  - constructor; [simpl; rewrite Ha; reflexivity|constructor].
  - constructor; [simpl; rewrite Ha; exact Hp|exact Hrest].
Qed.

Lemma split_char_keeps (P : ascii -> bool) c s :
  forallb P s = true -> Forall (fun p => forallb P p = true) (split_char c s).
Proof.
  induction s as [|a t IH]; simpl.
  - intros _. constructor; [reflexivity|constructor].
  - intros [Ha Ht]%andb_true_iff. destruct (Ascii.eqb a c).
    + constructor; [reflexivity|auto].
    + apply cons_head_keeps; auto.
Qed.

Lemma parseInt_at_no_digit parts i :
  Forall (fun p => forallb (fun c => negb (Url.is_digit c)) p = true) parts ->
  parseInt_at parts i 10 = None.
Proof.
  intros H. unfold parseInt_at. apply parseInt_no_digit.
  destruct (nth_in_or_default i parts (lit "undefined")) as [Hin | ->].
  - rewrite List.Forall_forall in H. apply H, Hin.
  - reflexivity.
Qed.

(** X2.  A text that is no address at all, without a digit and without a
    colon (a host name, the empty string), has the value 0 and so counts
    as private: the check fails closed. *)
Theorem text_without_digit_is_private (s : str) :
  forallb (fun c => negb (Url.is_digit c)) s = true ->
  includes_char s ":" = false ->
  ipv4ToInt s = 0 /\ isPrivateIP s = Some true.
Proof.
  intros Hs Hc.
  assert (E : ipv4ToInt s = 0).
  { unfold ipv4ToInt. cbv zeta.
    pose proof (split_char_keeps _ "." s Hs) as Hp.
    rewrite !(parseInt_at_no_digit _ _ Hp). reflexivity. }
  split; [exact E|]. unfold isPrivateIP. rewrite Hc. f_equal.
  unfold isIPv4Private. cbv zeta. rewrite E. vm_compute. reflexivity.
Qed.

Lemma text_without_digit_is_private_witness :
  ipv4ToInt (lit "localhost") = 0 /\ isPrivateIP (lit "localhost") = Some true.
Proof. apply (text_without_digit_is_private (lit "localhost")); reflexivity. Defined.

(** *** IPv6 texts *)

Lemma hex_char_digit d :
  0 <= d < 16 ->
  Url.is_hex_digit (hex_char d) = true /\ Url.hex_value (hex_char d) = d
  /\ lower_char (hex_char d) = hex_char d.
Proof.
  intros Hd. assert (K : hex_char_is_digit d = true).
  { apply (checked_below hex_char_is_digit 16); [vm_compute; reflexivity|exact Hd]. }
  unfold hex_char_is_digit in K. rewrite !andb_true_iff in K.
  destruct K as [[K1 K2] K3]. apply Z.eqb_eq in K2. apply Ascii.eqb_eq in K3. auto.
Qed.

Lemma nibbles v :
  0 <= v < 65536 ->
  0 <= v / 4096 mod 16 < 16 /\ 0 <= v / 256 mod 16 < 16
  /\ 0 <= v / 16 mod 16 < 16 /\ 0 <= v mod 16 < 16
  /\ v = ((v / 4096 mod 16 * 16 + v / 256 mod 16) * 16 + v / 16 mod 16) * 16 + v mod 16.
Proof.
  intros Hv. repeat split; try (apply Z.mod_pos_bound; lia).
  pose proof (Z.div_mod v 16 ltac:(lia)). pose proof (Z.div_mod (v / 16) 16 ltac:(lia)).
  pose proof (Z.div_mod (v / 16 / 16) 16 ltac:(lia)).
  replace (v / 256) with (v / 16 / 16) by (rewrite Z.div_div by lia; reflexivity).
  replace (v / 4096) with (v / 16 / 16 / 16) by (rewrite !Z.div_div by lia; reflexivity).
  assert (v / 16 / 16 / 16 < 16) by (rewrite !Z.div_div by lia; apply Z.div_lt_upper_bound; lia).
  assert (0 <= v / 16 / 16 / 16) by (rewrite !Z.div_div by lia; apply Z.div_pos; lia).
  rewrite (Z.mod_small (v / 16 / 16 / 16) 16) by lia. lia.
Qed.

(** The four digits of a group are a group, and read back. *)
Lemma hextet_hex4 v : 0 <= v < 65536 -> hextet (hex4 v) = true /\ hextet_value (hex4 v) = v.
Proof.
  intros Hv. destruct (nibbles v Hv) as (H1 & H2 & H3 & H4 & E).
  destruct (hex_char_digit _ H1) as (A1 & B1 & _).
  destruct (hex_char_digit _ H2) as (A2 & B2 & _).
  destruct (hex_char_digit _ H3) as (A3 & B3 & _).
  destruct (hex_char_digit _ H4) as (A4 & B4 & _).
  unfold hextet, hex4, hextet_value. cbn [length forallb fold_left Nat.leb].
  rewrite A1, A2, A3, A4, B1, B2, B3, B4. split; [reflexivity|]. lia.
Qed.

Lemma hex4_lower v : 0 <= v < 65536 -> toLowerCase (hex4 v) = hex4 v.
Proof.
  intros Hv. destruct (nibbles v Hv) as (H1 & H2 & H3 & H4 & _).
  unfold hex4, toLowerCase. cbn [map].
  destruct (hex_char_digit _ H1) as (_ & _ & ->).
  destruct (hex_char_digit _ H2) as (_ & _ & ->).
  destruct (hex_char_digit _ H3) as (_ & _ & ->).
  destruct (hex_char_digit _ H4) as (_ & _ & ->). reflexivity.
Qed.

Lemma hex4_groups gs :
  Forall (fun g => 0 <= g < 65536) gs ->
  forallb hextet (map hex4 gs) = true /\ map hextet_value (map hex4 gs) = gs.
Proof.
  induction 1 as [|g rest Hg _ [IH1 IH2]]; [split; reflexivity|].
  destruct (hextet_hex4 g Hg) as [A B]. cbn [map forallb].
  rewrite A, B, IH1, IH2. split; reflexivity.
Qed.

Lemma groups_length t : well_formed t = true -> length (groups_of t) = 8%nat.
Proof.
  destruct t as [gs | l r]; simpl; rewrite ?andb_true_iff.
  - intros [Hlen _]. apply Nat.eqb_eq in Hlen. rewrite length_map. exact Hlen.
  - intros [[Hlen _] _]. apply Nat.leb_le in Hlen.
    rewrite !length_app, !length_map, repeat_length. lia.
Qed.

(** The text in full denotes the groups it was written from. *)
Lemma expanded_form_full gs :
  length gs = 8%nat -> Forall (fun g => 0 <= g < 65536) gs ->
  well_formed (Full (map hex4 gs)) = true
  /\ render (Full (map hex4 gs)) = expanded_form gs
  /\ groups_of (Full (map hex4 gs)) = gs.
Proof.
  intros Hlen Hgs. destruct (hex4_groups gs Hgs) as [A B].
  unfold well_formed, render, groups_of, expanded_form.
  rewrite length_map, Hlen, A, B. repeat split.
Qed.

Lemma expanded_form_inj gs gs' :
  length gs = 8%nat -> Forall (fun g => 0 <= g < 65536) gs ->
  length gs' = 8%nat -> Forall (fun g => 0 <= g < 65536) gs' ->
  expanded_form gs = expanded_form gs' -> gs = gs'.
Proof.
  intros L1 R1 L2 R2 E.
  destruct (hex4_groups gs R1) as [A1 B1]. destruct (hex4_groups gs' R2) as [A2 B2].
  assert (S1 : split_char ":" (expanded_form gs) = map hex4 gs).
  { apply split_join_groups; [exact A1|]. destruct gs; [discriminate|discriminate]. }
  assert (S2 : split_char ":" (expanded_form gs') = map hex4 gs').
  { apply split_join_groups; [exact A2|]. destruct gs'; [discriminate|discriminate]. }
  rewrite E, S2 in S1. rewrite <- B1, <- B2, S1. reflexivity.
Qed.

(** X3.  [expandIPv6] writes every address in 39 characters, the same for all
    the texts of the address, and leaves a text in full as it is. *)
Theorem expandIPv6_full_form (t : ipv6_text) :
  well_formed t = true ->
  exists expanded,
    expandIPv6 (render t) = Some expanded
    /\ expanded = expanded_form (groups_of t)
    /\ length expanded = 39%nat
    /\ expandIPv6 expanded = Some expanded.
Proof.
  intros Ht. exists (expanded_form (groups_of t)).
  pose proof (groups_length t Ht) as Hlen. pose proof (groups_in_range t Ht) as Hr.
  split; [apply expandIPv6_render, Ht|]. split; [reflexivity|]. split.
  - destruct (groups_of t) as [|g1 [|g2 [|g3 [|g4 [|g5 [|g6 [|g7 [|g8 [|g9 rest]]]]]]]]];
      try discriminate. reflexivity.
  - destruct (expanded_form_full _ Hlen Hr) as (W & R & G).
    rewrite <- R at 1. rewrite (expandIPv6_render _ W), G. reflexivity.
Qed.

Lemma expandIPv6_full_form_witness :
  exists expanded,
    expandIPv6 (lit "FE80::1") = Some expanded
    /\ expanded = expanded_form [65152; 0; 0; 0; 0; 0; 0; 1]
    /\ length expanded = 39%nat
    /\ expandIPv6 expanded = Some expanded.
Proof. apply (expandIPv6_full_form (Compressed [lit "FE80"] [lit "1"])). reflexivity. Defined.

(** X4.  The verdict depends on the address, not on how it is written: case,
    leading zeros and the place of [::] do not matter. *)
Theorem isPrivateIP_same_address (t1 t2 : ipv6_text) :
  well_formed t1 = true -> well_formed t2 = true ->
  groups_of t1 = groups_of t2 ->
  isPrivateIP (render t1) = isPrivateIP (render t2).
Proof.
  intros H1 H2 E. rewrite (isPrivateIP_render t1 H1), (isPrivateIP_render t2 H2), E.
  reflexivity.
Qed.

Lemma isPrivateIP_same_address_witness :
  isPrivateIP (lit "FE80::1") = isPrivateIP (lit "fe80:0:0:0:0000:0:0:0001").
Proof.
  apply (isPrivateIP_same_address
           (Compressed [lit "FE80"] [lit "1"])
           (Full [lit "fe80"; lit "0"; lit "0"; lit "0"; lit "0000"; lit "0"; lit "0";
                  lit "0001"])); reflexivity.
Defined.

(** *** The zone and the number of groups *)

(** X5.  A zone identifier is dropped before the address is looked at. *)
Theorem isPrivateIP_ignores_zone (s zone : str) :
  includes_char s "%" = false -> includes_char s ":" = true ->
  expandIPv6 (s ++ lit "%" ++ zone) = expandIPv6 s
  /\ isPrivateIP (s ++ lit "%" ++ zone) = isPrivateIP s.
Proof.
  intros Hp Hc.
  assert (E : expandIPv6 (s ++ lit "%" ++ zone) = expandIPv6 s).
  { unfold expandIPv6. cbv zeta.
    change (s ++ lit "%" ++ zone) with (s ++ "%"%char :: zone).
    rewrite (split_char_app "%" s zone Hp), (split_char_none "%" s Hp). reflexivity. }
  split; [exact E|]. unfold isPrivateIP. rewrite E, Hc.
  replace (includes_char (s ++ lit "%" ++ zone) ":") with true; [reflexivity|].
  symmetry. unfold includes_char in *. rewrite existsb_app, Hc. reflexivity.
Qed.

Lemma isPrivateIP_ignores_zone_witness :
  expandIPv6 (lit "fe80::1" ++ lit "%" ++ lit "eth0") = expandIPv6 (lit "fe80::1")
  /\ isPrivateIP (lit "fe80::1" ++ lit "%" ++ lit "eth0") = isPrivateIP (lit "fe80::1").
Proof. apply (isPrivateIP_ignores_zone (lit "fe80::1") (lit "eth0")); reflexivity. Defined.

Lemma compressed_split l r :
  forallb hextet l = true -> forallb hextet r = true ->
  nth 0 (split_char "%" (compressed_text l r)) [] = compressed_text l r
  /\ split_twice ":" (compressed_text l r) = [join (lit ":") l; join (lit ":") r].
Proof.
  intros Hl Hr. unfold compressed_text.
  assert (Hpc : includes_char (join (lit ":") l ++ lit "::" ++ join (lit ":") r) "%" = false).
  { unfold includes_char. rewrite !existsb_app.
    pose proof (join_groups_chars l "%" Hl percent_hex_free eq_refl) as A.
    pose proof (join_groups_chars r "%" Hr percent_hex_free eq_refl) as B.
    unfold includes_char in A, B. rewrite A, B. reflexivity. }
  rewrite (split_char_none "%" _ Hpc). split; [reflexivity|].
  destruct (join_groups_shape l Hl) as (Hl2 & Hle & _).
  destruct (join_groups_shape r Hr) as (Hr2 & _ & _).
  change (lit "::" ++ join (lit ":") r) with (":"%char :: ":"%char :: join (lit ":") r).
  rewrite (split_twice_app ":" _ _ Hl2 Hle), (split_twice_none ":" _ Hr2). reflexivity.
Qed.

(** X6.  With more than eight groups around its [::] a text makes
    [expandIPv6] throw (the [RangeError] of an array of negative length),
    and [isPrivateIP] with it; with eight or fewer it returns. *)
Theorem expandIPv6_throws (l r : list str) :
  forallb hextet l = true -> forallb hextet r = true ->
  (expandIPv6 (compressed_text l r) = None <-> (8 < length l + length r)%nat)
  /\ (isPrivateIP (compressed_text l r) = None <-> (8 < length l + length r)%nat).
Proof.
  intros Hl Hr. destruct (compressed_split l r Hl Hr) as [Hz Hs].
  assert (E : expandIPv6 (compressed_text l r) = None <-> (8 < length l + length r)%nat).
  { unfold expandIPv6. cbv zeta. rewrite Hz, Hs. cbn [length Nat.eqb nth].
    rewrite (side_groups l Hl), (side_groups r Hr).
    destruct (8 - Z.of_nat (length l + length r) <? 0) eqn:Em.
    - apply Z.ltb_lt in Em. split; [lia|reflexivity].
    - apply Z.ltb_ge in Em. split; [discriminate|lia]. }
  split; [exact E|]. unfold isPrivateIP.
  assert (Hc : includes_char (compressed_text l r) ":" = true).
  { unfold compressed_text, includes_char. rewrite existsb_app. cbn [existsb app lit
      list_ascii_of_string]. rewrite Ascii.eqb_refl. rewrite orb_true_l, orb_true_r. reflexivity. }
  rewrite Hc. destruct (expandIPv6 (compressed_text l r)) eqn:Ex.
  - split; [discriminate|]. intros H. apply E in H. discriminate.
  - split; [intros _; apply E; reflexivity|reflexivity].
Qed.

Lemma expandIPv6_throws_witness :
  (expandIPv6 (lit "1:2:3:4:5::6:7:8:9") = None <-> (8 < 5 + 4)%nat)
  /\ (isPrivateIP (lit "1:2:3:4:5::6:7:8:9") = None <-> (8 < 5 + 4)%nat).
Proof.
  apply (expandIPv6_throws [lit "1"; lit "2"; lit "3"; lit "4"; lit "5"]
                           [lit "6"; lit "7"; lit "8"; lit "9"]); reflexivity.
Defined.

(** *** IPv4-mapped addresses in hexadecimal groups *)

Lemma word_bytes v :
  0 <= v < 65536 ->
  band (sar (Some v) 8) 255 = v / 256 /\ band (ToInt32 (Some v)) 255 = v mod 256
  /\ octet (v / 256) /\ octet (v mod 256).
Proof.
  intros Hv.
  assert (Hd : 0 <= v / 256 < 256)
    by (split; [apply Z.div_pos; lia|apply Z.div_lt_upper_bound; lia]).
  pose proof (Z.mod_pos_bound v 256 ltac:(lia)) as Hm.
  split; [|split; [|unfold octet; lia]].
  - unfold band, sar, ToInt32, wrap32.
    replace ((v + 2 ^ 31) mod 2 ^ 32 - 2 ^ 31) with v by (rewrite Z.mod_small; lia).
    rewrite Z.shiftr_div_pow2 by lia. change 255 with (Z.ones 8).
    rewrite Z.land_ones by lia. change (2 ^ 8) with 256. apply Z.mod_small. lia.
  - unfold band, ToInt32, wrap32.
    replace ((v + 2 ^ 31) mod 2 ^ 32 - 2 ^ 31) with v by (rewrite Z.mod_small; lia).
    change 255 with (Z.ones 8). rewrite Z.land_ones by lia. reflexivity.
Qed.

Lemma mapped_text hi lo :
  expanded_form [0; 0; 0; 0; 0; 65535; hi; lo]
  = lit "0000:0000:0000:0000:0000:ffff:" ++ hex4 hi ++ ":"%char :: hex4 lo.
Proof. reflexivity. Qed.

(** On [::ffff:hi:lo] the answer is the one for the IPv4 address in the
    last two groups. *)
Lemma isIPv6Private_mapped hi lo :
  0 <= hi < 65536 -> 0 <= lo < 65536 ->
  isIPv6Private (expanded_form [0; 0; 0; 0; 0; 65535; hi; lo])
  = isIPv4Private (dotted (hi / 256) (hi mod 256) (lo / 256) (lo mod 256)).
Proof.
  intros Hhi Hlo. rewrite mapped_text. unfold isIPv6Private.
  set (tail := hex4 hi ++ ":"%char :: hex4 lo).
  change (eqb (lit "0000:0000:0000:0000:0000:ffff:" ++ tail)
              (lit "0000:0000:0000:0000:0000:0000:0000:0001")) with false.
  change (eqb (lit "0000:0000:0000:0000:0000:ffff:" ++ tail)
              (lit "0000:0000:0000:0000:0000:0000:0000:0000")) with false.
  cbv iota zeta.
  change (substring_to 2 (lit "0000:0000:0000:0000:0000:ffff:" ++ tail)) with (lit "00").
  change (substring_to 4 (lit "0000:0000:0000:0000:0000:ffff:" ++ tail)) with (lit "0000").
  change (eqb (lit "00") (lit "fc") || eqb (lit "00") (lit "fd")) with false.
  change (parseInt (lit "0000") 16) with (Some 0).
  change ((65152 <=? 0) && (0 <=? 65215)) with false. cbv iota.
  change (startsWith (lit "0000:0000:0000:0000:0000:ffff:" ++ tail)
                     (lit "0000:0000:0000:0000:0000:ffff:")) with true.
  change (substring_from 30 (lit "0000:0000:0000:0000:0000:ffff:" ++ tail)) with tail.
  cbv iota. subst tail.
  destruct (hextet_hex4 hi Hhi) as [Th _]. destruct (hextet_hex4 lo Hlo) as [Tl _].
  rewrite (split_char_app ":" (hex4 hi) (hex4 lo))
    by (apply hextet_chars; [exact Th|exact colon_hex_free]).
  rewrite (split_char_none ":" (hex4 lo))
    by (apply hextet_chars; [exact Tl|exact colon_hex_free]).
  cbn [length Nat.eqb]. unfold parseInt_at. cbn [nth].
  rewrite (parseInt_hex4 hi Hhi), (parseInt_hex4 lo Hlo).
  destruct (word_bytes hi Hhi) as (-> & -> & _). destruct (word_bytes lo Hlo) as (-> & -> & _).
  reflexivity.
Qed.

Lemma mapped_value hi lo :
  0 <= hi < 65536 -> 0 <= lo < 65536 ->
  ipv4_value (hi / 256) (hi mod 256) (lo / 256) (lo mod 256) = hi * 65536 + lo.
Proof.
  intros Hhi Hlo. unfold ipv4_value.
  pose proof (Z.div_mod hi 256 ltac:(lia)). pose proof (Z.div_mod lo 256 ltac:(lia)). lia.
Qed.

(** An IPv4-mapped address written in hexadecimal groups is unwrapped:
    the verdict is the one of the IPv4 ranges on its last 32 bits. *)
Lemma mapped_hex_is_unwrapped (t : ipv6_text) (hi lo : Z) :
  well_formed t = true ->
  groups_of t = [0; 0; 0; 0; 0; 65535; hi; lo] ->
  isPrivateIP (render t) = Some true <-> blocked_ipv4 (hi * 65536 + lo).
Proof.
  intros Ht E. pose proof (groups_in_range t Ht) as Hr. rewrite E in Hr.
  assert (Hhi : 0 <= hi < 65536).
  { rewrite List.Forall_forall in Hr. apply Hr. simpl. tauto. }
  assert (Hlo : 0 <= lo < 65536).
  { rewrite List.Forall_forall in Hr. apply Hr. simpl. tauto. }
  rewrite (isPrivateIP_render t Ht), E, (isIPv6Private_mapped hi lo Hhi Hlo).
  destruct (word_bytes hi Hhi) as (_ & _ & O1 & O2).
  destruct (word_bytes lo Hlo) as (_ & _ & O3 & O4).
  rewrite <- (mapped_value hi lo Hhi Hlo), <- (isIPv4Private_dotted _ _ _ _ O1 O2 O3 O4).
  split; [intros [= H]; exact H | intros ->; reflexivity].
Qed.

(** *** Every private verdict has its reason *)

Lemma startsWith_app s p : startsWith s p = true -> exists tail, s = p ++ tail.
Proof.
  revert s. induction p as [|a p IH]; intros s; [eexists; reflexivity|].
  destruct s as [|b s]; [discriminate|]. simpl.
  intros [Hab Hs]%andb_true_iff. apply Ascii.eqb_eq in Hab. subst b.
  destruct (IH s Hs) as [tail ->]. eexists. reflexivity.
Qed.

Lemma hex4_inj v w : 0 <= v < 65536 -> 0 <= w < 65536 -> hex4 v = hex4 w -> v = w.
Proof.
  intros Hv Hw E. destruct (hextet_hex4 v Hv) as [_ <-].
  destruct (hextet_hex4 w Hw) as [_ <-]. rewrite E. reflexivity.
Qed.

Lemma hex_char_inj d e : 0 <= d < 16 -> 0 <= e < 16 -> hex_char d = hex_char e -> d = e.
Proof.
  intros Hd He E. destruct (hex_char_digit d Hd) as (_ & <- & _).
  destruct (hex_char_digit e He) as (_ & <- & _). rewrite E. reflexivity.
Qed.

Lemma high_byte v :
  0 <= v < 65536 -> v / 256 = v / 4096 mod 16 * 16 + v / 256 mod 16.
Proof.
  intros Hv. replace (v / 4096) with (v / 256 / 16) by (rewrite Z.div_div by lia; reflexivity).
  assert (0 <= v / 256 < 256)
    by (split; [apply Z.div_pos; lia|apply Z.div_lt_upper_bound; lia]).
  assert (0 <= v / 256 / 16 < 16)
    by (split; [apply Z.div_pos; lia|apply Z.div_lt_upper_bound; lia]).
  rewrite (Z.mod_small (v / 256 / 16)) by lia.
  pose proof (Z.div_mod (v / 256) 16 ltac:(lia)). lia.
Qed.

Lemma split_mapped_prefix tail :
  split_char ":" (lit "0000:0000:0000:0000:0000:ffff:" ++ tail)
  = lit "0000" :: lit "0000" :: lit "0000" :: lit "0000" :: lit "0000" :: lit "ffff"
    :: split_char ":" tail.
Proof. reflexivity. Qed.

(** What a private verdict on eight groups comes from. *)
Lemma isIPv6Private_reason gs :
  length gs = 8%nat -> Forall (fun g => 0 <= g < 65536) gs ->
  isIPv6Private (expanded_form gs) = true ->
  blocked_ipv6 gs \/ blocked_mapped gs.
Proof.
  intros Hlen Hr H. pose proof H as H0. unfold isIPv6Private in H.
  destruct (eqb (expanded_form gs) (lit "0000:0000:0000:0000:0000:0000:0000:0001")) eqn:E1.
  { left. left. apply eqb_eq in E1. apply expanded_form_inj; auto.
    repeat constructor; lia. }
  destruct (eqb (expanded_form gs) (lit "0000:0000:0000:0000:0000:0000:0000:0000")) eqn:E2.
  { left. right. left. apply eqb_eq in E2. apply expanded_form_inj; auto.
    repeat constructor; lia. }
  destruct gs as [|g1 rest]; [discriminate|].
  assert (Hg1 : 0 <= g1 < 65536) by (inversion Hr; assumption).
  destruct (expanded_first g1 rest) as [tail E].
  cbv zeta in H. rewrite E in H.
  change (substring_to 4 (hex4 g1 ++ tail)) with (hex4 g1) in H.
  change (substring_to 2 (hex4 g1 ++ tail))
    with [hex_char (g1 / 4096 mod 16); hex_char (g1 / 256 mod 16)] in H.
  rewrite (parseInt_hex4 g1 Hg1) in H.
  destruct (nibbles g1 Hg1) as (N1 & N2 & _).
  destruct (eqb _ (lit "fc") || eqb _ (lit "fd")) eqn:E3.
  { left. right. right. left. exists g1, rest. split; [reflexivity|].
    rewrite (high_byte g1 Hg1).
    apply orb_true_iff in E3 as [E3 | E3]; apply eqb_eq in E3; injection E3 as A B.
    - assert (g1 / 4096 mod 16 = 15) by (apply hex_char_inj; [exact N1|lia|exact A]).
      assert (g1 / 256 mod 16 = 12) by (apply hex_char_inj; [exact N2|lia|exact B]). lia.
    - assert (g1 / 4096 mod 16 = 15) by (apply hex_char_inj; [exact N1|lia|exact A]).
      assert (g1 / 256 mod 16 = 13) by (apply hex_char_inj; [exact N2|lia|exact B]). lia. }
  destruct ((65152 <=? g1) && (g1 <=? 65215)) eqn:E4.
  { left. right. right. right. exists g1, rest. split; [reflexivity|].
    apply andb_true_iff in E4 as [A B]. apply Z.leb_le in A, B. lia. }
  rewrite <- E in H.
  destruct (startsWith (expanded_form (g1 :: rest)) (lit "0000:0000:0000:0000:0000:ffff:"))
    eqn:E5; [|discriminate].
  right. clear H.
  destruct rest as [|g2 [|g3 [|g4 [|g5 [|g6 [|g7 [|g8 [|g9 rest]]]]]]]]; try discriminate.
  apply startsWith_app in E5 as [tail' E5].
  assert (S1 : split_char ":" (expanded_form [g1; g2; g3; g4; g5; g6; g7; g8])
               = map hex4 [g1; g2; g3; g4; g5; g6; g7; g8]).
  { apply split_join_groups; [apply hex4_groups; exact Hr|discriminate]. }
  rewrite E5, split_mapped_prefix in S1.
  pose proof (f_equal (fun l => nth 0 l []) S1) as A1.
  pose proof (f_equal (fun l => nth 1 l []) S1) as A2.
  pose proof (f_equal (fun l => nth 2 l []) S1) as A3.
  pose proof (f_equal (fun l => nth 3 l []) S1) as A4.
  pose proof (f_equal (fun l => nth 4 l []) S1) as A5.
  pose proof (f_equal (fun l => nth 5 l []) S1) as A6.
  cbn [nth map] in A1, A2, A3, A4, A5, A6. clear S1.
  repeat match goal with
         | Hf : Forall _ (_ :: _) |- _ => inversion Hf; subst; clear Hf
         end.
  assert (g1 = 0) by (apply hex4_inj; [assumption|lia|rewrite <- A1; reflexivity]).
  assert (g2 = 0) by (apply hex4_inj; [assumption|lia|rewrite <- A2; reflexivity]).
  assert (g3 = 0) by (apply hex4_inj; [assumption|lia|rewrite <- A3; reflexivity]).
  assert (g4 = 0) by (apply hex4_inj; [assumption|lia|rewrite <- A4; reflexivity]).
  assert (g5 = 0) by (apply hex4_inj; [assumption|lia|rewrite <- A5; reflexivity]).
  assert (g6 = 65535) by (apply hex4_inj; [assumption|lia|rewrite <- A6; reflexivity]).
  subst. exists g7, g8. split; [reflexivity|].
  rewrite isIPv6Private_mapped in H0 by assumption.
  destruct (word_bytes g7 ltac:(assumption)) as (_ & _ & O1 & O2).
  destruct (word_bytes g8 ltac:(assumption)) as (_ & _ & O3 & O4).
  rewrite <- (mapped_value g7 g8) by assumption.
  apply (isIPv4Private_dotted _ _ _ _ O1 O2 O3 O4). exact H0.
Qed.

(** X7.  For every IPv6 address in hexadecimal groups the verdict is private
    in these cases and no other: [::1], [::], a first byte fc or fd, a
    first group from fe80 to febf, or [::ffff:hi:lo] with the IPv4 address
    in its last two groups in a blocked IPv4 range. *)
Theorem isPrivateIP_ipv6_exactly (t : ipv6_text) :
  well_formed t = true ->
  isPrivateIP (render t) = Some true
  <-> blocked_ipv6 (groups_of t) \/ blocked_mapped (groups_of t).
Proof.
  intros Ht. pose proof (groups_in_range t Ht) as Hr. pose proof (groups_length t Ht) as Hlen.
  rewrite (isPrivateIP_render t Ht). split.
  - intros [= H]. apply isIPv6Private_reason; assumption.
  - intros [[E | [E | [(g & rest & E & Hg) | (g & rest & E & Hg)]]] | (hi & lo & E & Hb)];
      rewrite E in *.
    + reflexivity.
    + reflexivity.
    + f_equal. apply isIPv6Private_first_group; [|left; exact Hg].
      inversion Hr; assumption.
    + f_equal. apply isIPv6Private_first_group; [|right; exact Hg].
      inversion Hr; assumption.
    + assert (Hhi : 0 <= hi < 65536).
      { rewrite List.Forall_forall in Hr. apply Hr. simpl. tauto. }
      assert (Hlo : 0 <= lo < 65536).
      { rewrite List.Forall_forall in Hr. apply Hr. simpl. tauto. }
      rewrite (isIPv6Private_mapped hi lo Hhi Hlo). f_equal.
      destruct (word_bytes hi Hhi) as (_ & _ & O1 & O2).
      destruct (word_bytes lo Hlo) as (_ & _ & O3 & O4).
      apply (isIPv4Private_dotted _ _ _ _ O1 O2 O3 O4).
      rewrite (mapped_value hi lo Hhi Hlo). exact Hb.
Qed.

Lemma isPrivateIP_ipv6_exactly_witness :
  isPrivateIP (lit "fec0::1") = Some true
  <-> blocked_ipv6 [65216; 0; 0; 0; 0; 0; 0; 1] \/ blocked_mapped [65216; 0; 0; 0; 0; 0; 0; 1].
Proof. apply (isPrivateIP_ipv6_exactly (Compressed [lit "fec0"] [lit "1"])). reflexivity. Defined.

(** *** The address [validateHostname] reports *)

Lemma check_addresses_first ips ip :
  check_addresses ips = SecurityError (PrivateAddress ip)
  <-> exists before after,
        ips = before ++ ip :: after
        /\ Forall (fun a => isPrivateIP a = Some false) before
        /\ isPrivateIP ip = Some true.
Proof.
  induction ips as [|a rest IH]; simpl.
  - split; [discriminate|]. intros (before & after & E & _). destruct before; discriminate.
  - destruct (isPrivateIP a) as [[|]|] eqn:Ea.
    + split.
      * intros [= <-]. exists [], rest. repeat split; [constructor|exact Ea].
      * intros (before & after & E & Hb & Hip). destruct before as [|b before].
        -- injection E as -> _. reflexivity.
        -- injection E as -> _. inversion Hb; congruence.
    + rewrite IH. split.
      * intros (before & after & -> & Hb & Hip). exists (a :: before), after.
        repeat split; [constructor; assumption|exact Hip].
      * intros (before & after & E & Hb & Hip). destruct before as [|b before].
        -- injection E as -> _. congruence.
        -- injection E as -> ->. exists before, after. inversion Hb; auto.
    + split; [discriminate|].
      intros (before & after & E & Hb & Hip). destruct before as [|b before].
      * injection E as -> _. congruence.
      * injection E as -> _. inversion Hb; congruence.
Qed.

(** X8.  The address named in the error of [validateHostname] is the first
    private one, the A records coming before the AAAA records: all the
    addresses before it are public. *)
Theorem validateHostname_reports_first (resolve4 resolve6 : str -> dns_answer)
    (hostname ip : str) :
  validateHostname resolve4 resolve6 hostname = SecurityError (PrivateAddress ip)
  <-> exists before after,
        caught (resolve4 hostname) ++ caught (resolve6 hostname) = before ++ ip :: after
        /\ Forall (fun a => isPrivateIP a = Some false) before
        /\ isPrivateIP ip = Some true.
Proof.
  unfold validateHostname. cbv zeta.
  destruct (caught (resolve4 hostname) ++ caught (resolve6 hostname)) as [|a rest] eqn:E.
  - simpl. split; [discriminate|]. intros (before & after & E' & _).
    destruct before; discriminate.
  - cbn [length Nat.eqb]. apply check_addresses_first.
Qed.

End NetworkMore.

(** ** More on the token estimate *)

Module TokenCounterMore.
Import TokenCounter TokenCounterSpec.

(** The ceiling of a length over a divisor [a/b], in integers. *)
Lemma ceiling_div (n : Z) (a b : positive) :
  Qceiling (inject_Z n / (Zpos a # b)) = - (- (n * Zpos b) / Zpos a).
Proof. reflexivity. Qed.

Lemma estimate_english n : 0 <= n -> Qceiling (inject_Z n / CHARS_PER_TOKEN_ENGLISH) = (n + 3) / 4.
Proof.
  intros Hn. unfold CHARS_PER_TOKEN_ENGLISH. rewrite ceiling_div.
  Z.div_mod_to_equations. lia.
Qed.

Lemma estimate_cjk n : 0 <= n -> Qceiling (inject_Z n / CHARS_PER_TOKEN_CJK) = (2 * n + 2) / 3.
Proof.
  intros Hn. unfold CHARS_PER_TOKEN_CJK. rewrite ceiling_div.
  Z.div_mod_to_equations. lia.
Qed.

Lemma estimate_mixed n : 0 <= n -> Qceiling (inject_Z n / CHARS_PER_TOKEN_MIXED) = (n + 2) / 3.
Proof.
  intros Hn. unfold CHARS_PER_TOKEN_MIXED. rewrite ceiling_div.
  Z.div_mod_to_equations. lia.
Qed.

(** X9.  The estimate of a text that is not empty is at least 1, at least a
    quarter of its length, and at most its length. *)
Theorem estimateTokens_bounds (t : text) :
  t <> [] ->
  1 <= estimateTokens t <= js_length t /\ js_length t <= 4 * estimateTokens t.
Proof.
  intros Hne. pose proof (js_length_nonneg t) as Hn.
  assert (Hpos : 0 < js_length t).
  { destruct (Z.eq_dec (js_length t) 0) as [E|E]; [apply js_length_zero in E; congruence|lia]. }
  unfold estimateTokens. replace (js_length t =? 0) with false by (symmetry; apply Z.eqb_neq; lia).
  cbv zeta.
  destruct (one_char_divisor t) as [-> | [-> | ->]];
    rewrite ?estimate_english, ?estimate_cjk, ?estimate_mixed by lia;
    Z.div_mod_to_equations; lia.
Qed.

Lemma estimateTokens_bounds_witness :
  1 <= estimateTokens [26085; 26412; 35486] <= js_length [26085; 26412; 35486]
  /\ js_length [26085; 26412; 35486] <= 4 * estimateTokens [26085; 26412; 35486].
Proof. apply (estimateTokens_bounds [26085; 26412; 35486]). discriminate. Defined.

Lemma no_cjk_count (t : text) :
  Forall (fun c => is_cjk c = false) t -> countCjkCharacters t = 0.
Proof.
  unfold countCjkCharacters, js_length. induction 1 as [|c rest Hc _ IH]; [reflexivity|].
  simpl. rewrite Hc. exact IH.
Qed.

Lemma estimate_without_cjk (t : text) :
  Forall (fun c => is_cjk c = false) t ->
  estimateTokens t = (js_length t + 3) / 4.
Proof.
  intros H. pose proof (js_length_nonneg t) as Hn.
  unfold estimateTokens, detectCharsPerToken. cbv zeta.
  rewrite (no_cjk_count t H). change (0 =? 0) with true. cbv iota.
  destruct (js_length t =? 0) eqn:E.
  - apply Z.eqb_eq in E. rewrite E. reflexivity.
  - apply Z.eqb_neq in E. rewrite estimate_english by lia.
    Z.div_mod_to_equations. lia.
Qed.

Lemma all_cjk_counts (t : text) :
  Forall (fun c => is_cjk c = true /\ is_whitespace c = false) t ->
  countCjkCharacters t = js_length t /\ nonWhitespaceLength t = js_length t.
Proof.
  unfold countCjkCharacters, nonWhitespaceLength, js_length.
  induction 1 as [|c rest [Hc Hw] _ [IH1 IH2]]; [split; reflexivity|].
  simpl. rewrite Hc, Hw. simpl. split; lia.
Qed.

Lemma estimate_all_cjk (t : text) :
  Forall (fun c => is_cjk c = true /\ is_whitespace c = false) t ->
  estimateTokens t = (2 * js_length t + 2) / 3.
Proof.
  intros H. pose proof (js_length_nonneg t) as Hn.
  destruct (all_cjk_counts t H) as [Ec Ew].
  unfold estimateTokens, detectCharsPerToken. cbv zeta. rewrite Ec, Ew.
  destruct (js_length t =? 0) eqn:E.
  - apply Z.eqb_eq in E. rewrite E. reflexivity.
  - apply Z.eqb_neq in E.
    replace (Qle_bool CJK_THRESHOLD (inject_Z (js_length t) / inject_Z (js_length t))) with true.
    + rewrite estimate_cjk by lia. Z.div_mod_to_equations. lia.
    + symmetry. apply Qle_bool_iff. apply Qle_shift_div_l.
      * unfold Qlt. simpl. lia.
      * unfold CJK_THRESHOLD, Qle. simpl. lia.
Qed.

(** X10.  A text without any CJK code unit is estimated at a quarter of its
    length, rounded up; a text of CJK code units alone (the ideographic
    space apart) at two thirds of its length, rounded up. *)
Theorem estimateTokens_by_script (t : text) :
  (Forall (fun c => is_cjk c = false) t -> estimateTokens t = (js_length t + 3) / 4)
  /\ (Forall (fun c => is_cjk c = true /\ is_whitespace c = false) t ->
      estimateTokens t = (2 * js_length t + 2) / 3).
Proof. split; [apply estimate_without_cjk|apply estimate_all_cjk]. Qed.

Lemma estimateTokens_by_script_witness :
  estimateTokens (repeat 233 10) = (10 + 3) / 4
  /\ estimateTokens [26085; 26412; 35486; 12391] = (2 * 4 + 2) / 3.
Proof.
  split.
  - apply (estimateTokens_by_script (repeat 233 10)). repeat constructor.
  - apply (estimateTokens_by_script [26085; 26412; 35486; 12391]). repeat constructor.
Defined.

End TokenCounterMore.

(** ** Patterns *)

Module PatternFacts.
Import JS JSFacts Url UrlFacts Glob.

Lemma meta_no_star c : regex_meta c = true -> is_char "*" c = false.
Proof.
  intros H. assert (K : meta_is_no_star c = true).
  { apply (checked_chars meta_is_no_star). vm_compute. reflexivity. }
  unfold meta_is_no_star in K. rewrite H in K. simpl in K.
  apply negb_true_iff in K. exact K.
Qed.

Lemma plain_no_escape c :
  regex_meta c = false -> is_char "\" c = false /\ is_char "." c = false.
Proof.
  intros H. assert (K : plain_is_no_escape c = true).
  { apply (checked_chars plain_is_no_escape). vm_compute. reflexivity. }
  unfold plain_is_no_escape in K. rewrite H in K. simpl in K.
  apply andb_true_iff in K as [A B]. apply negb_true_iff in A, B. auto.
Qed.

Lemma escape_meta_cons c p :
  escape_meta (c :: p) = (if regex_meta c then ["\"%char; c] else [c]) ++ escape_meta p.
Proof. reflexivity. Qed.

Lemma star_to_dot_star_app a b :
  star_to_dot_star (a ++ b) = star_to_dot_star a ++ star_to_dot_star b.
Proof. unfold star_to_dot_star. apply flat_map_app. Qed.

Lemma star_to_dot_star_one c :
  star_to_dot_star [c] = if is_char "*" c then lit ".*" else [c].
Proof. unfold star_to_dot_star. cbn [flat_map]. apply app_nil_r. Qed.

(** The regular expression built from a pattern always compiles: one
    atom for each character of the pattern. *)
Lemma compile_pattern p :
  compile (star_to_dot_star (escape_meta p)) = Some (map atom_of p).
Proof.
  induction p as [|c p IH]; [reflexivity|].
  rewrite escape_meta_cons, star_to_dot_star_app. cbn [map].
  unfold atom_of at 1. destruct (regex_meta c) eqn:Em.
  - pose proof (meta_no_star c Em) as Hs. rewrite Hs.
    change ["\"%char; c] with (["\"%char] ++ [c]).
    rewrite star_to_dot_star_app, !star_to_dot_star_one, Hs.
    change (is_char "*" "\"%char) with false. cbv iota. cbn [app compile].
    change (is_char "\" "\"%char) with true. cbv iota.
    rewrite IH. reflexivity.
  - destruct (plain_no_escape c Em) as [Hb Hd]. rewrite star_to_dot_star_one.
    destruct (is_char "*" c) eqn:Es.
    + cbn [app lit list_ascii_of_string compile].
      change (is_char "\" "."%char) with false. change (is_char "." "."%char) with true.
      change (is_char "*" "*"%char) with true. cbv iota. rewrite IH. reflexivity.
    + cbn [app compile]. rewrite Hb, Hd, Es. rewrite IH. reflexivity.
Qed.

Lemma matches_star rest s :
  matches (AnyStar :: rest) s
  = matches rest s
    || match s with
       | x :: t => negb (line_terminator x) && matches (AnyStar :: rest) t
       | [] => false
       end.
Proof. destruct s; reflexivity. Qed.

Lemma matches_glob p : forall u, matches (map atom_of p) u = true <-> glob p u.
Proof.
  induction p as [|c p IH]; intros u.
  - destruct u as [|x u]; simpl.
    + split; [intros _; constructor|reflexivity].
    + split; [discriminate|inversion 1].
  - cbn [map]. unfold atom_of at 1. destruct (is_char "*" c) eqn:Es.
    + assert (c = "*"%char) by (apply Ascii.eqb_eq in Es; exact Es). subst c.
      induction u as [|x u IHu].
      * rewrite matches_star, orb_false_r, IH. split.
        -- intros H. apply glob_star_none, H.
        -- inversion 1; subst; try discriminate; assumption.
      * rewrite matches_star, orb_true_iff, andb_true_iff, negb_true_iff, IH, IHu. split.
        -- intros [H | [Hx H]]; [apply glob_star_none, H|apply glob_star_more; assumption].
        -- inversion 1; subst; try discriminate; [left; assumption|right; split; assumption].
    + destruct u as [|x u]; cbn [matches].
      * split; [discriminate|inversion 1; subst; discriminate || congruence].
      * rewrite andb_true_iff, Ascii.eqb_eq, IH. split.
        -- intros [Hc H]. apply glob_char; assumption.
        -- inversion 1; subst; try discriminate. split; assumption.
Qed.

Lemma glob_literal p : star_free p -> forall u, glob p u <-> same_but_case u p.
Proof.
  unfold star_free, same_but_case. induction p as [|c p IH]; intros Hp u.
  - split.
    + inversion 1. reflexivity.
    + destruct u; [constructor|discriminate].
  - cbn [forallb] in Hp. apply andb_true_iff in Hp as [Hc Hp]. apply negb_true_iff in Hc.
    split.
    + inversion 1; subst; try discriminate. cbn [map]. f_equal; [assumption|].
      apply IH; assumption.
    + destruct u as [|x u]; [discriminate|]. cbn [map]. intros [= Hx Hu].
      apply glob_char; [exact Hc|exact Hx|]. apply IH; assumption.
Qed.

Lemma glob_star p u :
  glob ("*"%char :: p) u <-> exists a b, u = a ++ b /\ one_line a /\ glob p b.
Proof.
  unfold one_line. split.
  - remember ("*"%char :: p) as q eqn:Eq. induction 1 as [|q' u H _|q' x u Hx H IH|]; 
      try discriminate.
    + injection Eq as ->. exists [], u. repeat split; assumption.
    + destruct (IH Eq) as (a & b & -> & Ha & Hb). exists (x :: a), b.
      repeat split; [|exact Hb]. cbn [forallb]. rewrite Hx, Ha. reflexivity.
    + injection Eq as -> ->. discriminate.
  - intros (a & b & -> & Ha & Hb). induction a as [|x a IH]; cbn [app].
    + apply glob_star_none, Hb.
    + cbn [forallb] in Ha. apply andb_true_iff in Ha as [Hx Ha].
      apply negb_true_iff in Hx. apply glob_star_more; auto.
Qed.

Lemma glob_app_literal p q :
  star_free p ->
  forall u, glob (p ++ q) u <-> exists a b, u = a ++ b /\ same_but_case a p /\ glob q b.
Proof.
  unfold star_free, same_but_case. induction p as [|c p IH]; intros Hp u; cbn [app].
  - split.
    + intros H. exists [], u. repeat split. exact H.
    + intros (a & b & -> & Ha & Hb). destruct a; [exact Hb|discriminate].
  - cbn [forallb] in Hp. apply andb_true_iff in Hp as [Hc Hp]. apply negb_true_iff in Hc.
    split.
    + inversion 1; subst; try discriminate.
      match goal with H : glob (p ++ q) _ |- _ => apply (IH Hp) in H;
        destruct H as (a & b & -> & Ha & Hb) end.
      exists (x :: a), b. repeat split; [|exact Hb]. cbn [map]. f_equal; assumption.
    + intros (a & b & -> & Ha & Hb). destruct a as [|x a]; [discriminate|].
      cbn [map] in Ha. injection Ha as Hx Ha. cbn [app].
      apply glob_char; [exact Hc|exact Hx|]. apply (IH Hp). eauto.
Qed.

End PatternFacts.

(** ** [matchesPattern] *)

Module PatternSpec.
Import JS JSFacts Url UrlFacts Glob PatternFacts.

Lemma matchesPattern_is_glob (url pattern : str) :
  matchesPattern url pattern = true <-> glob pattern url.
Proof.
  unfold matchesPattern. cbv zeta. rewrite compile_pattern. apply matches_glob.
Qed.

(** X11.  [matchesPattern] implements the glob: the escaping leaves every
    pattern a regular expression that compiles, in which only [*] is
    special; the match covers the whole URL, ignores the case of letters,
    and a [*] never runs over a line terminator. *)
Theorem matchesPattern_glob (url pattern : str) :
  matchesPattern url pattern = true <-> glob pattern url.
Proof. apply matchesPattern_is_glob. Qed.

(** X12.  A pattern without [*] matches the URLs equal to it but for the case
    of their letters, and no other: [.], [?], [+] and the other
    metacharacters stand for themselves. *)
Theorem matchesPattern_literal (url pattern : str) :
  star_free pattern ->
  matchesPattern url pattern = true <-> same_but_case url pattern.
Proof. intros Hp. rewrite matchesPattern_is_glob. apply glob_literal, Hp. Qed.

Lemma matchesPattern_literal_witness :
  matchesPattern (lit "https://example.com/a.b?q=1") (lit "https://EXAMPLE.com/a.b?q=1") = true
  <-> same_but_case (lit "https://example.com/a.b?q=1") (lit "https://EXAMPLE.com/a.b?q=1").
Proof. apply matchesPattern_literal. reflexivity. Defined.

(** X13.  A pattern [prefix*] matches the URLs that begin with the prefix (but
    for case) and go on within the line; a pattern [*suffix] those that
    end with the suffix, with nothing but one line before it. *)
Theorem matchesPattern_affix (url affix : str) :
  star_free affix ->
  (matchesPattern url (affix ++ lit "*") = true
   <-> exists a b, url = a ++ b /\ same_but_case a affix /\ one_line b)
  /\ (matchesPattern url (lit "*" ++ affix) = true
      <-> exists a b, url = a ++ b /\ one_line a /\ same_but_case b affix).
Proof.
  intros Hp. rewrite !matchesPattern_is_glob. split.
  - rewrite (glob_app_literal affix (lit "*") Hp). split.
    + intros (a & b & -> & Ha & Hb). exists a, b. repeat split; [exact Ha|].
      apply glob_star in Hb as (a' & b' & -> & Ha' & Hb'). inversion Hb'; subst.
      rewrite app_nil_r. exact Ha'.
    + intros (a & b & -> & Ha & Hb). exists a, b. repeat split; [exact Ha|].
      apply glob_star. exists b, []. rewrite app_nil_r. repeat split; [exact Hb|constructor].
  - change (lit "*" ++ affix) with ("*"%char :: affix). rewrite glob_star. split.
    + intros (a & b & -> & Ha & Hb). exists a, b. repeat split; [exact Ha|].
      apply (glob_literal affix Hp), Hb.
    + intros (a & b & -> & Ha & Hb). exists a, b. repeat split; [exact Ha|].
      apply (glob_literal affix Hp), Hb.
Qed.

Lemma matchesPattern_affix_witness :
  (matchesPattern (lit "https://example.com/blog/post-1") (lit "https://example.com/blog/" ++ lit "*") = true
   <-> exists a b, lit "https://example.com/blog/post-1" = a ++ b
                   /\ same_but_case a (lit "https://example.com/blog/") /\ one_line b)
  /\ (matchesPattern (lit "https://example.com/blog/post-1") (lit "*" ++ lit "https://example.com/blog/") = true
      <-> exists a b, lit "https://example.com/blog/post-1" = a ++ b
                      /\ one_line a /\ same_but_case b (lit "https://example.com/blog/")).
Proof. apply matchesPattern_affix. reflexivity. Defined.

End PatternSpec.

(** ** Domains *)

Module DomainSpec.
Import JS JSMore JSFacts Url UrlFacts ParseFacts RecordFacts NormalizeFacts UrlTools.



Lemma canonical_host u : well_formed u -> host (canonical u) = host u.
Proof. intros Hwf. rewrite (canonical_unfold u Hwf). reflexivity. Qed.



Lemma eqb_length a b : eqb a b = true -> length a = length b.
Proof. intros H. apply eqb_eq in H. congruence. Qed.

Lemma endsWith_spec s suffix :
  endsWith s suffix = true <-> exists front, s = front ++ suffix.
Proof.
  unfold endsWith. rewrite andb_true_iff, Nat.leb_le, eqb_eq. split.
  - intros [Hlen E]. exists (firstn (length s - length suffix) s).
    rewrite <- (firstn_skipn (length s - length suffix) s) at 1. rewrite E. reflexivity.
  - intros [front ->]. rewrite length_app. split; [lia|].
    replace (length front + length suffix - length suffix)%nat with (length front) by lia.
    rewrite skipn_app, skipn_all, Nat.sub_diag. reflexivity.
Qed.

Lemma extractDomain_lower url d : extractDomain url = Some d -> toLowerCase d = d.
Proof.
  unfold extractDomain. destruct (parse url) as [parsed|] eqn:E; [|discriminate].
  intros [= <-]. destruct (parse_well_formed url parsed E) as (_ & Hh & _).
  unfold hostname. destruct (parse_host_inv _ _ Hh) as (_ & _ & Hl & _).
  rewrite Hl. apply toLowerCase_idem.
Qed.



End DomainSpec.

(** ** More on the link filter *)

Module LinkFilterSpec.
Import JS JSFacts Url LinkResolver LinkResolverSpec LinkFilter Examples.

Lemma is_kind_spec k o : is_kind k o = true <-> o = Some k.
Proof. destruct o as [[| |]|], k; simpl; split; congruence. Qed.

Lemma keep_link_passes options link :
  keep_link options link = Some true <-> passes options link.
Proof.
  unfold keep_link, passes.
  destruct (is_kind internal (filter options) && negb (isInternal link)) eqn:K1.
  { apply andb_true_iff in K1 as [A B]. apply is_kind_spec in A. apply negb_true_iff in B.
    split; [discriminate|]. intros (H & _). rewrite (H A) in B. discriminate. }
  destruct (is_kind external (filter options) && isInternal link) eqn:K2.
  { apply andb_true_iff in K2 as [A B]. apply is_kind_spec in A.
    split; [discriminate|]. intros (_ & H & _). rewrite (H A) in B. discriminate. }
  assert (HK1 : filter options = Some internal -> isInternal link = true).
  { intros E. rewrite E in K1. simpl in K1. apply negb_false_iff in K1. exact K1. }
  assert (HK2 : filter options = Some external -> isInternal link = false).
  { intros E. rewrite E in K2. simpl in K2. exact K2. }
  clear K1 K2.
  set (dom := match allowedDomains options with
              | Some (d :: ds) =>
                  match extractDomain (url link) with
                  | Some linkDomain =>
                      Some (existsb (fun domain => eqb (toLowerCase domain)
                                                       (toLowerCase linkDomain)) (d :: ds))
                  | None => None
                  end
              | _ => Some true
              end).
  assert (Hdom : dom = Some true
                 <-> forall domains, allowedDomains options = Some domains -> domains <> [] ->
                     exists linkDomain domain,
                       extractDomain (url link) = Some linkDomain /\ In domain domains
                       /\ toLowerCase domain = toLowerCase linkDomain).
  { subst dom. destruct (allowedDomains options) as [[|d ds]|].
    - split; [|reflexivity]. intros _ domains [= <-] Hne. congruence.
    - destruct (extractDomain (url link)) as [linkDomain|].
      + split.
        * intros [= H] domains [= <-] _.
          apply (proj1 (existsb_exists
                          (fun domain => eqb (toLowerCase domain) (toLowerCase linkDomain))
                          (d :: ds))) in H as (domain & Hin & H).
          apply eqb_eq in H. eauto.
        * intros H. destruct (H (d :: ds) eq_refl ltac:(discriminate))
            as (ld & domain & [= <-] & Hin & E).
          f_equal. apply existsb_exists. exists domain. split; [exact Hin|].
          apply eqb_eq, E.
      + split; [discriminate|]. intros H.
        destruct (H (d :: ds) eq_refl ltac:(discriminate)) as (ld & _ & E & _). discriminate.
    - split; [|reflexivity]. intros _ domains E. discriminate. }
  set (inc := match includePatterns options with
              | Some (p :: ps) =>
                  negb (existsb (fun pattern => matchesPattern (url link) pattern) (p :: ps))
              | _ => false
              end).
  assert (Hinc : inc = false
                 <-> forall patterns, includePatterns options = Some patterns ->
                     patterns <> [] ->
                     exists pattern, In pattern patterns
                                     /\ matchesPattern (url link) pattern = true).
  { subst inc. destruct (includePatterns options) as [[|p ps]|].
    - split; [|reflexivity]. intros _ patterns [= <-] Hne. congruence.
    - rewrite negb_false_iff, existsb_exists. split.
      + intros H patterns [= <-] _. exact H.
      + intros H. apply (H (p :: ps)); [reflexivity|discriminate].
    - split; [|reflexivity]. intros _ patterns E. discriminate. }
  set (exc := match excludePatterns options with
              | Some (p :: ps) =>
                  existsb (fun pattern => matchesPattern (url link) pattern) (p :: ps)
              | _ => false
              end).
  assert (Hexc : exc = false
                 <-> forall patterns pattern, excludePatterns options = Some patterns ->
                     In pattern patterns -> matchesPattern (url link) pattern = false).
  { subst exc. destruct (excludePatterns options) as [[|p ps]|].
    - split; [|reflexivity]. intros _ patterns pattern [= <-] [].
    - split.
      + intros H patterns pattern [= <-] Hin.
        destruct (matchesPattern (url link) pattern) eqn:E; [|reflexivity].
        rewrite <- H. symmetry. apply existsb_exists. eauto.
      + intros H. apply not_true_is_false. intros E.
        apply existsb_exists in E as (pattern & Hin & E).
        rewrite (H (p :: ps) pattern eq_refl Hin) in E. discriminate.
    - split; [|reflexivity]. intros _ patterns pattern E. discriminate. }
  destruct dom as [[|]|].
  - destruct inc.
    + split; [discriminate|]. intros (_ & _ & _ & H & _). apply Hinc in H. discriminate.
    + destruct exc.
      * split; [discriminate|]. intros (_ & _ & _ & _ & H). apply Hexc in H. discriminate.
      * split; [|reflexivity]. intros _.
        repeat split; auto; [apply Hdom|apply Hinc|apply Hexc]; reflexivity.
  - split; [discriminate|]. intros (_ & _ & H & _). apply Hdom in H. discriminate.
  - split; [discriminate|]. intros (_ & _ & H & _). apply Hdom in H. discriminate.
Qed.

Lemma filter_links_in keep links kept :
  filter_links keep links = Some kept ->
  forall link, In link kept <-> In link links /\ keep link = Some true.
Proof.
  revert kept. induction links as [|l rest IH]; simpl; intros kept.
  - intros [= <-] link. simpl. tauto.
  - destruct (keep l) as [b|] eqn:Ek; [|discriminate].
    destruct (filter_links keep rest) as [kept'|]; [|discriminate].
    intros [= <-] link. specialize (IH kept' eq_refl link). destruct b; simpl.
    + rewrite IH. split.
      * intros [<- | [H1 H2]]; auto.
      * intros [[<- | H1] H2]; auto.
    + rewrite IH. split.
      * intros [H1 H2]; auto.
      * intros [[<- | H1] H2]; [congruence|auto].
Qed.

(** X17.  The links [filterLinks] returns are the links of the list that pass
    every filter that is set, and no other: the kind, the whitelist of
    domains (the domain itself, case apart; a subdomain does not pass),
    the include patterns (one must match) and the exclude patterns (none
    may match). *)
Theorem filterLinks_keeps_exactly (links kept : list ResolvedLink) (baseDomain : str)
    (options : LinkFilterOptions) (link : ResolvedLink) :
  filterLinks links baseDomain options = Some kept ->
  In link kept <-> In link links /\ passes options link.
Proof.
  intros H. unfold filterLinks in H. rewrite (filter_links_in _ _ _ H link).
  rewrite keep_link_passes. reflexivity.
Qed.

Lemma filter_links_sublist keep links kept :
  filter_links keep links = Some kept -> sublist kept links.
Proof.
  revert kept. induction links as [|l rest IH]; simpl; intros kept.
  - intros [= <-]. constructor.
  - destruct (keep l) as [b|]; [|discriminate].
    destruct (filter_links keep rest) as [kept'|]; [|discriminate].
    intros [= <-]. destruct b; [apply sublist_skip|apply sublist_cons]; auto.
Qed.

(** X18.  [filterLinks] only drops links: what it returns is the list with some
    links left out, the others in their order. *)
Theorem filterLinks_sublist (links kept : list ResolvedLink) (baseDomain : str)
    (options : LinkFilterOptions) :
  filterLinks links baseDomain options = Some kept -> sublist kept links.
Proof. apply filter_links_sublist. Qed.

Lemma filter_links_all keep links :
  (forall l, In l links -> keep l = Some true) -> filter_links keep links = Some links.
Proof.
  induction links as [|l rest IH]; simpl; [reflexivity|]. intros H.
  rewrite (H l) by auto. rewrite IH by auto. reflexivity.
Qed.

(** X19.  With no filter set, an empty list counting as none, [filterLinks]
    returns the links as they are: an empty list of include patterns
    keeps every link. *)
Theorem filterLinks_unset (links : list ResolvedLink) (baseDomain : str)
    (options : LinkFilterOptions) :
  filter options = None \/ filter options = Some all ->
  unset (allowedDomains options) -> unset (includePatterns options) ->
  unset (excludePatterns options) ->
  filterLinks links baseDomain options = Some links.
Proof.
  intros Hk Hd Hi He. apply filter_links_all. intros l _. apply keep_link_passes.
  unfold passes. repeat split.
  - intros E. destruct Hk; congruence.
  - intros E. destruct Hk; congruence.
  - intros domains E Hne. destruct Hd; congruence.
  - intros patterns E Hne. destruct Hi; congruence.
  - intros patterns pattern E Hin. destruct He as [He|He]; rewrite He in E; [discriminate|].
    injection E as <-. destruct Hin.
Qed.

(** X20.  Filtering what the filter returned changes nothing. *)
Theorem filterLinks_idempotent (links kept : list ResolvedLink) (baseDomain : str)
    (options : LinkFilterOptions) :
  filterLinks links baseDomain options = Some kept ->
  filterLinks kept baseDomain options = Some kept.
Proof.
  intros H. apply filter_links_all. intros l Hl.
  apply (filter_links_in _ _ _ H l) in Hl. tauto.
Qed.

Lemma filter_links_none keep links :
  filter_links keep links = None <-> exists link, In link links /\ keep link = None.
Proof.
  induction links as [|l rest IH]; simpl.
  - split; [discriminate|]. intros (link & [] & _).
  - destruct (keep l) as [b|] eqn:Ek.
    + destruct (filter_links keep rest) as [kept|].
      * split; [discriminate|]. intros (link & [<- | Hin] & Hn); [congruence|].
        assert (@None (list ResolvedLink) = None) as _ by reflexivity.
        destruct IH as [_ IH]. discriminate IH. eauto.
      * split; [|reflexivity]. intros _. destruct IH as [IH _].
        destruct (IH eq_refl) as (link & Hin & Hn). eauto.
    + split; [|reflexivity]. intros _. eauto.
Qed.

Lemma keep_link_throws options link :
  keep_link options link = None <-> throws_on options link.
Proof.
  unfold keep_link, throws_on.
  destruct (is_kind internal (filter options) && negb (isInternal link)) eqn:K1.
  { apply andb_true_iff in K1 as [A B]. apply is_kind_spec in A. apply negb_true_iff in B.
    split; [discriminate|]. intros (H & _). tauto. }
  destruct (is_kind external (filter options) && isInternal link) eqn:K2.
  { apply andb_true_iff in K2 as [A B]. apply is_kind_spec in A.
    split; [discriminate|]. intros (_ & H & _). tauto. }
  assert (HK1 : ~ (filter options = Some internal /\ isInternal link = false)).
  { intros [E F]. rewrite E, F in K1. discriminate. }
  assert (HK2 : ~ (filter options = Some external /\ isInternal link = true)).
  { intros [E F]. rewrite E, F in K2. discriminate. }
  destruct (allowedDomains options) as [[|d ds]|].
  - split.
    + destruct (match includePatterns options with Some (_ :: _) => _ | _ => false end);
        [discriminate|]. destruct (match excludePatterns options with Some (_ :: _) => _ | _ => false end); discriminate.
    + intros (_ & _ & (d & ds & E) & _). discriminate.
  - destruct (extractDomain (url link)) as [linkDomain|].
    + split.
      * destruct (existsb _ _); [|discriminate].
        destruct (match includePatterns options with Some (_ :: _) => _ | _ => false end);
          [discriminate|]. destruct (match excludePatterns options with Some (_ :: _) => _ | _ => false end); discriminate.
      * intros (_ & _ & _ & E). discriminate.
    + split; [|reflexivity]. intros _. repeat split; eauto.
  - split.
    + destruct (match includePatterns options with Some (_ :: _) => _ | _ => false end);
        [discriminate|]. destruct (match excludePatterns options with Some (_ :: _) => _ | _ => false end); discriminate.
    + intros (_ & _ & (d & ds & E) & _). discriminate.
Qed.


Lemma filterLinks_keeps_exactly_witness :
  In blog_post [blog_post] <-> In blog_post [blog_post; blog_admin] /\ passes blog_not_admin blog_post.
Proof.
  apply (filterLinks_keeps_exactly [blog_post; blog_admin] [blog_post] (lit "example.com")).
  vm_compute. reflexivity.
Defined.

Lemma filterLinks_sublist_witness : sublist [blog_post] [blog_post; blog_admin].
Proof.
  apply (filterLinks_sublist [blog_post; blog_admin] [blog_post] (lit "example.com")
                             blog_not_admin).
  vm_compute. reflexivity.
Defined.

Lemma filterLinks_unset_witness :
  filterLinks [blog_post; blog_admin] (lit "example.com")
              {| allowedDomains := Some []; excludePatterns := None;
                 includePatterns := Some []; filter := Some all |}
  = Some [blog_post; blog_admin].
Proof.
  apply filterLinks_unset; cbn; unfold unset; auto.
Defined.

Lemma filterLinks_idempotent_witness :
  filterLinks [blog_post] (lit "example.com") blog_not_admin = Some [blog_post].
Proof.
  apply (filterLinks_idempotent [blog_post; blog_admin]). vm_compute. reflexivity.
Defined.

End LinkFilterSpec.

(** ** Schemes that are not followed *)

Module SchemeSpec.
Import JS JSMore JSFacts Url UrlFacts ParseFacts LinkExtraction SchemeChecks.
Import NetworkMore.

Lemma trimStart_suffix s : exists ws, s = ws ++ trimStart s /\ forallb is_space ws = true.
Proof.
  induction s as [|c t (ws & E & Hws)]; [exists []; split; reflexivity|].
  simpl. destruct (is_space c) eqn:Ec.
  - exists (c :: ws). split; [simpl; f_equal; exact E|simpl; rewrite Ec; exact Hws].
  - exists []. split; reflexivity.
Qed.

(** A trimmed text is the text without blanks at its two ends. *)
Lemma trim_middle s :
  exists front back, s = front ++ trim s ++ back.
Proof.
  unfold trim. destruct (trimStart_suffix s) as (ws & E & _).
  destruct (trimStart_suffix (rev (trimStart s))) as (ws' & E' & _).
  exists ws, (rev ws'). rewrite <- rev_app_distr, <- E', rev_involutive. exact E.
Qed.

Lemma includes_char_app a b c :
  includes_char (a ++ b) c = includes_char a c || includes_char b c.
Proof. unfold includes_char. apply existsb_app. Qed.

Lemma includes_char_lower s : includes_char (toLowerCase s) ":" = includes_char s ":".
Proof.
  unfold includes_char, toLowerCase. induction s as [|c t IH]; [reflexivity|].
  cbn [map existsb]. rewrite IH. f_equal.
  pose proof (colon_kept_by_lower c) as H. unfold is_char in H.
  rewrite Ascii.eqb_sym, H, Ascii.eqb_sym. reflexivity.
Qed.

(** X22.  An href without a colon, a relative link, is never taken for a
    scheme that is not followed. *)
Theorem hasNonFetchableScheme_relative (href : str) :
  includes_char href ":" = false -> hasNonFetchableScheme href = false.
Proof.
  intros Hc. destruct (trim_middle href) as (front & back & E).
  assert (Ht : includes_char (toLowerCase (trim href)) ":" = false).
  { rewrite includes_char_lower. rewrite E in Hc. rewrite !includes_char_app in Hc.
    apply orb_false_iff in Hc as [_ Hc]. apply orb_false_iff in Hc as [Hc _]. exact Hc. }
  unfold hasNonFetchableScheme. cbv zeta. apply not_true_is_false. intros H.
  apply existsb_exists in H as (scheme & Hin & Hs).
  apply startsWith_app in Hs as [tail Hs]. rewrite Hs, includes_char_app in Ht.
  apply orb_false_iff in Ht as [Ht _].
  unfold NON_FETCHABLE_SCHEMES in Hin. simpl in Hin.
  repeat (destruct Hin as [<- | Hin]; [discriminate Ht|]). destruct Hin.
Qed.

Lemma hasNonFetchableScheme_relative_witness :
  hasNonFetchableScheme (lit "  ../docs/file.html") = false.
Proof. apply hasNonFetchableScheme_relative. reflexivity. Defined.

Lemma lower_space c : is_space (lower_char c) = is_space c.
Proof.
  assert (K : space_stays_space c = true).
  { apply (checked_chars space_stays_space). vm_compute. reflexivity. }
  unfold space_stays_space in K. apply andb_true_iff in K as [A B].
  destruct (is_space c), (is_space (lower_char c)); simpl in *; congruence.
Qed.

Lemma trimStart_spaces ws s : forallb is_space ws = true -> trimStart (ws ++ s) = trimStart s.
Proof.
  induction ws as [|c ws IH]; [reflexivity|]. simpl. intros [Hc Hws]%andb_true_iff.
  rewrite Hc. apply IH, Hws.
Qed.

Lemma trimStart_before a b :
  (exists c t, b = c :: t /\ is_space c = false) ->
  exists a', trimStart (a ++ b) = a' ++ b.
Proof.
  intros (c & t & -> & Hc). induction a as [|x a [a' IH]].
  - exists []. simpl. rewrite Hc. reflexivity.
  - simpl. destruct (is_space x).
    + exists a'. exact IH.
    + exists (x :: a). reflexivity.
Qed.

Lemma startsWith_prefix p t : startsWith (p ++ t) p = true.
Proof.
  induction p as [|c p IH]; [destruct t; reflexivity|]. simpl.
  rewrite Ascii.eqb_refl. exact IH.
Qed.

(** X23.  The schemes are told whatever the case of their letters and the
    blanks before them. *)
Theorem hasNonFetchableScheme_any_case (blanks x rest scheme : str) :
  In scheme NON_FETCHABLE_SCHEMES ->
  forallb is_space blanks = true ->
  toLowerCase x = scheme ->
  hasNonFetchableScheme (blanks ++ x ++ rest) = true.
Proof.
  intros Hin Hb Hx.
  assert (Hends : (exists c t, x = c :: t /\ is_space c = false)
                  /\ (exists c t, rev x = c :: t /\ is_space c = false)).
  { assert (Hl : (exists c t, scheme = c :: t /\ is_space c = false)
                 /\ (exists c t, rev scheme = c :: t /\ is_space c = false)).
    { unfold NON_FETCHABLE_SCHEMES in Hin. simpl in Hin.
      repeat (destruct Hin as [<- | Hin]; [split; eexists; eexists; split; reflexivity|]).
      destruct Hin. }
    rewrite <- Hx in Hl. unfold toLowerCase in Hl. rewrite <- map_rev in Hl.
    destruct Hl as [(c & t & E1 & H1) (c' & t' & E2 & H2)]. split.
    - destruct x as [|a x']; [discriminate|]. cbn [map] in E1. injection E1 as <- _.
      rewrite lower_space in H1. eauto.
    - destruct (rev x) as [|a x']; [discriminate|]. cbn [map] in E2. injection E2 as <- _.
      rewrite lower_space in H2. eauto. }
  destruct Hends as [Hfirst Hlast].
  assert (Ht : exists tail, trim (blanks ++ x ++ rest) = x ++ tail).
  { unfold trim. rewrite (trimStart_spaces blanks _ Hb).
    destruct Hfirst as (c & t & -> & Hc). cbn [app trimStart]. rewrite Hc.
    change (c :: t ++ rest) with ((c :: t) ++ rest). rewrite rev_app_distr.
    destruct (trimStart_before (rev rest) (rev (c :: t)) Hlast) as [a' ->].
    rewrite rev_app_distr, rev_involutive. eauto. }
  destruct Ht as [tail Ht]. unfold hasNonFetchableScheme. cbv zeta.
  apply existsb_exists. exists scheme. split; [exact Hin|].
  rewrite Ht. unfold toLowerCase. rewrite map_app. fold (toLowerCase x). rewrite Hx.
  apply startsWith_prefix.
Qed.

Lemma hasNonFetchableScheme_any_case_witness :
  hasNonFetchableScheme (lit " " ++ lit "JavaScript:" ++ lit "void(0)") = true.
Proof.
  apply (hasNonFetchableScheme_any_case _ _ _ (lit "javascript:")); [|reflexivity|reflexivity].
  left. reflexivity.
Defined.

End SchemeSpec.

(** ** Link extraction *)

Module ExtractionSpec.
Import JS JSMore JSFacts Url UrlFacts ParseFacts RecordFacts NormalizeFacts UrlTools.
Import LinkResolver LinkResolverSpec LinkExtraction LinkFilterSpec LinkExamples.

Lemma normalized_url u s :
  normalizeUrl u = Some s ->
  normalizeUrl s = Some s /\ isFetchableUrl s = true /\ exists d, extractDomain s = Some d.
Proof.
  rewrite !normalizeUrl_unfold. unfold isFetchableUrl, extractDomain.
  destruct (parse u) as [parsed|] eqn:E; [|discriminate]. intros [= <-].
  pose proof (parse_well_formed u parsed E) as Hwf.
  rewrite (parse_written parsed Hwf), (canonical_idem parsed Hwf).
  split; [reflexivity|]. split; [|eauto].
  destruct (canonical_well_formed parsed Hwf) as ([Hs | Hs] & _);
    unfold protocol; rewrite Hs; reflexivity.
Qed.

Section Extraction.

Variable anchors : TokenCounter.text -> list (str * TokenCounter.text).
Variable resolveUrl : str -> str -> option str.

Abbreviation visit_anchor := (LinkExtraction.visit_anchor resolveUrl).
Abbreviation visit_anchors := (LinkExtraction.visit_anchors resolveUrl).
Abbreviation extractLinks := (LinkExtraction.extractLinks anchors resolveUrl).
Abbreviation scan_ok := (LinkExtraction.scan_ok resolveUrl).
Abbreviation stems_from := (LinkExtraction.stems_from resolveUrl).

Lemma scan_ok_more baseUrl baseDomain from anchor st :
  scan_ok baseUrl baseDomain from st -> scan_ok baseUrl baseDomain (from ++ [anchor]) st.
Proof.
  intros [Hnd Hall]. split; [exact Hnd|]. revert Hall. apply List.Forall_impl.
  intros l (Hs & Hl & a & Hin & Ha). split; [exact Hs|]. split; [exact Hl|]. exists a.
  split; [apply in_or_app; left; exact Hin|exact Ha].
Qed.

Lemma visit_anchor_ok baseUrl baseDomain from st anchor st' :
  scan_ok baseUrl baseDomain from st ->
  visit_anchor baseUrl baseDomain st anchor = Some st' ->
  scan_ok baseUrl baseDomain (from ++ [anchor]) st'.
Proof.
  intros Hok. pose proof (scan_ok_more baseUrl baseDomain from anchor st Hok) as Hok'.
  unfold LinkExtraction.visit_anchor. cbv zeta.
  destruct (length (trim (fst anchor)) =? 0)%nat eqn:E0; [intros [= <-]; exact Hok'|].
  destruct (startsWith (trim (fst anchor)) (lit "#")) eqn:E1; [intros [= <-]; exact Hok'|].
  destruct (hasNonFetchableScheme (trim (fst anchor))) eqn:E2; [intros [= <-]; exact Hok'|].
  destruct (resolveUrl baseUrl (trim (fst anchor))) as [absoluteUrl|] eqn:Er;
    [|intros [= <-]; exact Hok'].
  destruct (normalizeUrl absoluteUrl) as [normalized|] eqn:En; [|discriminate].
  destruct (decide (normalized ∈ seen st)) as [Hseen|Hseen]; [intros [= <-]; exact Hok'|].
  destruct (normalized_url _ _ En) as (Hfix & Hfetch & d & Hd).
  rewrite Hfetch, Hd. cbn [negb]. intros [= <-].
  destruct Hok' as [Hnd Hall]. split; cbn [links seen].
  - rewrite map_app. cbn [map url]. apply NoDup_app. split; [exact Hnd|].
    split; [|apply NoDup_singleton].
    intros u Hu Hu'. apply list_elem_of_In in Hu, Hu'. destruct Hu' as [<- | []].
    apply in_map_iff in Hu as (l & El & Hl). rewrite List.Forall_forall in Hall.
    destruct (Hall l Hl) as (Hs & _). rewrite El in Hs. contradiction.
  - apply Forall_app. split.
    + revert Hall. apply List.Forall_impl. intros l (Hs & Hl & Ha).
      split; [apply elem_of_union_l, Hs|]. split; assumption.
    + constructor; [|constructor]. cbn [url]. split; [set_solver|]. split.
      * unfold link_sound. cbn [url isInternal].
        split; [exact Hfix|]. split; [exact Hfetch|]. exists d. split; [exact Hd|reflexivity].
      * exists anchor. split; [apply in_or_app; right; left; reflexivity|].
        unfold LinkExtraction.stems_from, followed. cbn [url text].
        rewrite E0, E1, E2. split; [reflexivity|]. split; [|reflexivity].
        exists absoluteUrl. split; assumption.
Qed.

Lemma visit_anchors_ok baseUrl baseDomain l : forall from st st',
  scan_ok baseUrl baseDomain from st ->
  visit_anchors baseUrl baseDomain st l = Some st' ->
  scan_ok baseUrl baseDomain (from ++ l) st'.
Proof.
  induction l as [|anchor rest IH]; intros from st st' Hok; simpl.
  - intros [= <-]. rewrite app_nil_r. exact Hok.
  - destruct (LinkExtraction.visit_anchor resolveUrl baseUrl baseDomain st anchor)
      as [st1|] eqn:E; [|discriminate].
    intros H. change (anchor :: rest) with ([anchor] ++ rest). rewrite app_assoc.
    apply (IH _ st1 st'); [|exact H]. apply (visit_anchor_ok _ _ _ st); assumption.
Qed.

(** What [extractLinks] returns comes from a scan that went well. *)
Lemma extractLinks_scan html baseUrl options result :
  extractLinks html baseUrl options = Some result ->
  exists baseDomain st,
    extractDomain baseUrl = Some baseDomain
    /\ scan_ok baseUrl baseDomain (anchors html) st
    /\ sublist result (links st).
Proof.
  unfold LinkExtraction.extractLinks.
  destruct (extractDomain baseUrl) as [baseDomain|]; [|discriminate].
  destruct (LinkExtraction.visit_anchors _ _ _ _ _) as [st|] eqn:E; [|discriminate].
  intros H. exists baseDomain, st. split; [reflexivity|]. split.
  - apply (visit_anchors_ok _ _ _ [] _ _) in E; [exact E|].
    split; [constructor|constructor].
  - destruct options as [o|].
    + apply filter_links_sublist in H. exact H.
    + injection H as <-. reflexivity.
Qed.




End Extraction.

Lemma extractLinks_example :
  LinkExtraction.extractLinks four_anchors absolute [] (lit "https://example.com/") None
  = Some [page_a].
Proof. vm_compute. reflexivity. Qed.




End ExtractionSpec.

(** ** The crawl: order, repetition, the reason to stop *)

Module CrawlOrderFacts.
Import JS JSFacts LinkResolver LinkResolverSpec Crawler CrawlerModel CrawlerFacts CrawlerSpec.
Import LinkFilter LinkFilterSpec CrawlOrder.

Lemma last_change_default (ds : list Z) a b : ds <> [] -> List.last ds a = List.last ds b.
Proof.
  induction ds as [|x ds IH]; [congruence|]. intros _.
  destruct ds as [|y ds']; [reflexivity|]. apply IH. discriminate.
Qed.

Lemma steps_up_app prev ds d :
  steps_up prev ds -> List.last ds prev <= d <= List.last ds prev + 1 ->
  steps_up prev (ds ++ [d]).
Proof.
  revert prev. induction ds as [|x ds IH]; intros prev; cbn [app steps_up].
  - intros _ H. simpl in H. split; [exact H|exact I].
  - intros [Hx Hs] H. split; [exact Hx|]. apply IH; [exact Hs|].
    destruct ds as [|y ds']; [exact H|].
    rewrite (last_change_default (y :: ds') x prev) by discriminate. exact H.
Qed.

Lemma level_order_app ds d :
  level_order ds -> (ds = [] -> d = 0) ->
  List.last ds 0 <= d <= List.last ds 0 + 1 ->
  level_order (ds ++ [d]).
Proof.
  destruct ds as [|x ds]; cbn [app level_order].
  - intros _ H _. split; [apply H; reflexivity|exact I].
  - intros [-> Hs] _ H. split; [reflexivity|]. apply steps_up_app; [exact Hs|].
    destruct ds as [|y ds']; [exact H|]. exact H.
Qed.

Lemma last_depth_app l p : last_depth (l ++ [p]) = CrawlPageResult.depth p.
Proof. unfold last_depth. rewrite map_app. cbn [map]. apply last_last. Qed.

Lemma ascending_app a b :
  ascending a -> ascending b ->
  (forall x y, In x a -> In y b -> x <= y) -> ascending (a ++ b).
Proof.
  induction a as [|x a IH]; cbn [app ascending]; [auto|].
  intros [Hx Ha] Hb H. split.
  - apply Forall_app. split; [exact Hx|]. apply List.Forall_forall. intros y Hy.
    apply H; [left; reflexivity|exact Hy].
  - apply IH; auto. intros x' y Hx' Hy. apply H; [right; exact Hx'|exact Hy].
Qed.

Lemma ascending_same d l : Forall (fun x => x = d) l -> ascending l.
Proof.
  induction 1 as [|x l Hx Hl IH]; [exact I|]. cbn. split; [|exact IH].
  revert Hl. apply List.Forall_impl. intros y ->. lia.
Qed.

Section Engine.

Variable defaultMaxTokens : Z.
Variable extractPage : str -> option PageResult.t.
Variable extractLinks : TokenCounter.text -> str -> list ResolvedLink.

Abbreviation turn := (Crawler.turn extractPage extractLinks).
Abbreviation loop := (Crawler.loop extractPage extractLinks).
Abbreviation crawl := (Crawler.crawl defaultMaxTokens extractPage extractLinks).
Abbreviation turn_spec := (CrawlerModel.turn_spec extractPage extractLinks).

(** The links put on the queue: after the entries there, one level down,
    each with the URL of one of the links. *)
Lemma enqueue_links_spec seen d links : forall q,
  exists new,
    enqueue_links seen d links q = q ++ new
    /\ Forall (fun e => QueueEntry.depth e = d + 1
                        /\ exists link, In link links /\ QueueEntry.url e = url link) new.
Proof.
  unfold enqueue_links. induction links as [|l links IH]; intros q; cbn [fold_left].
  - exists []. rewrite app_nil_r. split; [reflexivity|constructor].
  - destruct (decide (url l ∈ seen)) as [Hin|Hin].
    + destruct (IH q) as (new & E & Hnew). exists new. split; [exact E|].
      revert Hnew. apply List.Forall_impl. intros e (Hd & link & Hl & Hu).
      split; [exact Hd|]. exists link. split; [right; exact Hl|exact Hu].
    + destruct (IH (q ++ [{| QueueEntry.url := url l; QueueEntry.depth := d + 1 |}]))
        as (new & E & Hnew).
      exists ({| QueueEntry.url := url l; QueueEntry.depth := d + 1 |} :: new).
      split; [rewrite E, <- app_assoc; reflexivity|]. constructor.
      * cbn. split; [reflexivity|]. exists l. split; [left; reflexivity|reflexivity].
      * revert Hnew. apply List.Forall_impl. intros e (Hd & link & Hl & Hu).
        split; [exact Hd|]. exists link. split; [right; exact Hl|exact Hu].
Qed.

(** A property every turn keeps holds of the state the loop returns. *)
Lemma loop_keeps (P : state -> Prop) maxTokens options startDomain :
  (forall s0 entry rest f,
      P s0 -> queue s0 = entry :: rest ->
      turn_spec maxTokens options startDomain entry (shifted s0 rest) f ->
      match f with
      | Next s' | Break s' => P s'
      | Throw => True
      end) ->
  forall fuel s r, P s -> loop fuel maxTokens options startDomain s = Returned r -> P r.
Proof.
  intros Step. apply (loop_invariant extractPage extractLinks P P).
  - auto.
  - intros s0 entry rest s' Hs Hq Hturn.
    pose proof (Step s0 entry rest _ Hs Hq
                  (turn_cases extractPage extractLinks maxTokens options startDomain entry _)) as H.
    rewrite Hturn in H. exact H.
  - intros s0 entry rest s' Hs Hq Hturn.
    pose proof (Step s0 entry rest _ Hs Hq
                  (turn_cases extractPage extractLinks maxTokens options startDomain entry _)) as H.
    rewrite Hturn in H. exact H.
Qed.

(** *** No page twice, the seed first *)

Lemma new_page_distinct (s : state) entry p :
  pages_distinct s -> QueueEntry.url entry ∉ visited s ->
  CrawlPageResult.url p = QueueEntry.url entry ->
  NoDup (map CrawlPageResult.url (crawled s ++ [p]))
  /\ Forall (fun q => CrawlPageResult.url q ∈ visited s ∪ {[ QueueEntry.url entry ]})
            (crawled s ++ [p]).
Proof.
  intros [Hnd Hall] Hv Hp. split.
  - rewrite map_app. cbn [map]. apply NoDup_app. split; [exact Hnd|].
    split; [|apply NoDup_singleton].
    intros u Hu Hu'. apply list_elem_of_In in Hu, Hu'. destruct Hu' as [<- | []].
    apply in_map_iff in Hu as (q & Eq & Hq). rewrite List.Forall_forall in Hall.
    apply Hv. rewrite <- Hp, <- Eq. apply Hall, Hq.
  - apply Forall_app. split.
    + revert Hall. apply List.Forall_impl. intros q Hq. apply elem_of_union_l, Hq.
    + constructor; [|constructor]. rewrite Hp. set_solver.
Qed.

Lemma distinct_step n maxTokens options startDomain s0 entry rest f :
  pages_distinct s0 /\ seed_first n s0 ->
  queue s0 = entry :: rest ->
  turn_spec maxTokens options startDomain entry (shifted s0 rest) f ->
  match f with
  | Next s' | Break s' => pages_distinct s' /\ seed_first n s'
  | Throw => True
  end.
Proof.
  intros [Hd Hs] Hq Hc.
  assert (Hseed : forall p, CrawlPageResult.url p = QueueEntry.url entry ->
                            CrawlPageResult.depth p = QueueEntry.depth entry ->
                            QueueEntry.url entry ∉ visited s0 ->
                            match crawled s0 ++ [p] with
                            | [] => True
                            | q :: _ => CrawlPageResult.url q = n /\ CrawlPageResult.depth q = 0
                            end).
  { intros p Hu Hdp Hv. unfold seed_first in Hs. destruct (crawled s0) as [|q l].
    - destruct Hs as [Hs | [Hs _]]; [congruence|]. rewrite Hq in Hs. injection Hs as -> _.
      cbn [app]. rewrite Hu, Hdp. split; reflexivity.
    - exact Hs. }
  destruct Hc; cbn [shifted queue visited crawled totalTokens maxDepthReached stoppedReason]
    in *; try exact I.
  - split; [exact Hd|]. unfold seed_first in *. cbn [shifted queue visited crawled].
    destruct (crawled s0); [|exact Hs].
    destruct Hs as [Hs | [_ Hs]]; [congruence|]. rewrite Hs in *. set_solver.
  - split.
    + destruct Hd as [Hnd Hall]. split; [exact Hnd|]. cbn [crawled visited].
      revert Hall. apply List.Forall_impl. intros q Hq'. apply elem_of_union_l, Hq'.
    + unfold seed_first in *. cbn [queue visited crawled].
      destruct (crawled s0); [|exact Hs].
      destruct Hs as [Hs | [Hs _]]; [congruence|]. rewrite Hq in Hs. injection Hs as _ ->.
      left. reflexivity.
  - split.
    + apply (new_page_distinct s0 entry); auto.
    + unfold seed_first. cbn [crawled].
      pose proof (Hseed (page_of entry pageResult 0) eq_refl eq_refl ltac:(assumption)) as Hsd.
      destruct (crawled s0 ++ [page_of entry pageResult 0]) eqn:E; [|exact Hsd].
      destruct (crawled s0); discriminate.
  - split.
    + apply (new_page_distinct s0 entry); auto.
    + unfold seed_first. cbn [crawled].
      match goal with |- match crawled s0 ++ [?p] with _ => _ end =>
        pose proof (Hseed p eq_refl eq_refl ltac:(assumption)) as Hsd;
        destruct (crawled s0 ++ [p]) eqn:E; [|exact Hsd] end.
      destruct (crawled s0); discriminate.
  - split.
    + apply (new_page_distinct s0 entry); auto.
    + unfold seed_first. cbn [crawled].
      pose proof (Hseed (page_of entry pageResult 0) eq_refl eq_refl ltac:(assumption)) as Hsd.
      destruct (crawled s0 ++ [page_of entry pageResult 0]) eqn:E; [|exact Hsd].
      destruct (crawled s0); discriminate.
Qed.

(** *** Breadth first *)

Lemma level_step maxTokens options startDomain s0 entry rest f :
  in_level_order s0 ->
  queue s0 = entry :: rest ->
  turn_spec maxTokens options startDomain entry (shifted s0 rest) f ->
  match f with
  | Next s' | Break s' => in_level_order s'
  | Throw => True
  end.
Proof.
  intros (Hlo & Hasc & Hb & He) Hq Hc. rewrite Hq in Hasc, Hb, He.
  cbn [map ascending] in Hasc. destruct Hasc as [Hhead Hasc].
  inversion Hb as [|e l Hbe Hbrest]; subst e l.
  assert (Hrest0 : crawled s0 = [] -> Forall (fun e => QueueEntry.depth e = 0) rest).
  { intros E. specialize (He E). inversion He; assumption. }
  assert (Hkeep : in_level_order (shifted s0 rest)).
  { repeat split; cbn [shifted queue crawled]; assumption. }
  assert (Hpage : forall p,
             CrawlPageResult.depth p = QueueEntry.depth entry ->
             level_order (map CrawlPageResult.depth (crawled s0 ++ [p]))
             /\ Forall (fun e => last_depth (crawled s0 ++ [p]) <= QueueEntry.depth e
                                 <= last_depth (crawled s0 ++ [p]) + 1) rest
             /\ (crawled s0 ++ [p] = [] -> Forall (fun e => QueueEntry.depth e = 0) rest)).
  { intros p Hp. split; [|split].
    - rewrite map_app. cbn [map]. apply level_order_app; [exact Hlo| |].
      + intros E. apply map_eq_nil in E. specialize (He E). inversion He. congruence.
      + rewrite Hp. exact Hbe.
    - rewrite last_depth_app, Hp. rewrite List.Forall_forall in Hbrest, Hhead.
      apply List.Forall_forall. intros e Hin. specialize (Hbrest e Hin).
      specialize (Hhead (QueueEntry.depth e) (in_map _ _ _ Hin)). unfold last_depth in *. lia.
    - intros E. destruct (crawled s0); discriminate. }
  destruct Hc; cbn [shifted queue visited crawled totalTokens maxDepthReached stoppedReason]
    in *; try exact I.
  - exact Hkeep.
  - exact Hkeep.
  - destruct (Hpage (page_of entry pageResult 0) eq_refl) as (A & B & C).
    repeat split; cbn [queue crawled]; assumption.
  - match goal with |- in_level_order {| crawled := crawled s0 ++ [?p] |} =>
      destruct (Hpage p eq_refl) as (A & B & C) end.
    destruct (enqueue_links_spec (visited s0 ∪ {[ QueueEntry.url entry ]})
                (QueueEntry.depth entry) filteredLinks rest) as (new & -> & Hnew).
    assert (Hnd : Forall (fun e => QueueEntry.depth e = QueueEntry.depth entry + 1) new).
    { revert Hnew. apply List.Forall_impl. intros e [Hde _]. exact Hde. }
    repeat split; cbn [queue crawled].
    + exact A.
    + rewrite map_app. apply ascending_app; [exact Hasc| |].
      * apply (ascending_same (QueueEntry.depth entry + 1)).
        apply Forall_map. exact Hnd.
      * intros x y Hx Hy. apply in_map_iff in Hx as (ex & <- & Hex).
        apply in_map_iff in Hy as (ey & <- & Hey).
        rewrite List.Forall_forall in B, Hnd. specialize (B ex Hex).
        rewrite (Hnd ey Hey). rewrite last_depth_app in B. cbn in B. lia.
    + apply Forall_app. split; [exact B|]. rewrite last_depth_app.
      revert Hnd. apply List.Forall_impl. intros e ->. cbn. lia.
    + intros E. destruct (crawled s0); discriminate.
  - destruct (Hpage (page_of entry pageResult 0) eq_refl) as (A & B & C).
    repeat split; cbn [queue crawled]; assumption.
Qed.

(** *** The reason to stop when no extraction fails *)

Lemma fetched_page (s : state) entry p :
  NoDup (map CrawlPageResult.url (crawled s)) ->
  visited s ≡ list_to_set (map CrawlPageResult.url (crawled s)) ->
  QueueEntry.url entry ∉ visited s ->
  CrawlPageResult.url p = QueueEntry.url entry ->
  NoDup (map CrawlPageResult.url (crawled s ++ [p]))
  /\ visited s ∪ {[ QueueEntry.url entry ]}
     ≡ list_to_set (map CrawlPageResult.url (crawled s ++ [p])).
Proof.
  intros Hnd Hv Hn Hp. split.
  - rewrite map_app. cbn [map]. apply NoDup_app. split; [exact Hnd|].
    split; [|apply NoDup_singleton].
    intros u Hu Hu'. apply list_elem_of_In in Hu'. destruct Hu' as [<- | []].
    apply Hn. rewrite Hv, <- Hp. apply elem_of_list_to_set, Hu.
  - rewrite map_app, list_to_set_app, Hv. cbn [map]. rewrite Hp. set_solver.
Qed.

Lemma fetched_step maxTokens options startDomain s0 entry rest f :
  (forall u, extractPage u <> None) ->
  all_fetched s0 -> queue s0 = entry :: rest ->
  turn_spec maxTokens options startDomain entry (shifted s0 rest) f ->
  match f with
  | Next s' => all_fetched s'
  | Break s' => stoppedReason s' = token_limit
  | Throw => True
  end.
Proof.
  intros Hall (Hr & Hnd & Hv & Hne) Hq Hc.
  destruct Hc; change (visited (shifted s0 rest)) with (visited s0) in *;
    change (crawled (shifted s0 rest)) with (crawled s0) in *;
    change (stoppedReason (shifted s0 rest)) with (stoppedReason s0) in *;
    try exact I; try reflexivity.
  - split; [exact Hr|]. split; [exact Hnd|]. split; [exact Hv|].
    intros E. exfalso. change (crawled s0 = []) in E. rewrite E in Hv. cbn in Hv.
    set_solver.
  - exfalso. eapply Hall. eassumption.
  - match goal with |- all_fetched {| crawled := crawled s0 ++ [?p] |} =>
      destruct (fetched_page s0 entry p Hnd Hv ltac:(assumption) eq_refl) as [A B] end.
    split; [exact Hr|]. split; [exact A|]. split; [exact B|].
    cbn [crawled]. intros E. destruct (crawled s0); discriminate.
  - destruct (fetched_page s0 entry (page_of entry pageResult 0) Hnd Hv ltac:(assumption)
                eq_refl) as [A B].
    split; [exact Hr|]. split; [exact A|]. split; [exact B|].
    cbn [crawled]. intros E. destruct (crawled s0); discriminate.
Qed.

(** *** The pages came through the filter *)

Lemma through_step n maxTokens options startDomain s0 entry rest f :
  all_came_through n options s0 -> queue s0 = entry :: rest ->
  turn_spec maxTokens options startDomain entry (shifted s0 rest) f ->
  match f with
  | Next s' | Break s' => all_came_through n options s'
  | Throw => True
  end.
Proof.
  intros [Hqueue Hpages] Hq Hc. rewrite Hq in Hqueue.
  inversion Hqueue as [|e l Hentry Hrest]; subst e l.
  assert (Hpage : forall p, CrawlPageResult.url p = QueueEntry.url entry ->
                            Forall (fun q => came_through n options (CrawlPageResult.url q))
                                   (crawled s0 ++ [p])).
  { intros p Hp. apply Forall_app. split; [exact Hpages|].
    constructor; [rewrite Hp; exact Hentry|constructor]. }
  destruct Hc; cbn [shifted queue visited crawled totalTokens maxDepthReached stoppedReason]
    in *; try exact I.
  - split; assumption.
  - split; assumption.
  - split; cbn [queue crawled]; [exact Hrest|]. apply Hpage. reflexivity.
  - split; cbn [queue crawled]; [|apply Hpage; reflexivity].
    destruct (enqueue_links_spec (visited s0 ∪ {[ QueueEntry.url entry ]})
                (QueueEntry.depth entry) filteredLinks rest) as (new & -> & Hnew).
    apply Forall_app. split; [exact Hrest|].
    revert Hnew. apply List.Forall_impl. intros e (_ & link & Hl & Hu).
    right. exists link. split; [symmetry; exact Hu|].
    match goal with Hf : filterLinks _ _ _ = Some filteredLinks |- _ =>
      unfold filterLinks in Hf; destruct (filter_links_kept _ _ _ _ Hf Hl) as [_ Hk] end.
    apply keep_link_passes, Hk.
  - split; cbn [queue crawled]; [exact Hrest|]. apply Hpage. reflexivity.
Qed.

End Engine.

End CrawlOrderFacts.

Module CrawlOrderSpec.
Import JS JSFacts LinkResolver LinkResolverSpec Crawler CrawlerModel CrawlerFacts CrawlerSpec.
Import LinkFilter LinkFilterSpec CrawlOrder CrawlOrderFacts Examples.

Section Engine.

Variable defaultMaxTokens : Z.
Variable extractPage : str -> option PageResult.t.
Variable extractLinks : TokenCounter.text -> str -> list ResolvedLink.

Abbreviation loop := (Crawler.loop extractPage extractLinks).
Abbreviation crawl := (Crawler.crawl defaultMaxTokens extractPage extractLinks).

(** X27.  No URL is crawled twice: the pages of a result have different URLs;
    and the first of them, if there is one, is the normalized start URL,
    at depth 0. *)
Theorem crawl_pages_distinct (fuel : nat) (startUrl : str) (options : option CrawlOptions)
    (r : CrawlResult) :
  crawl fuel startUrl options = Returned r ->
  NoDup (map CrawlPageResult.url (pages r))
  /\ match pages r with
     | [] => True
     | p :: _ => Url.normalizeUrl startUrl = Some (CrawlPageResult.url p)
                 /\ CrawlPageResult.depth p = 0
     end.
Proof.
  intros Hr. destruct (crawl_returned _ _ _ _ _ _ _ Hr) as (n & d & s & Hn & Hloop & ->).
  change (pages (result_of s)) with (crawled s).
  assert (Hi : pages_distinct (initial n) /\ seed_first n (initial n)).
  { split; [split; constructor|]. right. split; reflexivity. }
  destruct (loop_keeps extractPage extractLinks _ _ _ _
              (distinct_step extractPage extractLinks n _ _ _) _ _ _ Hi Hloop)
    as [[Hnd _] Hseed].
  split; [exact Hnd|]. unfold seed_first in Hseed.
  destruct (crawled s) as [|p l]; [exact I|]. destruct Hseed as [-> Hd]. auto.
Qed.

(** X28.  The pages come in breadth-first order: the first at depth 0, every
    next one at the depth of the one before or one level deeper. *)
Theorem crawl_breadth_first (fuel : nat) (startUrl : str) (options : option CrawlOptions)
    (r : CrawlResult) :
  crawl fuel startUrl options = Returned r ->
  level_order (map CrawlPageResult.depth (pages r)).
Proof.
  intros Hr. destruct (crawl_returned _ _ _ _ _ _ _ Hr) as (n & d & s & Hn & Hloop & ->).
  change (pages (result_of s)) with (crawled s).
  assert (Hi : in_level_order (initial n)).
  { unfold in_level_order, initial, last_depth. cbn.
    split; [exact I|]. split; [split; [constructor|exact I]|]. split.
    - constructor; [cbn; lia|constructor].
    - intros _. constructor; [reflexivity|constructor]. }
  destruct (loop_keeps extractPage extractLinks _ _ _ _
              (level_step extractPage extractLinks _ _ _) _ _ _ Hi Hloop) as [H _].
  exact H.
Qed.

(** X29.  When no extraction fails, a crawl that does not reach its budget
    reports [all_visited], never [no_more_links], whether the pages had
    links or not. *)
Theorem crawl_all_visited (fuel : nat) (startUrl : str) (options : option CrawlOptions)
    (r : CrawlResult) :
  (forall u, extractPage u <> None) ->
  crawl fuel startUrl options = Returned r ->
  stopped_reason_of (summary r) = token_limit \/ stopped_reason_of (summary r) = all_visited.
Proof.
  intros Hall Hr.
  destruct (crawl_returned _ _ _ _ _ _ _ Hr) as (n & d & s & Hn & Hloop & ->).
  assert (Hi : all_fetched (initial n)).
  { split; [reflexivity|]. split; [constructor|]. split; [reflexivity|]. discriminate. }
  assert (Hend : stoppedReason s = token_limit \/ (all_fetched s /\ queue s = [])).
  { revert Hi Hloop.
    apply (loop_invariant extractPage extractLinks all_fetched
             (fun s => stoppedReason s = token_limit \/ (all_fetched s /\ queue s = []))).
    - auto.
    - intros s0 entry rest s' Hs Hq Hturn.
      pose proof (fetched_step extractPage extractLinks
                    (options_maxTokens defaultMaxTokens options) (options_filter options) d
                    s0 entry rest _ Hall Hs Hq
                    (turn_cases extractPage extractLinks _ _ _ entry _)) as H.
      rewrite Hturn in H. exact H.
    - intros s0 entry rest s' Hs Hq Hturn.
      pose proof (fetched_step extractPage extractLinks
                    (options_maxTokens defaultMaxTokens options) (options_filter options) d
                    s0 entry rest _ Hall Hs Hq
                    (turn_cases extractPage extractLinks _ _ _ entry _)) as H.
      rewrite Hturn in H. left. exact H. }
  destruct Hend as [Ht | [(Hs & Hnd & Hv & Hne) Hq]].
  - left. apply result_stopped, Ht.
  - right. unfold result_of. cbn [summary stopped_reason_of]. rewrite Hs, Hq.
    cbn [stopped_eqb negb length Nat.eqb].
    assert (Hsize : size (visited s) = length (crawled s)).
    { rewrite Hv. rewrite size_list_to_set by exact Hnd. apply length_map. }
    rewrite Hsize. rewrite andb_true_r.
    assert (Hpos : (0 < length (crawled s))%nat).
    { destruct (crawled s); [exfalso; apply Hne; [reflexivity|exact Hq]|simpl; lia]. }
    replace (0 <? Z.of_nat (length (crawled s))) with true by (symmetry; apply Z.ltb_lt; lia).
    rewrite Z.ltb_irrefl. reflexivity.
Qed.

(** X30.  Every page but the seed has a URL that came through the link filter
    of the crawl; so a page whose URL matches an exclude pattern can only
    be the seed. *)
Theorem crawl_pages_filtered (fuel : nat) (startUrl : str) (options : option CrawlOptions)
    (r : CrawlResult) :
  crawl fuel startUrl options = Returned r ->
  exists n,
    Url.normalizeUrl startUrl = Some n
    /\ Forall (fun p => came_through n (options_filter options) (CrawlPageResult.url p))
              (pages r)
    /\ forall p patterns pattern,
         In p (pages r) ->
         LinkResolver.excludePatterns (options_filter options) = Some patterns ->
         In pattern patterns ->
         Url.matchesPattern (CrawlPageResult.url p) pattern = true ->
         CrawlPageResult.url p = n.
Proof.
  intros Hr. destruct (crawl_returned _ _ _ _ _ _ _ Hr) as (n & d & s & Hn & Hloop & ->).
  change (pages (result_of s)) with (crawled s). exists n. split; [exact Hn|].
  assert (Hi : all_came_through n (options_filter options) (initial n)).
  { split; [|constructor]. constructor; [left; reflexivity|constructor]. }
  destruct (loop_keeps extractPage extractLinks _ _ _ _
              (through_step extractPage extractLinks n _ _ _) _ _ _ Hi Hloop) as [_ H].
  split; [exact H|]. intros p patterns pattern Hp He Hin Hm.
  rewrite List.Forall_forall in H. destruct (H p Hp) as [E | (link & El & Hpass)]; [exact E|].
  destruct Hpass as (_ & _ & _ & _ & Hex). rewrite <- El in Hm.
  rewrite (Hex patterns pattern He Hin) in Hm. discriminate.
Qed.

End Engine.

Lemma two_pages_crawl :
  Crawler.crawl 100000 two_pages one_link 5 (lit "https://example.com/") None
  = Returned two_pages_result.
Proof. vm_compute. reflexivity. Qed.

Lemma crawl_pages_distinct_witness :
  NoDup (map CrawlPageResult.url (pages two_pages_result))
  /\ match pages two_pages_result with
     | [] => True
     | p :: _ => Url.normalizeUrl (lit "https://example.com/") = Some (CrawlPageResult.url p)
                 /\ CrawlPageResult.depth p = 0
     end.
Proof.
  apply (crawl_pages_distinct 100000 two_pages one_link 5 (lit "https://example.com/") None).
  exact two_pages_crawl.
Defined.

Lemma crawl_breadth_first_witness :
  level_order (map CrawlPageResult.depth (pages two_pages_result)).
Proof.
  apply (crawl_breadth_first 100000 two_pages one_link 5 (lit "https://example.com/") None).
  exact two_pages_crawl.
Defined.

Lemma crawl_all_visited_witness :
  stopped_reason_of (summary two_pages_result) = token_limit
  \/ stopped_reason_of (summary two_pages_result) = all_visited.
Proof.
  apply (crawl_all_visited 100000 two_pages one_link 5 (lit "https://example.com/") None).
  - intros u. unfold two_pages. destruct (eqb u _); discriminate.
  - exact two_pages_crawl.
Defined.

Lemma crawl_pages_filtered_witness :
  exists n,
    Url.normalizeUrl (lit "https://example.com/") = Some n
    /\ Forall (fun p => came_through n (options_filter None) (CrawlPageResult.url p))
              (pages two_pages_result)
    /\ forall p patterns pattern,
         In p (pages two_pages_result) ->
         LinkResolver.excludePatterns (options_filter None) = Some patterns ->
         In pattern patterns ->
         Url.matchesPattern (CrawlPageResult.url p) pattern = true ->
         CrawlPageResult.url p = n.
Proof.
  apply (crawl_pages_filtered 100000 two_pages one_link 5 (lit "https://example.com/") None).
  exact two_pages_crawl.
Defined.

End CrawlOrderSpec.
